(** * LocalFlowService: the supervisor of Flow server processes

    A shallow embedding of [pkg/nuclide/flow-base/lib/LocalFlowService.js]:
    the retry/spawn loop of [_execFlow], the exit observer that blacklists a
    root, [dispose], and the four request handlers [findDefinition],
    [findDiagnostics], [getAutocompleteSuggestions] and [getType].

    Conventions.
    - The service object is a record of its two fields; every method is a
      function in a state-and-exception monad over that record and over a
      trace of the calls made to the outside (processes run, spawned and
      killed, lines logged).
    - [await] is sequencing: a method is a function that runs to its end.
      A worker's exit event is a transition of its own ([worker_exit]).
      For calls that overlap, the stretches of a method between two
      [await]s are transitions too (see [call]), so that the invariants
      proved of the reachable states hold under every interleaving.
    - A JavaScript string is a [string] whose characters are code units
      below 256.
    - What the JavaScript runtime and the collaborating modules do
      ([asyncExecute], [getFlowExecOptions], [getPathToFlow],
      [insertAutocompleteToken], [JSON.parse], numeric coercion of
      non-numbers) is a field of the class [World], so every theorem holds
      for each of their behaviours. *)

From Stdlib Require Import ZArith String Ascii List Bool Lia.
From stdpp Require Import base gmap sets list strings.
Import ListNotations.
Set Warnings "-register-all".
Local Open Scope string_scope.
Local Open Scope list_scope.
Local Open Scope Z_scope.

(** ** Strings *)

Definition nl : ascii := ascii_of_nat 10.

(** [includes p s]: [p] occurs in [s] (a regular expression that is a
    literal text, as both patterns of the source are). *)
Fixpoint includes (p s : string) : bool :=
  String.prefix p s ||
  match s with
  | EmptyString => false
  | String _ s' => includes p s'
  end.

(** [output.split('\n')]: the lines of a text; never empty. *)
Fixpoint split_lines (s : string) : list string :=
  match s with
  | EmptyString => [EmptyString]
  | String c s' =>
      if Ascii.eqb c nl then EmptyString :: split_lines s'
      else match split_lines s' with
           | l :: ls => String c l :: ls
           | [] => [String c EmptyString]
           end
  end.

(** [output.split('\n')[0]] *)
Definition first_line (s : string) : string :=
  match split_lines s with
  | l :: _ => l
  | [] => EmptyString
  end.

(** [p] holds no line break. *)
Fixpoint no_newline (p : string) : bool :=
  match p with
  | EmptyString => true
  | String c p' => negb (Ascii.eqb c nl) && no_newline p'
  end.

(** The class [\s] of a regular expression, on code units below 256. *)
Definition is_space (c : ascii) : bool :=
  let n := nat_of_ascii c in
  ((9 <=? n)%nat && (n <=? 13)%nat) || (n =? 32)%nat || (n =? 160)%nat.

(** [/^\s*$/.test(s)] *)
Fixpoint all_space (s : string) : bool :=
  match s with
  | EmptyString => true
  | String c s' => is_space c && all_space s'
  end.

(** ** JavaScript values *)

(** A value [JSON.parse] returns.  [JInt z] is a number that is an integer
    with [|z| <= 2^53]; [JNumOther] is any other number of a JSON text
    (fractional or larger), which is never zero. *)
Inductive json :=
| JNull
| JBool (b : bool)
| JInt (z : Z)
| JNumOther
| JStr (s : string)
| JArr (items : list json)
| JObj (fields : list (string * json)).

(** [undefined] is [None]. *)
Definition jsval := option json.

(** The result of an arithmetic operation: an integer the model tracks, or
    [NaN], or some number it does not track. *)
Inductive jsnum := Exact (z : Z) | NaN | Untracked.

Fixpoint assoc_last (k : string) (fields : list (string * json)) : jsval :=
  match fields with
  | [] => None
  | (k', v) :: rest =>
      match assoc_last k rest with
      | Some v' => Some v'
      | None => if String.eqb k k' then Some v else None
      end
  end.

Definition truthy (v : jsval) : bool :=
  match v with
  | None | Some JNull => false
  | Some (JBool b) => b
  | Some (JInt z) => negb (z =? 0)
  | Some JNumOther => true
  | Some (JStr s) => negb (String.eqb s EmptyString)
  | Some (JArr _) | Some (JObj _) => true
  end.

Definition safe_bound : Z := 2 ^ 53.

(** ** Processes, errors and events *)

Definition proc := nat.

(** An element of [args: Array<any>]: a string or a number. *)
Inductive arg := AStr (s : string) | ANum (n : Z).

Record options := { stdin : option string }.
Record flowOptions := { cwd : string }.
(** [assign({}, options, flowOptions)] *)
Record localOptions := { lo_stdin : option string; lo_cwd : string }.

Definition assign (o : options) (f : flowOptions) : localOptions :=
  {| lo_stdin := stdin o; lo_cwd := cwd f |}.

(** What [asyncExecute] resolves with. *)
Record exec_result := { exitCode : Z; stdout : string; stderr : string }.

(** The [exitCode] property of a rejection: absent, [null] or a number. *)
Inductive js_exit := ExitUndefined | ExitNull | ExitCode (z : Z).

(** What [asyncExecute] rejects with: any of the three properties the
    source reads may be absent. *)
Record exec_error :=
  { err_exitCode : js_exit; err_stdout : option string; err_stderr : option string }.

Inductive exec_outcome := ExecOk (r : exec_result) | ExecErr (e : exec_error).

Inductive exn :=
| ExecFailure (e : exec_error)
| TypeError
| SyntaxError.

Definition exn_stderr (e : exn) : option string :=
  match e with ExecFailure e' => err_stderr e' | _ => None end.

Definition exn_exitCode (e : exn) : js_exit :=
  match e with ExecFailure e' => err_exitCode e' | _ => ExitUndefined end.

Definition exn_stdout (e : exn) : option string :=
  match e with ExecFailure e' => err_stdout e' | _ => None end.

Inductive logged :=
| LogStderr (s : option string)
| LogExn (e : exn)
| LogTypeAtPos (file : string) (line column : Z) (e : exn)
| LogCrash (root : string).

Inductive event :=
| Exec (pathToFlow : string) (args : list arg) (opts : localOptions)
| Spawn (p : proc) (pathToFlow : string) (args : list string)
| Kill (p : proc) (sig : string)
| Log (l : logged).

Definition is_exec (e : event) : bool := match e with Exec _ _ _ => true | _ => false end.
Definition is_spawn (e : event) : bool := match e with Spawn _ _ _ => true | _ => false end.
Definition is_kill_of (p : proc) (e : event) : bool :=
  match e with Kill q _ => Nat.eqb p q | _ => false end.
Definition is_sigkill_of (p : proc) (e : event) : bool :=
  match e with Kill q sig => Nat.eqb p q && String.eqb sig "SIGKILL" | _ => false end.

Fixpoint count (f : event -> bool) (t : list event) : nat :=
  match t with
  | [] => O
  | e :: t' => ((if f e then 1 else 0) + count f t')%nat
  end.

(** ** The service and its surroundings *)

(** [_startedServers] is a [Set] of process objects, iterated in insertion
    order; [_failedRoots] a [Set] of strings.  [exit_listeners] are the
    closures registered with [serverProcess.on('exit', ...)], each with the
    [root] it captured; [next_proc] numbers the process objects [safeSpawn]
    has returned; [trace] is the history of outside calls, oldest first. *)
Record state := {
  _startedServers : list proc;
  _failedRoots : gset string;
  exit_listeners : list (proc * string);
  next_proc : proc;
  trace : list event;
}.

(** [new LocalFlowService()] *)
Definition constructor : state :=
  {| _startedServers := []; _failedRoots := ∅; exit_listeners := [];
     next_proc := 0%nat; trace := [] |}.

Definition emit (e : event) (s : state) : state :=
  {| _startedServers := _startedServers s; _failedRoots := _failedRoots s;
     exit_listeners := exit_listeners s; next_proc := next_proc s;
     trace := trace s ++ [e] |}.

(** [Set.prototype.add] on [_startedServers] *)
Definition add_server (p : proc) (s : state) : state :=
  {| _startedServers :=
       if existsb (Nat.eqb p) (_startedServers s) then _startedServers s
       else _startedServers s ++ [p];
     _failedRoots := _failedRoots s;
     exit_listeners := exit_listeners s; next_proc := next_proc s;
     trace := trace s |}.

(** [this._failedRoots.add(root)] *)
Definition add_failed_root (root : string) (s : state) : state :=
  {| _startedServers := _startedServers s; _failedRoots := {[ root ]} ∪ _failedRoots s;
     exit_listeners := exit_listeners s; next_proc := next_proc s;
     trace := trace s |}.

(** [serverProcess.on('exit', ...)] with the closure over [root] *)
Definition on_exit (p : proc) (root : string) (s : state) : state :=
  {| _startedServers := _startedServers s; _failedRoots := _failedRoots s;
     exit_listeners := exit_listeners s ++ [(p, root)]; next_proc := next_proc s;
     trace := trace s |}.

(** [safeSpawn(pathToFlow, args)]: a new process object. *)
Definition safeSpawn (pathToFlow : string) (args : list string) (s : state) : proc * state :=
  let p := next_proc s in
  (p, {| _startedServers := _startedServers s; _failedRoots := _failedRoots s;
         exit_listeners := exit_listeners s; next_proc := S p;
         trace := trace s ++ [Spawn p pathToFlow args] |}).

(** ** The monad of a method body *)

Inductive outcome (A : Type) :=
| Returns (a : A)
| Throws (e : exn)
| Diverges.
Arguments Returns {A} a.
Arguments Throws {A} e.
Arguments Diverges {A}.

Definition M (A : Type) : Type := state -> outcome A * state.

Definition ret {A} (a : A) : M A := fun s => (Returns a, s).
Definition throw {A} (e : exn) : M A := fun s => (Throws e, s).
Definition bind {A B} (m : M A) (k : A -> M B) : M B :=
  fun s =>
    match m s with
    | (Returns a, s') => k a s'
    | (Throws e, s') => (Throws e, s')
    | (Diverges, s') => (Diverges, s')
    end.
(** [try { m } catch (e) { h e }] *)
Definition try_catch {A} (m : M A) (h : exn -> M A) : M A :=
  fun s =>
    match m s with
    | (Throws e, s') => h e s'
    | r => r
    end.
Definition log (l : logged) : M unit := fun s => (Returns tt, emit (Log l) s).
Definition lift {A} (o : outcome A) : M A := fun s => (o, s).

Notation "x <- m ;; k" := (bind m (fun x => k))
  (at level 100, m at next level, right associativity).
Notation "m ;;; k" := (bind m (fun _ => k))
  (at level 100, right associativity).

(** ** dispose and the exit observer *)

(** [dispose]: lines 43-48. *)
Definition dispose (s : state) : state :=
  fold_left (fun s' server => emit (Kill server "SIGKILL") s') (_startedServers s) s.

(** The closure of lines 86-98, for the [root] it captured. *)
Definition exit_observer (root : string) (code : option Z) (signal : option string)
    (s : state) : state :=
  match code, signal with
  | Some 2, None => add_failed_root root (emit (Log (LogCrash root)) s)
  | _, _ => s
  end.

(** The runtime delivers the exit event of process [p] to the listeners
    registered on [p], in the order of their registration. *)
Definition worker_exit (p : proc) (code : option Z) (signal : option string)
    (s : state) : state :=
  fold_left
    (fun s' l => if Nat.eqb (fst l) p then exit_observer (snd l) code signal s' else s')
    (exit_listeners s) s.

(** The events [s'] has added to the trace of [s]. *)
Definition new_events (s s' : state) : list event := drop (length (trace s)) (trace s').

(** One retry: the spawn and the two registrations of lines 80-99.  (The
    listeners that forward the worker's output to the log, lines 81-85, act
    on no state of the service and are left out.) *)
Definition respawn (path root : string) (s : state) : state :=
  let (p, s2) := safeSpawn path ["server"; root] s in add_server p (on_exit p root s2).

Definition maxTries : nat := 5.

Definition no_server_running : string := "There is no flow server running".

(** ** Shapes of a run

    The state a run of the retry loop ends in, and what is read off a
    trace: the definitions the properties beyond the claims are stated
    with. *)

(** What the loop does with the outcome of the run with index [i] (lines
    69-103): it returns or throws, or ([None]) spawns a worker and tries
    again. *)
Definition settle (i : nat) (o : exec_outcome) : option (outcome exec_result) :=
  match o with
  | ExecOk result => Some (Returns result)
  | ExecErr e =>
      if (maxTries <=? i)%nat then Some (Throws (ExecFailure e))
      else match err_stderr e with
           | None => Some (Throws TypeError)
           | Some text =>
               if includes no_server_running text then None
               else Some (Throws (ExecFailure e))
           end
  end.

(** The state after [k] runs that failed and were retried. *)
Fixpoint retried (k : nat) (path : string) (args : list arg) (opts : localOptions)
    (root : string) (s : state) : state :=
  match k with
  | O => s
  | S k' => retried k' path args opts root (respawn path root (emit (Exec path args opts) s))
  end.

(** The events of [k] retried runs, the first spawn giving process [p]. *)
Fixpoint retry_events (k : nat) (path : string) (args : list arg) (opts : localOptions)
    (root : string) (p : proc) : list event :=
  match k with
  | O => []
  | S k' =>
      Exec path args opts :: Spawn p path ["server"; root]
        :: retry_events k' path args opts root (S p)
  end.

(** The runs of the binary in a trace. *)
Fixpoint execs (t : list event) : list event :=
  match t with
  | [] => []
  | e :: t' => if is_exec e then e :: execs t' else execs t'
  end.

Definition is_kill (e : event) : bool := match e with Kill _ _ => true | _ => false end.

(** The processes spawned in a trace, oldest first, each with the root
    named by its [server] command. *)
Fixpoint spawned (t : list event) : list (proc * string) :=
  match t with
  | [] => []
  | Spawn p _ args :: t' => (p, nth 1 args EmptyString) :: spawned t'
  | _ :: t' => spawned t'
  end.

(** The registry is exact: the tracked workers are the spawned processes
    in the order of their spawning, each with the exit listener of its
    root, and the processes are numbered from 0. *)
Record registry_exact (s : state) : Prop := {
  re_servers : _startedServers s = (spawned (trace s)).*1;
  re_listeners : exit_listeners s = spawned (trace s);
  re_procs : (spawned (trace s)).*1 = seq 0 (next_proc s);
}.

(** The state after the lines [ls] have been logged. *)
Definition add_logs (ls : list logged) (s : state) : state :=
  fold_left (fun s' l => emit (Log l) s') ls s.

(** A method body that does nothing to the state but log. *)
Definition logging {A} (m : M A) : Prop := forall s, exists ls, snd (m s) = add_logs ls s.

(** [s'] is [s] after some runs of the binary, retries and logged lines:
    what a method other than [dispose] can do to the state. *)
Inductive advances : state -> state -> Prop :=
| advances_refl s : advances s s
| advances_exec s s' path args opts :
    advances s s' -> advances s (emit (Exec path args opts) s')
| advances_respawn s s' path root :
    advances s s' -> advances s (respawn path root s')
| advances_log s s' l :
    advances s s' -> advances s (emit (Log l) s').

Definition is_null (v : json) : bool := match v with JNull => true | _ => false end.

(** What [_execFlow] makes of the way its loop ended (line 70: the result
    is returned as it is). *)
Definition some_result (r : outcome exec_result) : outcome (option exec_result) :=
  match r with
  | Returns result => Returns (Some result)
  | Throws e => Throws e
  | Diverges => Diverges
  end.

(** The text [findDiagnostics] goes on to decode after [_execFlow] (lines
    173-193): [None] when it returns before decoding, [Some None] when the
    text is [undefined]. *)
Definition decoded (r : outcome (option exec_result)) : option (option string) :=
  match r with
  | Returns (Some result) => Some (Some (stdout result))
  | Throws e =>
      match exn_exitCode e with
      | ExitUndefined => None
      | _ => Some (exn_stdout e)
      end
  | _ => None
  end.

(** What surrounds the service: the collaborating modules and the runtime. *)
Class World := {
  (** [getFlowExecOptions(file)]: the options of the nearest enclosing root,
      or [null]. *)
  getFlowExecOptions : string -> option flowOptions;
  (** [getPathToFlow()] *)
  getPathToFlow : string;
  (** [asyncExecute(path, args, options)], given the history so far. *)
  asyncExecute : list event -> string -> list arg -> localOptions -> exec_outcome;
  (** [insertAutocompleteToken(contents, line, column)] *)
  insertAutocompleteToken : string -> Z -> Z -> string;
  (** [JSON.parse(text)]; [None] is its [SyntaxError]. *)
  JSON_parse : string -> option json;
  (** [v - 1] for a string, array or object [v]; [None] is the [TypeError]
      of an object that cannot be converted. *)
  coerce_minus_one : json -> option jsnum;
}.

Section Service.
Context {env : World}.

(** The loop of lines 67-106.  The source's loop has no bound of its own;
    [fuel] bounds the unfolding and [Diverges] marks its exhaustion. *)
Fixpoint exec_loop (fuel : nat) (i : nat) (pathToFlow : string) (args : list arg)
    (opts : localOptions) (root : string) : M exec_result :=
  match fuel with
  | O => lift Diverges
  | S fuel' =>
      fun s =>
        let s1 := emit (Exec pathToFlow args opts) s in
        match asyncExecute (trace s) pathToFlow args opts with
        | ExecOk result => (Returns result, s1)
        | ExecErr e =>
            if (maxTries <=? i)%nat then (Throws (ExecFailure e), s1)
            else
              match err_stderr e with
              | None => (Throws TypeError, s1)
              | Some text =>
                  if includes no_server_running text then
                    exec_loop fuel' (S i) pathToFlow args opts root (respawn pathToFlow root s1)
                  else (Throws (ExecFailure e), s1)
              end
        end
  end.

(** [_execFlow]: lines 54-109.  [None] is [null]. *)
Definition _execFlow_fuel (fuel : nat) (args : list arg) (o : options) (file : string)
    : M (option exec_result) :=
  fun s =>
    match getFlowExecOptions file with
    | None => (Returns None, s)
    | Some flowOpts =>
        let root := cwd flowOpts in
        let opts := assign o flowOpts in
        if decide (root ∈ _failedRoots s) then (Returns None, s)
        else
          let args' := args ++ [AStr "--no-auto-start"] in
          bind (exec_loop fuel 0 getPathToFlow args' opts root)
               (fun result => ret (Some result)) s
    end.

(** [S maxTries] iterations are never exhausted ([exec_loop_terminates])
    and more fuel changes nothing ([exec_loop_fuel]). *)
Definition _execFlow := _execFlow_fuel (S maxTries).

(** *** Reading a decoded value *)

(** [JSON.parse(text)] where [text] may be [undefined] (which reads as
    the text "undefined", not a JSON text). *)
Definition parse (text : option string) : M json :=
  match text with
  | None => throw SyntaxError
  | Some t => match JSON_parse t with
              | Some j => ret j
              | None => throw SyntaxError
              end
  end.

(** The property [key] of a value other than [null], for one of the keys
    the source reads ([path], [line], [start], [errors], [name], [type]):
    the own property of an object, [undefined] on every other value. *)
Definition prop (v : json) (key : string) : jsval :=
  match v with
  | JObj fields => assoc_last key fields
  | _ => None
  end.

(** [v[key]]: a [TypeError] on [null]. *)
Definition get (v : json) (key : string) : M jsval :=
  match v with
  | JNull => throw TypeError
  | _ => ret (prop v key)
  end.

(** [v - 1] *)
Definition minus_one (v : jsval) : M jsnum :=
  match v with
  | None => ret NaN
  | Some JNull => ret (Exact (-1))
  | Some (JBool b) => ret (Exact (if b then 0 else -1))
  | Some (JInt z) =>
      ret (if (- safe_bound <? z) && (z <=? safe_bound) then Exact (z - 1) else Untracked)
  | Some JNumOther => ret Untracked
  | Some v' => match coerce_minus_one v' with
               | Some n => ret n
               | None => throw TypeError
               end
  end.

(** *** findDefinition: lines 111-150 *)

Record Loc := { file : json; line : jsnum; column : jsnum }.

(** [args] of line 125 *)
Definition get_def_args (file0 : string) (line0 column0 : Z) : list arg :=
  [AStr "get-def"; AStr "--json"; AStr "--path"; AStr file0; ANum line0; ANum column0].

Definition findDefinition (file0 currentContents : string) (line0 column0 : Z)
    : M (option Loc) :=
  let o := {| stdin := Some currentContents |} in
  let args := get_def_args file0 line0 column0 in
  try_catch
    (result <- _execFlow args o file0 ;;
     match result with
     | None => ret None
     | Some result =>
         if exitCode result =? 0 then
           j <- parse (Some (stdout result)) ;;
           path <- get j "path" ;;
           if truthy path then
             l <- get j "line" ;;
             l' <- minus_one l ;;
             c <- get j "start" ;;
             c' <- minus_one c ;;
             match path with
             | Some f => ret (Some {| file := f; line := l'; column := c' |})
             | None => ret None
             end
           else ret None
         else
           log (LogStderr (Some (stderr result))) ;;; ret None
     end)
    (fun e => log (LogStderr (exn_stderr e)) ;;; ret None).

(** *** findDiagnostics: lines 157-200 *)

(** [if (currentContents)] on a [?string] *)
Definition nonempty (c : option string) : bool :=
  match c with
  | Some t => negb (String.eqb t EmptyString)
  | None => false
  end.

Definition empty_array : jsval := Some (JArr []).

(** The statements after the first [try] (lines 191-199), given [result.stdout]. *)
Definition decode_errors (text : option string) : M jsval :=
  r <- try_catch (j <- parse text ;; ret (Some j))
                 (fun e => log (LogExn e) ;;; ret None) ;;
  match r with
  | None => ret empty_array
  | Some j => get j "errors"
  end.

(** [options] and [args] of lines 158-171 *)
Definition diagnostics_options (currentContents : option string) : options :=
  if nonempty currentContents then {| stdin := currentContents |} else {| stdin := None |}.

Definition diagnostics_args (file0 : string) (currentContents : option string) : list arg :=
  if nonempty currentContents
  then [AStr "check-contents"; AStr "--json"; AStr file0]
  else [AStr "status"; AStr "--json"; AStr file0].

Definition findDiagnostics (file0 : string) (currentContents : option string) : M jsval :=
  let o := diagnostics_options currentContents in
  let args := diagnostics_args file0 currentContents in
  fun s =>
    match _execFlow args o file0 s with
    | (Returns None, s') => (Returns empty_array, s')
    | (Returns (Some result), s') => decode_errors (Some (stdout result)) s'
    | (Throws e, s') =>
        match exn_exitCode e with
        | ExitUndefined => (log (LogExn e) ;;; ret empty_array) s'
        | _ => decode_errors (exn_stdout e) s'
        end
    | (Diverges, s') => (Diverges, s')
    end.

(** *** getAutocompleteSuggestions: lines 202-235 *)

Record suggestion := { text : jsval; rightLabel : jsval; replacementPrefix : string }.

(** [json.map(item => ...)] on the items of an array *)
Fixpoint map_items (replacement : string) (items : list json) : M (list suggestion) :=
  match items with
  | [] => ret []
  | item :: rest =>
      n <- get item "name" ;;
      t <- get item "type" ;;
      more <- map_items replacement rest ;;
      ret ({| text := n; rightLabel := t; replacementPrefix := replacement |} :: more)
  end.

Definition getAutocompleteSuggestions (file0 currentContents : string)
    (line0 column0 : Z) (prefix0 : string) : M (list suggestion) :=
  let args := [AStr "autocomplete"; AStr "--json"; AStr file0] in
  let o := {| stdin := Some (insertAutocompleteToken currentContents line0 column0) |} in
  try_catch
    (result <- _execFlow args o file0 ;;
     match result with
     | None => ret []
     | Some result =>
         if exitCode result =? 0 then
           j <- parse (Some (stdout result)) ;;
           let replacement := if all_space prefix0 then EmptyString else prefix0 in
           match j with
           | JArr items => map_items replacement items
           | _ => throw TypeError
           end
         else ret []
     end)
    (fun _ => ret []).

(** *** getType: lines 237-274 *)

Definition failure_marker : string := String nl "Failure".

(** [args] of line 249, from the incremented position *)
Definition type_at_pos_args (line1 column1 : Z) : list arg :=
  [AStr "type-at-pos"; ANum line1; ANum column1].

Definition getType (file0 currentContents : string) (line0 column0 : Z)
    : M (option string) :=
  let o := {| stdin := Some currentContents |} in
  let line1 := line0 + 1 in
  let column1 := column0 + 1 in
  let args := type_at_pos_args line1 column1 in
  fun s =>
    match _execFlow args o file0 s with
    | (Returns None, s') => (Returns None, s')
    | (Returns (Some result), s') =>
        let output := stdout result in
        if includes failure_marker output then (Returns None, s')
        else
          let type := first_line output in
          if String.eqb type "(unknown)" || String.eqb type EmptyString
          then (Returns None, s')
          else (Returns (Some type), s')
    | (Throws e, s') => (log (LogTypeAtPos file0 line1 column1 e) ;;; ret None) s'
    | (Diverges, s') => (Diverges, s')
    end.

(** *** The transitions of a service

    A method call that runs alone, a disposal and the exit of a worker are
    transitions.  So is each stretch of a method between two [await]s that
    touches the state (a run of the binary, the spawn after a failed run, a
    line logged): a suspended call resumes with such a stretch after other
    calls and events have come in between, so the states an interleaving of
    concurrent calls can produce are among the reachable ones. *)

Inductive call :=
| CallExecFlow (args : list arg) (o : options) (file0 : string)
| CallFindDefinition (file0 currentContents : string) (line0 column0 : Z)
| CallFindDiagnostics (file0 : string) (currentContents : option string)
| CallAutocomplete (file0 currentContents : string) (line0 column0 : Z) (prefix0 : string)
| CallGetType (file0 currentContents : string) (line0 column0 : Z)
| CallDispose
| WorkerExit (p : proc) (code : option Z) (signal : option string)
| ResumeExec (pathToFlow : string) (args : list arg) (opts : localOptions)
| ResumeRespawn (pathToFlow root : string)
| ResumeLog (l : logged).

Definition run (c : call) (s : state) : state :=
  match c with
  | CallExecFlow args o f => snd (_execFlow args o f s)
  | CallFindDefinition f c l k => snd (findDefinition f c l k s)
  | CallFindDiagnostics f c => snd (findDiagnostics f c s)
  | CallAutocomplete f c l k p => snd (getAutocompleteSuggestions f c l k p s)
  | CallGetType f c l k => snd (getType f c l k s)
  | CallDispose => dispose s
  | WorkerExit p code signal => worker_exit p code signal s
  | ResumeExec path args opts => emit (Exec path args opts) s
  | ResumeRespawn path root => respawn path root s
  | ResumeLog l => emit (Log l) s
  end.

Definition run_all (cs : list call) (s : state) : state := fold_left (fun s' c => run c s') cs s.

(** The states a service can be in. *)
Definition reachable (s : state) : Prop := exists cs, s = run_all cs constructor.

(** The invariant of a service: a process object is tracked once, has one
    exit listener (the closure over the root it was spawned for), and every
    process ever spawned is tracked. *)
Record wf (s : state) : Prop := {
  wf_nodup : NoDup (_startedServers s);
  wf_listeners : NoDup (exit_listeners s).*1;
  wf_fresh : forall p r, (p, r) ∈ exit_listeners s -> (p < next_proc s)%nat;
  wf_spawned : forall p path args, Spawn p path args ∈ trace s ->
    p ∈ _startedServers s /\ exists r, args = ["server"; r] /\ (p, r) ∈ exit_listeners s;
  wf_owned : forall p r, (p, r) ∈ exit_listeners s ->
    exists path, Spawn p path ["server"; r] ∈ trace s;
}.

(** [s'] comes after [s] in a method body: the failed roots are the same,
    no tracked server is lost, the invariant is kept and the trace has only
    grown. *)
Record grows (s s' : state) : Prop := {
  grows_failed : _failedRoots s' = _failedRoots s;
  grows_servers : forall p, p ∈ _startedServers s -> p ∈ _startedServers s';
  grows_wf : wf s -> wf s';
  grows_trace : trace s' = trace s ++ new_events s s';
}.

(** A method body that only moves the state forward, and one that comes to
    an end. *)
Definition framed {A} (m : M A) : Prop := forall s, grows s (snd (m s)).
Definition terminates {A} (m : M A) : Prop := forall s, fst (m s) <> Diverges.

(** The surroundings in which no server ever comes up for this command:
    every run fails with the "no server running" text on [stderr]. *)
Definition sustained_absence (path : string) (args : list arg) (opts : localOptions) : Prop :=
  forall t, exists e text,
    asyncExecute t path args opts = ExecErr e /\
    err_stderr e = Some text /\
    includes no_server_running text = true.

End Service.

(** ** Sample collaborators

    Concrete surroundings for the examples at the end of the file: a reader
    of JSON texts, a project root, and scripted behaviours of the binary. *)

Module Sample.

Definition dq : ascii := ascii_of_nat 34.
Definition backslash : ascii := ascii_of_nat 92.

(** [quoted s] is [s] between double quotes. *)
Definition quoted (s : string) : string := String dq (s +:+ String dq EmptyString).

Definition is_json_space (c : ascii) : bool :=
  let n := nat_of_ascii c in
  (n =? 32)%nat || (n =? 9)%nat || (n =? 10)%nat || (n =? 13)%nat.

Fixpoint skip_space (s : string) : string :=
  match s with
  | String c s' => if is_json_space c then skip_space s' else s
  | EmptyString => s
  end.

Definition digit (c : ascii) : option Z :=
  let n := nat_of_ascii c in
  if (48 <=? n)%nat && (n <=? 57)%nat then Some (Z.of_nat (n - 48)) else None.

Definition hex_digit (c : ascii) : option nat :=
  let n := nat_of_ascii c in
  if (48 <=? n)%nat && (n <=? 57)%nat then Some (n - 48)%nat
  else if (65 <=? n)%nat && (n <=? 70)%nat then Some (n - 55)%nat
  else if (97 <=? n)%nat && (n <=? 102)%nat then Some (n - 87)%nat
  else None.

Fixpoint read_digits (acc : Z) (s : string) : Z * string :=
  match s with
  | String c s' =>
      match digit c with
      | Some d => read_digits (10 * acc + d) s'
      | None => (acc, s)
      end
  | EmptyString => (acc, s)
  end.

(** An integer literal.  A literal with a fraction or an exponent, or
    beyond [2^53], is outside this reader: it answers [None]. *)
Definition read_int (s : string) : option (json * string) :=
  let (negative, s1) :=
    match s with
    | String c r => if Ascii.eqb c "-" then (true, r) else (false, s)
    | EmptyString => (false, s)
    end in
  match s1 with
  | String c r =>
      match digit c with
      | None => None
      | Some d =>
          let (z, rest) := if d =? 0 then (0, r) else read_digits d r in
          let more :=
            match rest with
            | String c' _ => Ascii.eqb c' "." || Ascii.eqb c' "e" || Ascii.eqb c' "E"
            | EmptyString => false
            end in
          if more || (safe_bound <? z) then None
          else Some (JInt (if negative then - z else z), rest)
      end
  | EmptyString => None
  end.

(** The characters of a string literal after its opening quote.  An escape
    [\uXXXX] above 255 is outside this reader. *)
Fixpoint read_chars (s : string) : option (string * string) :=
  match s with
  | EmptyString => None
  | String c s' =>
      if Ascii.eqb c dq then Some (EmptyString, s')
      else if Ascii.eqb c backslash then
        match s' with
        | String e s'' =>
            let simple (ch : ascii) :=
              match read_chars s'' with
              | Some (t, rest) => Some (String ch t, rest)
              | None => None
              end in
            if Ascii.eqb e dq then simple dq
            else if Ascii.eqb e backslash then simple backslash
            else if Ascii.eqb e "/" then simple "/"%char
            else if Ascii.eqb e "b" then simple (ascii_of_nat 8)
            else if Ascii.eqb e "f" then simple (ascii_of_nat 12)
            else if Ascii.eqb e "n" then simple (ascii_of_nat 10)
            else if Ascii.eqb e "r" then simple (ascii_of_nat 13)
            else if Ascii.eqb e "t" then simple (ascii_of_nat 9)
            else if Ascii.eqb e "u" then
              match s'' with
              | String h1 (String h2 (String h3 (String h4 s4))) =>
                  match hex_digit h1, hex_digit h2, hex_digit h3, hex_digit h4 with
                  | Some 0%nat, Some 0%nat, Some a, Some b =>
                      match read_chars s4 with
                      | Some (t, rest) => Some (String (ascii_of_nat (16 * a + b)) t, rest)
                      | None => None
                      end
                  | _, _, _, _ => None
                  end
              | _ => None
              end
            else None
        | EmptyString => None
        end
      else if (nat_of_ascii c <? 32)%nat then None
      else match read_chars s' with
           | Some (t, rest) => Some (String c t, rest)
           | None => None
           end
  end.

Definition expect (word : string) (v : json) (s : string) : option (json * string) :=
  if String.prefix word s
  then Some (v, String.substring (String.length word) (String.length s - String.length word) s)
  else None.

(** A value, the items of an array after its bracket or a comma, and the
    members of an object after its brace or a comma. *)
Fixpoint read_value (fuel : nat) (s : string) : option (json * string) :=
  match fuel with
  | O => None
  | S fuel' =>
      match skip_space s with
      | EmptyString => None
      | String c r as s0 =>
          if Ascii.eqb c "n" then expect "null" JNull s0
          else if Ascii.eqb c "t" then expect "true" (JBool true) s0
          else if Ascii.eqb c "f" then expect "false" (JBool false) s0
          else if Ascii.eqb c dq then
            match read_chars r with
            | Some (t, rest) => Some (JStr t, rest)
            | None => None
            end
          else if Ascii.eqb c "[" then
            match skip_space r with
            | String c' r' =>
                if Ascii.eqb c' "]" then Some (JArr [], r')
                else match read_items fuel' r with
                     | Some (items, rest) => Some (JArr items, rest)
                     | None => None
                     end
            | EmptyString => None
            end
          else if Ascii.eqb c "{" then
            match skip_space r with
            | String c' r' =>
                if Ascii.eqb c' "}" then Some (JObj [], r')
                else match read_members fuel' r with
                     | Some (fields, rest) => Some (JObj fields, rest)
                     | None => None
                     end
            | EmptyString => None
            end
          else read_int s0
      end
  end
with read_items (fuel : nat) (s : string) : option (list json * string) :=
  match fuel with
  | O => None
  | S fuel' =>
      match read_value fuel' s with
      | None => None
      | Some (v, rest) =>
          match skip_space rest with
          | String c r =>
              if Ascii.eqb c "]" then Some ([v], r)
              else if Ascii.eqb c "," then
                match read_items fuel' r with
                | Some (vs, rest') => Some (v :: vs, rest')
                | None => None
                end
              else None
          | EmptyString => None
          end
      end
  end
with read_members (fuel : nat) (s : string) : option (list (string * json) * string) :=
  match fuel with
  | O => None
  | S fuel' =>
      match skip_space s with
      | String c r =>
          if Ascii.eqb c dq then
            match read_chars r with
            | None => None
            | Some (k, rest) =>
                match skip_space rest with
                | String c1 r1 =>
                    if Ascii.eqb c1 ":" then
                      match read_value fuel' r1 with
                      | None => None
                      | Some (v, rest1) =>
                          match skip_space rest1 with
                          | String c2 r2 =>
                              if Ascii.eqb c2 "}" then Some ([(k, v)], r2)
                              else if Ascii.eqb c2 "," then
                                match read_members fuel' r2 with
                                | Some (kvs, rest2) => Some ((k, v) :: kvs, rest2)
                                | None => None
                                end
                              else None
                          | EmptyString => None
                          end
                      end
                    else None
                | EmptyString => None
                end
            end
          else None
      | EmptyString => None
      end
  end.

(** [JSON.parse] on the texts of this reader (JSON whose numbers are
    integer literals up to [2^53] and whose strings hold code units below
    256): one value and nothing after it. *)
Definition JSON_parse (s : string) : option json :=
  match read_value (2 * String.length s + 2) s with
  | Some (v, rest) =>
      match skip_space rest with
      | EmptyString => Some v
      | String _ _ => None
      end
  | None => None
  end.

(** A project rooted at [/proj]: its files are the paths below it. *)
Definition root : string := "/proj".

Definition getFlowExecOptions (file0 : string) : option flowOptions :=
  if String.prefix "/proj/" file0 then Some {| cwd := root |} else None.

Definition getPathToFlow : string := "flow".

(** The token goes at the end of the buffer, whatever the position. *)
Definition insertAutocompleteToken (contents : string) (line0 column0 : Z) : string :=
  contents +:+ "AUTO332".

(** Every string, array and object of the examples coerces to [NaN]. *)
Definition coerce_minus_one (v : json) : option jsnum := Some NaN.

Definition absent : exec_error :=
  {| err_exitCode := ExitCode 6; err_stdout := Some EmptyString;
     err_stderr := Some "There is no flow server running in '/proj'." |}.

(** No server ever comes up. *)
Definition never_up (t : list event) (path : string) (args : list arg)
    (opts : localOptions) : exec_outcome := ExecErr absent.

(** The server is up once a worker has been spawned; the binary then
    prints [out] and exits with [code]. *)
Definition up_after_spawn (code : Z) (out : string) (t : list event) (path : string)
    (args : list arg) (opts : localOptions) : exec_outcome :=
  if (count is_spawn t =? 0)%nat then ExecErr absent
  else ExecOk {| exitCode := code; stdout := out; stderr := EmptyString |}.

(** The server is up: the binary prints [out] and exits with 0. *)
Definition prints (out : string) (t : list event) (path : string)
    (args : list arg) (opts : localOptions) : exec_outcome :=
  ExecOk {| exitCode := 0; stdout := out; stderr := EmptyString |}.

(** The binary fails with [e], whatever it is asked. *)
Definition fails (e : exec_error) (t : list event) (path : string)
    (args : list arg) (opts : localOptions) : exec_outcome := ExecErr e.

(** The surroundings of the examples, for a behaviour [exec] of the binary. *)
Definition world (exec : list event -> string -> list arg -> localOptions -> exec_outcome)
    : World :=
  Build_World getFlowExecOptions getPathToFlow exec insertAutocompleteToken
    JSON_parse coerce_minus_one.

Definition a_js : string := "/proj/a.js".

(** A service that has asked for a type once: the server was absent, one
    worker (process 0) was spawned for [/proj], and the retry printed the
    type. *)
Definition ask_type : call := CallGetType a_js "var x = 1;" 0 4.

Definition one_worker : state :=
  run_all (env := world (up_after_spawn 0 "number")) [ask_type] constructor.

(** The same service after its worker has crashed. *)
Definition crashed : state := worker_exit 0%nat (Some 2) None one_worker.

(** What [get-def --json] prints for a definition at line 3, column 5. *)
Definition def_output : string :=
  "{" +:+ quoted "path" +:+ ":" +:+ quoted "/proj/lib.js" +:+ "," +:+
  quoted "line" +:+ ":3," +:+ quoted "endline" +:+ ":3," +:+
  quoted "start" +:+ ":5," +:+ quoted "end" +:+ ":9}".

(** What [status --json] prints, with exit code 2, when a file has a type
    error. *)
Definition errors_output : string :=
  "{" +:+ quoted "passed" +:+ ":false," +:+ quoted "errors" +:+ ":[{" +:+
  quoted "message" +:+ ":[]}]}".

Definition type_errors : exec_error :=
  {| err_exitCode := ExitCode 2; err_stdout := Some errors_output;
     err_stderr := Some EmptyString |}.

(** An output of three lines, the third of which begins with "Failure". *)
Definition late_failure : string :=
  "Foo" +:+ String nl ("bar" +:+ String nl "Failure: x").

(** A rejection that carries an exit code and an output but no [stderr]. *)
Definition silent : exec_error :=
  {| err_exitCode := ExitCode 2; err_stdout := Some errors_output; err_stderr := None |}.

(** Two projects, rooted at [/proj] and at [/lib]. *)
Definition two_roots (file0 : string) : option flowOptions :=
  if String.prefix "/proj/" file0 then Some {| cwd := "/proj" |}
  else if String.prefix "/lib/" file0 then Some {| cwd := "/lib" |}
  else None.

Definition world2 (exec : list event -> string -> list arg -> localOptions -> exec_outcome)
    : World :=
  Build_World two_roots getPathToFlow exec insertAutocompleteToken JSON_parse coerce_minus_one.

(** The service of the two projects after a request in [/proj] has spawned
    worker 0. *)
Definition one_worker2 : state :=
  run_all (env := world2 (up_after_spawn 0 "number")) [ask_type] constructor.

(** What [autocomplete --json] prints for two completions, the second
    without a type. *)
Definition completions : string :=
  "[{" +:+ quoted "name" +:+ ":" +:+ quoted "foo" +:+ "," +:+
  quoted "type" +:+ ":" +:+ quoted "number" +:+ "},{" +:+
  quoted "name" +:+ ":" +:+ quoted "bar" +:+ "}]".

End Sample.

(** * QuickSelectionComponent: the selection of the quick-open panel

    A shallow embedding of the selection logic of
    [pkg/nuclide/quick-open/lib/QuickSelectionComponent.js]: the four
    movements of the selection, [select], [getItemAtIndex] and [_setResult].

    Conventions.
    - The component state is a record of the fields these methods read and
      write ([activeTab], which only the tab handler touches, is left out).
      A method that calls [setState] is the function from the state it
      reads to the state React leaves once it has merged the update; the
      events React emits around an update are not part of the model, the
      event [select] emits itself is.
    - A JavaScript object used as a map is the list of its own enumerable
      properties in the order of [Object.keys]; its names are distinct.
      Reading a name the object does not own falls through to
      [Object.prototype]: the model answers [Unmodelled] when such a read
      finds one of the inherited properties, and [undefined] otherwise.
    - [filterEmptyResults] comes from [./searchResultHelpers], which is not
      among the sources; it is a field of the class [SearchResultHelpers],
      so every theorem holds for each function put in its place. *)

Module QuickSelection.

(** ** Objects and arrays *)

#[warnings="-notation-for-abbreviation"]
Notation object V := (list (string * V)) (only parsing).

(** [Object.keys(o)] *)
Definition keys {V : Type} (o : object V) : list string := map fst o.

(** The own property [k] of [o]. *)
Fixpoint own {V : Type} (o : object V) (k : string) : option V :=
  match o with
  | [] => None
  | (k', v) :: rest => if String.eqb k' k then Some v else own rest k
  end.

(** The names every object inherits from [Object.prototype]. *)
Definition Object_prototype : list string :=
  [ "constructor"; "toString"; "toLocaleString"; "valueOf"; "hasOwnProperty";
    "isPrototypeOf"; "propertyIsEnumerable"; "__proto__"; "__defineGetter__";
    "__defineSetter__"; "__lookupGetter__"; "__lookupSetter__" ].

Definition inherited (k : string) : bool := existsb (String.eqb k) Object_prototype.

(** What [o[k]] evaluates to. *)
Inductive property (V : Type) : Type :=
| Own (v : V)
| Inherited
| Undefined.
Arguments Own {V} v.
Arguments Inherited {V}.
Arguments Undefined {V}.

Definition read {V : Type} (o : object V) (k : string) : property V :=
  match own o k with
  | Some v => Own v
  | None => if inherited k then Inherited else Undefined
  end.

(** A value used as a property name: [undefined] names the property
    ["undefined"]. *)
Definition key_of (k : option string) : string :=
  match k with Some name => name | None => "undefined" end.

(** [names.indexOf(k)], on an array of strings: [undefined] is not found. *)
Fixpoint indexOf_from (names : list string) (k : string) (i : Z) : Z :=
  match names with
  | [] => -1
  | name :: rest => if String.eqb name k then i else indexOf_from rest k (i + 1)
  end.

Definition indexOf (names : list string) (k : option string) : Z :=
  match k with Some name => indexOf_from names name 0 | None => -1 end.

(** [a[i]] for an integer [i]: [undefined] out of range. *)
Definition element {A : Type} (a : list A) (i : Z) : option A :=
  if i <? 0 then None else nth_error a (Z.to_nat i).

(** [a.length] *)
Definition len {A : Type} (a : list A) : Z := Z.of_nat (length a).

(** [Array.prototype.shift] and [Array.prototype.pop], as they are applied
    to a fresh array of names: what the call returns. *)
Inductive arrayOperation := Shift | Pop.

Definition call_on (op : arrayOperation) (names : list string) : option string :=
  match op with
  | Shift => head names
  | Pop => last names
  end.

(** [o[k] = v]: an own property keeps its place, a new one comes last.  A
    new name made of digits would be ordered among the indices, and
    [__proto__] is no property at all: the model leaves both out. *)
Fixpoint overwrite {V : Type} (o : object V) (k : string) (v : V) : object V :=
  match o with
  | [] => []
  | (k', v') :: rest =>
      if String.eqb k' k then (k', v) :: rest else (k', v') :: overwrite rest k v
  end.

Definition is_digit (c : ascii) : bool :=
  let n := nat_of_ascii c in ((48 <=? n) && (n <=? 57))%nat.

Definition digits (k : string) : bool :=
  match k with
  | EmptyString => false
  | _ => forallb is_digit (list_ascii_of_string k)
  end.

(** ** Results of a method *)

Inductive answer (A : Type) : Type :=
| Value (a : A)
| Raises        (* a TypeError *)
| Unmodelled.
Arguments Value {A} a.
Arguments Raises {A}.
Arguments Unmodelled {A}.

(** The method comes to an end with a value. *)
Definition returns {A : Type} (a : answer A) : Prop := exists v, a = Value v.

Definition set_property {V : Type} (o : object V) (k : string) (v : V) : answer (object V) :=
  match own o k with
  | Some _ => Value (overwrite o k v)
  | None =>
      if String.eqb k "__proto__" || digits k then Unmodelled
      else Value (o ++ [(k, v)])
  end.

(** ** The component state: lines 59-67 and 85-102 *)

Record directoryResults := {
  items : option (list json);
  waiting : bool;
  error : option string
}.

#[warnings="-notation-for-abbreviation"]
Notation ResultsByService := (object (object directoryResults)) (only parsing).

(** A row of the list: a service, a directory and the index of an item. *)
#[warnings="-notation-for-abbreviation"]
Notation position := (string * string * Z)%type (only parsing).

Record state := {
  resultsByService : ResultsByService;
  selectedDirectory : option string;
  selectedService : string;
  selectedItemIndex : Z
}.

Definition constructor : state :=
  {| resultsByService := [];
     selectedDirectory := Some EmptyString;
     selectedService := EmptyString;
     selectedItemIndex := -1 |}.

Class SearchResultHelpers := {
  filterEmptyResults : ResultsByService -> ResultsByService
}.

(** [x.items.length], for [x] a directory's results. *)
Definition items_length (d : directoryResults) : answer Z :=
  match items d with
  | Some l => Value (len l)
  | None => Raises
  end.

(** ** setSelectedIndex, clearSelection: lines 212-214 and 398-404 *)

Definition setSelectedIndex (service : string) (directory : option string) (itemIndex : Z)
    (s : state) : state :=
  {| resultsByService := resultsByService s;
     selectedDirectory := directory;
     selectedService := service;
     selectedItemIndex := itemIndex |}.

Definition clearSelection (s : state) : state :=
  setSelectedIndex EmptyString (Some EmptyString) (-1) s.

(** [getSelectedIndex]: lines 390-396 *)
Definition getSelectedIndex (s : state) : string * option string * Z :=
  (selectedService s, selectedDirectory s, selectedItemIndex s).

Section Component.
Context {helpers : SearchResultHelpers}.

(** ** _getCurrentResultContext: lines 216-243 *)

Record context := {
  nonEmptyResults : ResultsByService;
  serviceNames : list string;
  currentServiceIndex : Z;
  currentService : object directoryResults;
  directoryNames : list string;
  currentDirectoryIndex : Z;
  currentDirectory : directoryResults
}.

Definition _getCurrentResultContext (s : state) : answer (option context) :=
  let nonEmptyResults := filterEmptyResults (resultsByService s) in
  let serviceNames := keys nonEmptyResults in
  let currentServiceIndex := indexOf serviceNames (Some (selectedService s)) in
  match read nonEmptyResults (selectedService s) with
  | Inherited => Unmodelled
  | Undefined => Value None
  | Own currentService =>
      let directoryNames := keys currentService in
      let currentDirectoryIndex := indexOf directoryNames (selectedDirectory s) in
      match read currentService (key_of (selectedDirectory s)) with
      | Inherited => Unmodelled
      | Undefined => Value None
      | Own currentDirectory =>
          match items currentDirectory with
          | None => Value None
          | Some _ =>
              Value (Some {| nonEmptyResults := nonEmptyResults;
                             serviceNames := serviceNames;
                             currentServiceIndex := currentServiceIndex;
                             currentService := currentService;
                             directoryNames := directoryNames;
                             currentDirectoryIndex := currentDirectoryIndex;
                             currentDirectory := currentDirectory |})
          end
      end
  end.

(** ** _getOuterResults: lines 351-364 *)

Record outer := {
  serviceName : string;
  directoryName : option string;
  results : option (list json)
}.

Definition _getOuterResults (op : arrayOperation) (s : state) : answer (option outer) :=
  let nonEmptyResults := filterEmptyResults (resultsByService s) in
  match call_on op (keys nonEmptyResults) with
  | None => Value None
  | Some serviceName =>
      if String.eqb serviceName EmptyString then Value None
      else
        match read nonEmptyResults serviceName with
        | Inherited => Unmodelled
        | Undefined => Raises
        | Own service =>
            let directoryName := call_on op (keys service) in
            match read service (key_of directoryName) with
            | Inherited => Unmodelled
            | Undefined => Raises
            | Own d =>
                Value (Some {| serviceName := serviceName;
                               directoryName := directoryName;
                               results := items d |})
            end
        end
  end.

(** ** moveSelectionToBottom, moveSelectionToTop: lines 335-349 *)

Definition moveSelectionToBottom (s : state) : answer state :=
  match _getOuterResults Pop s with
  | Value None => Value s
  | Value (Some bottom) =>
      match results bottom with
      | Some l =>
          Value (setSelectedIndex (serviceName bottom) (directoryName bottom) (len l - 1) s)
      | None => Raises
      end
  | Raises => Raises
  | Unmodelled => Unmodelled
  end.

Definition moveSelectionToTop (s : state) : answer state :=
  match _getOuterResults Shift s with
  | Value None => Value s
  | Value (Some top) => Value (setSelectedIndex (serviceName top) (directoryName top) 0 s)
  | Raises => Raises
  | Unmodelled => Unmodelled
  end.

(** ** moveSelectionDown: lines 245-279 *)

Definition moveSelectionDown (s : state) : answer state :=
  match _getCurrentResultContext s with
  | Raises => Raises
  | Unmodelled => Unmodelled
  | Value None => moveSelectionToTop s
  | Value (Some context) =>
      match items_length (currentDirectory context) with
      | Raises => Raises
      | Unmodelled => Unmodelled
      | Value n =>
          if selectedItemIndex s <? n - 1 then
            Value (setSelectedIndex (selectedService s) (selectedDirectory s)
                     (selectedItemIndex s + 1) s)
          else if currentDirectoryIndex context <? len (directoryNames context) - 1 then
            Value (setSelectedIndex (selectedService s)
                     (element (directoryNames context) (currentDirectoryIndex context + 1))
                     0 s)
          else if currentServiceIndex context <? len (serviceNames context) - 1 then
            match element (serviceNames context) (currentServiceIndex context + 1) with
            | None => Unmodelled
            | Some newServiceName =>
                match read (nonEmptyResults context) newServiceName with
                | Inherited => Unmodelled
                | Undefined => Raises
                | Own service =>
                    let newDirectoryName := call_on Shift (keys service) in
                    Value (setSelectedIndex newServiceName newDirectoryName 0 s)
                end
            end
          else moveSelectionToTop s
      end
  end.

(** ** moveSelectionUp: lines 281-319 *)

(** [service[name].items.length - 1] *)
Definition last_index (service : object directoryResults) (name : option string) : answer Z :=
  match read service (key_of name) with
  | Inherited => Unmodelled
  | Undefined => Raises
  | Own d =>
      match items_length d with
      | Value n => Value (n - 1)
      | Raises => Raises
      | Unmodelled => Unmodelled
      end
  end.

Definition moveSelectionUp (s : state) : answer state :=
  match _getCurrentResultContext s with
  | Raises => Raises
  | Unmodelled => Unmodelled
  | Value None => moveSelectionToBottom s
  | Value (Some context) =>
      if selectedItemIndex s >? 0 then
        Value (setSelectedIndex (selectedService s) (selectedDirectory s)
                 (selectedItemIndex s - 1) s)
      else if currentDirectoryIndex context >? 0 then
        let name := element (directoryNames context) (currentDirectoryIndex context - 1) in
        match last_index (currentService context) name with
        | Value i => Value (setSelectedIndex (selectedService s) name i s)
        | Raises => Raises
        | Unmodelled => Unmodelled
        end
      else if currentServiceIndex context >? 0 then
        match element (serviceNames context) (currentServiceIndex context - 1) with
        | None => Unmodelled
        | Some newServiceName =>
            match read (nonEmptyResults context) newServiceName with
            | Inherited => Unmodelled
            | Undefined => Raises
            | Own service =>
                let newDirectoryName := call_on Pop (keys service) in
                match last_index service newDirectoryName with
                | Value i => Value (setSelectedIndex newServiceName newDirectoryName i s)
                | Raises => Raises
                | Unmodelled => Unmodelled
                end
            end
        end
      else moveSelectionToBottom s
  end.

(** ** getItemAtIndex, getSelectedItem: lines 366-384 *)

Definition getItemAtIndex (serviceName : string) (directory : option string) (itemIndex : Z)
    (s : state) : answer (option json) :=
  if itemIndex =? -1 then Value None
  else
    match read (resultsByService s) serviceName with
    | Inherited => Unmodelled
    | Undefined => Value None
    | Own service =>
        match read service (key_of directory) with
        | Inherited => Unmodelled
        | Undefined => Value None
        | Own d =>
            match items d with
            | None => Raises
            | Some l =>
                if truthy (element l itemIndex) then Value (element l itemIndex)
                else Value None
            end
        end
    end.

Definition getSelectedItem (s : state) : answer (option json) :=
  getItemAtIndex (selectedService s) (selectedDirectory s) (selectedItemIndex s) s.

(** ** select, cancel: lines 199-210 *)

Inductive emitted :=
| Selected (selectedItem : json)
| Canceled.

Definition cancel : emitted := Canceled.

Definition select (s : state) : answer emitted :=
  match getSelectedItem s with
  | Value None => Value cancel
  | Value (Some selectedItem) => Value (Selected selectedItem)
  | Raises => Raises
  | Unmodelled => Unmodelled
  end.

(** ** _setResult: lines 406-418 *)

Definition _setResult (serviceName dirName : string) (results : directoryResults)
    (s : state) : answer state :=
  match read (resultsByService s) serviceName with
  | Inherited => Unmodelled
  | found =>
      let copy := match found with Own service => service | _ => [] end in
      match set_property copy dirName results with
      | Value updatedResultsByDirectory =>
          match set_property (resultsByService s) serviceName updatedResultsByDirectory with
          | Value updatedResultsByService =>
              Value {| resultsByService := updatedResultsByService;
                       selectedDirectory := selectedDirectory s;
                       selectedService := selectedService s;
                       selectedItemIndex := selectedItemIndex s |}
          | Raises => Raises
          | Unmodelled => Unmodelled
          end
      | Raises => Raises
      | Unmodelled => Unmodelled
      end
  end.

(** ** The rows of the list

    The places the selection can be at: the items of the filtered results,
    service by service, directory by directory, in the order [render]
    lists them. *)

Definition directory_positions (service directory : string) (d : directoryResults)
    : list position :=
  match items d with
  | Some l => map (fun i => (service, directory, Z.of_nat i)) (seq 0 (length l))
  | None => []
  end.

Definition service_positions (service : string) (directories : object directoryResults)
    : list position :=
  flat_map (fun e => directory_positions service e.1 e.2) directories.

Definition positions (r : ResultsByService) : list position :=
  flat_map (fun e => service_positions e.1 e.2) r.

(** The selection is at a given place. *)
Definition at_position (s : state) (p : position) : Prop :=
  getSelectedIndex s = (p.1.1, Some p.1.2, p.2).

(** The state with the selection put at a given place. *)
Definition place (p : position) (s : state) : state :=
  setSelectedIndex p.1.1 (Some p.1.2) p.2 s.

(** The typing of [ResultsByService]: distinct names, and every directory
    with its array of items. *)
Definition well_formed (r : ResultsByService) : Prop :=
  NoDup (keys r) /\
  Forall (fun e => NoDup (keys e.2) /\ Forall (fun d => is_Some (items d.2)) e.2) r.

(** Results with nothing empty in them: no service without a name or
    without a directory, no directory without an item. *)
Definition no_empty (r : ResultsByService) : Prop :=
  Forall (fun e => e.1 <> EmptyString /\ e.2 <> [] /\
                   Forall (fun d => items d.2 <> Some []) e.2) r.

(** The selection names no directory of the results [r]. *)
Definition selects_nothing (r : ResultsByService) (s : state) : Prop :=
  match read r (selectedService s) with
  | Undefined => True
  | Own directories => read directories (key_of (selectedDirectory s)) = Undefined
  | Inherited => False
  end.

(** The item of the results [r] at a row. *)
Definition item_at (r : ResultsByService) (p : position) : option json :=
  match own r p.1.1 with
  | Some directories =>
      match own directories p.1.2 with
      | Some d =>
          match items d with
          | Some l => element l p.2
          | None => None
          end
      | None => None
      end
  | None => None
  end.

(** The filtered results hold the results they were filtered from. *)
Definition kept (filtered r : ResultsByService) : Prop :=
  forall service directories directory d,
    own filtered service = Some directories ->
    own directories directory = Some d ->
    exists directories', own r service = Some directories' /\
                         own directories' directory = Some d.

End Component.

(** A filter for the examples: directories without items are dropped, and
    then services without directories. *)
Module Example.

Definition has_items (d : directoryResults) : bool :=
  match items d with Some (_ :: _) => true | _ => false end.

Definition filter_directories (directories : object directoryResults)
    : object directoryResults :=
  List.filter (fun e => has_items e.2) directories.

Definition drop_empty (r : ResultsByService) : ResultsByService :=
  List.filter (fun e => match e.2 with [] => false | _ => true end)
    (map (fun e => (e.1, filter_directories e.2)) r).

Definition helpers : SearchResultHelpers := {| filterEmptyResults := drop_empty |}.

(** A filter that keeps everything. *)
Definition keep_all : SearchResultHelpers := {| filterEmptyResults := fun r => r |}.

Definition found (l : list json) : directoryResults :=
  {| items := Some l; waiting := false; error := None |}.

Definition file (name : string) : json := JObj [("path", JStr name)].

(** Two services; the first has results in two directories, and a third
    directory still empty. *)
Definition two_services : ResultsByService :=
  [ ("FileListProvider",
      [ ("/a", found [file "/a/x.js"; file "/a/y.js"]);
        ("/b", found []);
        ("/c", found [file "/c/z.js"]) ]);
    ("OpenFileListProvider",
      [ ("/a", found [file "/a/x.js"]) ]) ].

(** The same once the results of [/b] have come in. *)
Definition two_services_b : ResultsByService :=
  [ ("FileListProvider",
      [ ("/a", found [file "/a/x.js"; file "/a/y.js"]);
        ("/b", found [file "/b/w.js"]);
        ("/c", found [file "/c/z.js"]) ]);
    ("OpenFileListProvider",
      [ ("/a", found [file "/a/x.js"]) ]) ].

Definition showing (r : ResultsByService) : state :=
  {| resultsByService := r;
     selectedDirectory := Some EmptyString;
     selectedService := EmptyString;
     selectedItemIndex := -1 |}.

End Example.

End QuickSelection.

Section Properties.
Context {env : World}.
Set Default Proof Using "Type".

(** ** Frame lemmas: what each operation leaves alone *)

Lemma new_events_app s s' evs : trace s' = trace s ++ evs -> new_events s s' = evs.
Proof.
  intros H. unfold new_events. rewrite H. by rewrite drop_app_length.
Qed.

Lemma grows_intro s s' evs :
  _failedRoots s' = _failedRoots s ->
  (forall p, p ∈ _startedServers s -> p ∈ _startedServers s') ->
  (wf s -> wf s') ->
  trace s' = trace s ++ evs ->
  grows s s'.
Proof.
  intros F S N T. split; auto. by rewrite (new_events_app s s' evs).
Qed.

Lemma grows_refl s : grows s s.
Proof. apply (grows_intro s s []); auto. by rewrite app_nil_r. Qed.

Lemma trace_trans s1 s2 s3 :
  trace s2 = trace s1 ++ new_events s1 s2 ->
  trace s3 = trace s2 ++ new_events s2 s3 ->
  trace s3 = trace s1 ++ (new_events s1 s2 ++ new_events s2 s3).
Proof.
  intros T1 T2. rewrite app_assoc, <- T1. exact T2.
Qed.

Lemma new_events_trans s1 s2 s3 :
  grows s1 s2 -> grows s2 s3 -> new_events s1 s3 = new_events s1 s2 ++ new_events s2 s3.
Proof.
  intros [_ _ _ T1] [_ _ _ T2]. apply new_events_app. by apply trace_trans.
Qed.

Lemma grows_trans s1 s2 s3 : grows s1 s2 -> grows s2 s3 -> grows s1 s3.
Proof.
  intros G1 G2. pose proof (new_events_trans _ _ _ G1 G2) as E.
  destruct G1 as [F1 S1 N1 T1], G2 as [F2 S2 N2 T2]. split.
  - congruence.
  - auto.
  - auto.
  - rewrite E. by apply trace_trans.
Qed.

Lemma new_events_emit e s : new_events s (emit e s) = [e].
Proof. by apply new_events_app. Qed.

(** An event other than a spawn leaves the invariant alone. *)
Lemma wf_emit e s : is_spawn e = false -> wf s -> wf (emit e s).
Proof.
  intros He [N L F Sp O]. split; simpl; auto.
  - intros p path args H. apply elem_of_app in H as [H|H]; [by apply Sp in H|].
    apply list_elem_of_singleton in H. subst e. discriminate.
  - intros p r H. destruct (O p r H) as [path Hp]. exists path.
    apply elem_of_app. by left.
Qed.

Lemma grows_emit e s : is_spawn e = false -> grows s (emit e s).
Proof.
  intros He. apply (grows_intro s (emit e s) [e]); auto. by apply wf_emit.
Qed.

Lemma elem_of_existsb (p : proc) (l : list proc) :
  existsb (Nat.eqb p) l = true <-> p ∈ l.
Proof.
  rewrite existsb_exists, list_elem_of_In. split.
  - intros (x & Hx & E). apply Nat.eqb_eq in E. by subst.
  - intros H. exists p. split; [done | apply Nat.eqb_refl].
Qed.

Lemma add_server_elem p q s :
  q ∈ _startedServers (add_server p s) <-> q = p \/ q ∈ _startedServers s.
Proof.
  unfold add_server; simpl.
  destruct (existsb (Nat.eqb p) (_startedServers s)) eqn:E.
  - apply elem_of_existsb in E. split; [auto | intros [->|]; auto].
  - rewrite elem_of_app, list_elem_of_singleton. split; intros [H|H]; auto.
Qed.

Lemma add_server_nodup p s :
  NoDup (_startedServers s) -> NoDup (_startedServers (add_server p s)).
Proof.
  intros H. unfold add_server; simpl.
  destruct (existsb (Nat.eqb p) (_startedServers s)) eqn:E; [done|].
  apply NoDup_app. split; [done|]. split; [| apply NoDup_singleton].
  intros x Hx Hp. apply list_elem_of_singleton in Hp. subst.
  apply elem_of_existsb in Hx. congruence.
Qed.

Lemma respawn_fields path root s :
  let s' := respawn path root s in
  _failedRoots s' = _failedRoots s /\
  exit_listeners s' = exit_listeners s ++ [(next_proc s, root)] /\
  next_proc s' = S (next_proc s) /\
  trace s' = trace s ++ [Spawn (next_proc s) path ["server"; root]] /\
  forall q, q ∈ _startedServers s' <-> q = next_proc s \/ q ∈ _startedServers s.
Proof.
  cbv zeta. unfold respawn, safeSpawn. repeat split; try done.
  - intros H. by apply add_server_elem in H.
  - intros H. by apply add_server_elem.
Qed.

Lemma wf_respawn path root s : wf s -> wf (respawn path root s).
Proof.
  intros [N L F Sp O].
  destruct (respawn_fields path root s) as (Ef & El & En & Et & Es).
  split.
  - unfold respawn, safeSpawn. by apply add_server_nodup.
  - rewrite El, fmap_app. apply NoDup_app. split; [done|].
    split; [| apply NoDup_singleton].
    intros x Hx Hp. simpl in Hp. apply list_elem_of_singleton in Hp. subst x.
    apply list_elem_of_fmap in Hx as ([q r] & Eq & Hin). simpl in Eq. subst q.
    apply F in Hin. lia.
  - intros p r H. rewrite En. rewrite El in H.
    apply elem_of_app in H as [H|H]; [apply F in H; lia|].
    apply list_elem_of_singleton in H. injection H as -> _. lia.
  - intros p path' args H. rewrite Et in H. rewrite El, Es.
    apply elem_of_app in H as [H|H].
    + destruct (Sp _ _ _ H) as (H1 & r & H2 & H3). split; [by right|].
      exists r. split; [done|]. apply elem_of_app. by left.
    + apply list_elem_of_singleton in H. injection H as -> -> ->.
      split; [by left|]. exists root. split; [done|].
      apply elem_of_app. right. by apply list_elem_of_singleton.
  - intros p r H. rewrite El in H. rewrite Et.
    apply elem_of_app in H as [H|H].
    + destruct (O p r H) as [path' Hp]. exists path'. apply elem_of_app. by left.
    + apply list_elem_of_singleton in H. injection H as -> ->.
      exists path. apply elem_of_app. right. by apply list_elem_of_singleton.
Qed.

Lemma grows_respawn path root s : grows s (respawn path root s).
Proof.
  destruct (respawn_fields path root s) as (Ef & El & En & Et & Es).
  apply (grows_intro s (respawn path root s) [Spawn (next_proc s) path ["server"; root]]).
  - exact Ef.
  - intros q Hq. apply Es. by right.
  - apply wf_respawn.
  - exact Et.
Qed.

Lemma new_events_respawn path root s :
  new_events s (respawn path root s) = [Spawn (next_proc s) path ["server"; root]].
Proof. by apply new_events_app. Qed.

(** ** The retry loop *)

Lemma count_app f t1 t2 : count f (t1 ++ t2) = (count f t1 + count f t2)%nat.
Proof. induction t1 as [|e t1 IH]; simpl; [done | rewrite IH; lia]. Qed.

Lemma exec_loop_step fuel i path args opts root s :
  exec_loop (S fuel) i path args opts root s =
  let s1 := emit (Exec path args opts) s in
  match asyncExecute (trace s) path args opts with
  | ExecOk result => (Returns result, s1)
  | ExecErr e =>
      if (maxTries <=? i)%nat then (Throws (ExecFailure e), s1)
      else match err_stderr e with
           | None => (Throws TypeError, s1)
           | Some text =>
               if includes no_server_running text
               then exec_loop fuel (S i) path args opts root (respawn path root s1)
               else (Throws (ExecFailure e), s1)
           end
  end.
Proof. reflexivity. Qed.

Lemma exec_loop_grows fuel : forall i path args opts root s,
  grows s (snd (exec_loop fuel i path args opts root s)).
Proof.
  induction fuel as [|fuel IH]; intros i path args opts root s.
  - apply grows_refl.
  - rewrite exec_loop_step. cbv zeta.
    pose proof (grows_emit (Exec path args opts) s eq_refl) as G1.
    destruct (asyncExecute (trace s) path args opts) as [r|e]; [exact G1|].
    destruct (maxTries <=? i)%nat; [exact G1|].
    destruct (err_stderr e) as [text|]; [|exact G1].
    destruct (includes no_server_running text); [|exact G1].
    eapply grows_trans; [exact G1|].
    eapply grows_trans; [apply grows_respawn | apply IH].
Qed.

(** With [S (maxTries - i)] units of fuel the loop started at [i] does not
    run out, makes one more run of the binary than it spawns workers, and
    spawns at most [maxTries - i] of them. *)
Lemma exec_loop_counts fuel : forall i path args opts root s,
  (S (maxTries - i) <= fuel)%nat ->
  let r := exec_loop fuel i path args opts root s in
  fst r <> Diverges /\
  count is_exec (new_events s (snd r)) = S (count is_spawn (new_events s (snd r))) /\
  (count is_spawn (new_events s (snd r)) <= maxTries - i)%nat.
Proof.
  induction fuel as [|fuel IH]; intros i path args opts root s Hf; [lia|].
  cbv zeta. rewrite exec_loop_step. cbv zeta.
  pose proof (new_events_emit (Exec path args opts) s) as E1.
  assert (Hstop : forall (o : outcome exec_result), o <> Diverges ->
            let r := (o, emit (Exec path args opts) s) in
            fst r <> Diverges /\
            count is_exec (new_events s (snd r)) = S (count is_spawn (new_events s (snd r))) /\
            (count is_spawn (new_events s (snd r)) <= maxTries - i)%nat).
  { intros o Ho. simpl. rewrite E1. simpl. repeat split; [done | lia]. }
  destruct (asyncExecute (trace s) path args opts) as [r|e]; [by apply Hstop|].
  destruct (maxTries <=? i)%nat eqn:Hi; [by apply Hstop|].
  destruct (err_stderr e) as [text|]; [|by apply Hstop].
  destruct (includes no_server_running text); [|by apply Hstop].
  apply Nat.leb_gt in Hi.
  set (s1 := emit (Exec path args opts) s).
  set (s2 := respawn path root s1).
  destruct (IH (S i) path args opts root s2) as (D & C & B); [lia|].
  split; [exact D|].
  assert (G : grows s s2).
  { apply (grows_trans s s1 s2); [by apply grows_emit | apply grows_respawn]. }
  rewrite (new_events_trans s s2 _ G (exec_loop_grows fuel (S i) path args opts root s2)).
  assert (E2 : new_events s s2 = [Exec path args opts; Spawn (next_proc s1) path ["server"; root]]).
  { unfold s2. rewrite (new_events_trans s s1 _ (grows_emit (Exec path args opts) s eq_refl) (grows_respawn path root s1)).
    unfold s1 at 1. rewrite new_events_emit, new_events_respawn. done. }
  rewrite E2, !count_app. simpl. split; lia.
Qed.

Lemma exec_loop_terminates i path args opts root s :
  fst (exec_loop (S (maxTries - i)) i path args opts root s) <> Diverges.
Proof. apply (exec_loop_counts (S (maxTries - i))). lia. Qed.

(** More fuel than [S (maxTries - i)] does not change the run. *)
Lemma exec_loop_fuel fuel : forall fuel' i path args opts root s,
  (S (maxTries - i) <= fuel)%nat -> (fuel <= fuel')%nat ->
  exec_loop fuel' i path args opts root s = exec_loop fuel i path args opts root s.
Proof.
  induction fuel as [|fuel IH]; intros fuel' i path args opts root s Hf Hle;
    [lia|].
  destruct fuel' as [|fuel']; [lia|].
  rewrite !exec_loop_step. cbv zeta.
  destruct (asyncExecute (trace s) path args opts) as [r|e]; [done|].
  destruct (maxTries <=? i)%nat eqn:Hi; [done|].
  destruct (err_stderr e) as [text|]; [|done].
  destruct (includes no_server_running text); [|done].
  apply Nat.leb_gt in Hi. apply IH; lia.
Qed.

(** ** Method bodies: frames and termination *)

Lemma framed_ret {A} (a : A) : framed (ret a).
Proof. intros s. apply grows_refl. Qed.

Lemma framed_throw {A} e : framed (@throw A e).
Proof. intros s. apply grows_refl. Qed.

Lemma framed_log l : framed (log l).
Proof. intros s. by apply grows_emit. Qed.

Lemma framed_bind {A B} (m : M A) (k : A -> M B) :
  framed m -> (forall a, framed (k a)) -> framed (bind m k).
Proof.
  intros Hm Hk s. unfold bind. specialize (Hm s).
  destruct (m s) as [[a|e|] s']; simpl in *; [|done|done].
  eapply grows_trans; [exact Hm | apply Hk].
Qed.

Lemma framed_try {A} (m : M A) (h : exn -> M A) :
  framed m -> (forall e, framed (h e)) -> framed (try_catch m h).
Proof.
  intros Hm Hh s. unfold try_catch. specialize (Hm s).
  destruct (m s) as [[a|e|] s']; simpl in *; [done| |done].
  eapply grows_trans; [exact Hm | apply Hh].
Qed.

Lemma terminates_ret {A} (a : A) : terminates (ret a).
Proof. by intros s. Qed.

Lemma terminates_throw {A} e : terminates (@throw A e).
Proof. by intros s. Qed.

Lemma terminates_log l : terminates (log l).
Proof. by intros s. Qed.

Lemma terminates_bind {A B} (m : M A) (k : A -> M B) :
  terminates m -> (forall a, terminates (k a)) -> terminates (bind m k).
Proof.
  intros Hm Hk s. unfold bind. specialize (Hm s).
  destruct (m s) as [[a|e|] s']; simpl in *; [apply Hk|done|done].
Qed.

Lemma terminates_try {A} (m : M A) (h : exn -> M A) :
  terminates m -> (forall e, terminates (h e)) -> terminates (try_catch m h).
Proof.
  intros Hm Hh s. unfold try_catch. specialize (Hm s).
  destruct (m s) as [[a|e|] s']; simpl in *; [done|apply Hh|done].
Qed.


Lemma framed_parse t : framed (parse t).
Proof.
  destruct t as [t|]; simpl; [|apply framed_throw].
  destruct (JSON_parse t); [apply framed_ret | apply framed_throw].
Qed.

Lemma terminates_parse t : terminates (parse t).
Proof.
  destruct t as [t|]; simpl; [|apply terminates_throw].
  destruct (JSON_parse t); [apply terminates_ret | apply terminates_throw].
Qed.

Lemma framed_get v key : framed (get v key).
Proof. destruct v; simpl; first [apply framed_throw | apply framed_ret]. Qed.

Lemma terminates_get v key : terminates (get v key).
Proof. destruct v; simpl; first [apply terminates_throw | apply terminates_ret]. Qed.

Lemma framed_minus_one v : framed (minus_one v).
Proof.
  destruct v as [[]|]; simpl; try apply framed_ret;
    destruct (coerce_minus_one _); first [apply framed_throw | apply framed_ret].
Qed.


Lemma framed_map_items r items : framed (map_items r items).
Proof.
  induction items as [|item rest IH]; simpl; [apply framed_ret|].
  apply framed_bind; [apply framed_get|]. intros n.
  apply framed_bind; [apply framed_get|]. intros t.
  apply framed_bind; [exact IH|]. intros more. apply framed_ret.
Qed.


Lemma framed_execFlow args o f : framed (_execFlow args o f).
Proof.
  intros s. unfold _execFlow, _execFlow_fuel.
  destruct (getFlowExecOptions f) as [fo|]; [|apply grows_refl].
  destruct (decide (cwd fo ∈ _failedRoots s)); [apply grows_refl|].
  apply framed_bind; [|intros r; apply framed_ret].
  intros s0. apply exec_loop_grows.
Qed.

Lemma terminates_execFlow args o f : terminates (_execFlow args o f).
Proof.
  intros s. unfold _execFlow, _execFlow_fuel.
  destruct (getFlowExecOptions f) as [fo|]; [|done].
  destruct (decide (cwd fo ∈ _failedRoots s)); [done|].
  apply terminates_bind; [|intros r; apply terminates_ret].
  intros s0. apply (exec_loop_terminates 0).
Qed.

Lemma framed_decode_errors t : framed (decode_errors t).
Proof.
  unfold decode_errors. apply framed_bind.
  - apply framed_try.
    + apply framed_bind; [apply framed_parse | intros j; apply framed_ret].
    + intros e. apply framed_bind; [apply framed_log | intros _; apply framed_ret].
  - intros [j|]; [apply framed_get | apply framed_ret].
Qed.

Lemma terminates_decode_errors t : terminates (decode_errors t).
Proof.
  unfold decode_errors. apply terminates_bind.
  - apply terminates_try.
    + apply terminates_bind; [apply terminates_parse | intros j; apply terminates_ret].
    + intros e. apply terminates_bind; [apply terminates_log | intros _; apply terminates_ret].
  - intros [j|]; [apply terminates_get | apply terminates_ret].
Qed.

Lemma framed_findDefinition f c l k : framed (findDefinition f c l k).
Proof.
  unfold findDefinition. apply framed_try.
  - apply framed_bind; [apply framed_execFlow|].
    intros [r|]; [|apply framed_ret].
    destruct (exitCode r =? 0).
    + apply framed_bind; [apply framed_parse|]. intros j.
      apply framed_bind; [apply framed_get|]. intros path.
      destruct (truthy path); [|apply framed_ret].
      apply framed_bind; [apply framed_get|]. intros l1.
      apply framed_bind; [apply framed_minus_one|]. intros l2.
      apply framed_bind; [apply framed_get|]. intros c1.
      apply framed_bind; [apply framed_minus_one|]. intros c2.
      destruct path; apply framed_ret.
    + apply framed_bind; [apply framed_log | intros _; apply framed_ret].
  - intros e. apply framed_bind; [apply framed_log | intros _; apply framed_ret].
Qed.

Lemma framed_findDiagnostics f c : framed (findDiagnostics f c).
Proof.
  intros s. unfold findDiagnostics.
  pose proof (framed_execFlow (diagnostics_args f c) (diagnostics_options c) f s) as G.
  destruct (_execFlow _ _ f s) as [[[r|]|e|] s']; simpl in G; simpl; try exact G.
  - eapply grows_trans; [exact G | apply framed_decode_errors].
  - destruct (exn_exitCode e).
    + eapply grows_trans; [exact G|].
      apply (framed_bind (log (LogExn e)) (fun _ => ret empty_array));
        [apply framed_log | intros _; apply framed_ret].
    + eapply grows_trans; [exact G | apply framed_decode_errors].
    + eapply grows_trans; [exact G | apply framed_decode_errors].
Qed.

Lemma framed_getAutocompleteSuggestions f c l k p :
  framed (getAutocompleteSuggestions f c l k p).
Proof.
  unfold getAutocompleteSuggestions. apply framed_try; [|intros _; apply framed_ret].
  apply framed_bind; [apply framed_execFlow|].
  intros [r|]; [|apply framed_ret].
  destruct (exitCode r =? 0); [|apply framed_ret].
  apply framed_bind; [apply framed_parse|]. intros j.
  destruct j; first [apply framed_throw | apply framed_map_items].
Qed.

Lemma framed_getType f c l k : framed (getType f c l k).
Proof.
  intros s. unfold getType.
  pose proof (framed_execFlow (type_at_pos_args (l + 1) (k + 1))
                {| stdin := Some c |} f s) as G.
  destruct (_execFlow _ _ f s) as [[[r|]|e|] s']; simpl in G; simpl; try exact G.
  - destruct (includes failure_marker (stdout r)); [exact G|].
    destruct (_ || _); exact G.
  - eapply grows_trans; [exact G | by apply grows_emit].
Qed.

(** ** Exit events and disposal *)

Lemma exit_observer_crash root s :
  exit_observer root (Some 2) None s = add_failed_root root (emit (Log (LogCrash root)) s).
Proof. reflexivity. Qed.

Lemma exit_observer_other root code signal s :
  ~ (code = Some 2 /\ signal = None) -> exit_observer root code signal s = s.
Proof.
  intros H. unfold exit_observer.
  destruct code as [[|[[]|[]|]|]|]; try done; destruct signal; try done.
  exfalso. by apply H.
Qed.

Lemma crash_dec (code : option Z) (signal : option string) :
  {code = Some 2 /\ signal = None} + {~ (code = Some 2 /\ signal = None)}.
Proof.
  destruct signal; [right; by intros []|].
  destruct (decide (code = Some 2)) as [H|H]; [by left | right; by intros []].
Qed.

Lemma wf_add_failed_root root s : wf s -> wf (add_failed_root root s).
Proof. intros [N L F Sp O]. by split. Qed.

Lemma exit_observer_fields root code signal s :
  let s' := exit_observer root code signal s in
  _startedServers s' = _startedServers s /\
  exit_listeners s' = exit_listeners s /\
  next_proc s' = next_proc s /\
  (wf s -> wf s') /\
  (forall r, r ∈ _failedRoots s' <->
             r ∈ _failedRoots s \/ (r = root /\ code = Some 2 /\ signal = None)) /\
  (forall e, e ∈ trace s -> e ∈ trace s').
Proof.
  cbv zeta. destruct (crash_dec code signal) as [[-> ->]|H].
  - rewrite exit_observer_crash. split_and!; try done.
    + intros W. apply wf_add_failed_root. by apply wf_emit.
    + intros r. simpl. rewrite elem_of_union, elem_of_singleton. split.
      * intros [->|H]; [by right | by left].
      * intros [H|(-> & _)]; [by right | by left].
    + intros e He. simpl. apply elem_of_app. by left.
  - rewrite (exit_observer_other _ _ _ _ H). split_and!; try done. intros r.
    split; [by left | intros [H'|(_ & H')]; [done | by destruct H]].
Qed.

Lemma worker_exit_fold p code signal : forall ls s,
  let s' := fold_left
    (fun s' l => if Nat.eqb (fst l) p then exit_observer (snd l) code signal s' else s') ls s in
  _startedServers s' = _startedServers s /\
  exit_listeners s' = exit_listeners s /\
  next_proc s' = next_proc s /\
  (wf s -> wf s') /\
  (forall r, r ∈ _failedRoots s' <->
             r ∈ _failedRoots s \/ ((p, r) ∈ ls /\ code = Some 2 /\ signal = None)) /\
  (forall e, e ∈ trace s -> e ∈ trace s').
Proof.
  induction ls as [|[q root] ls IH]; intros s; cbv zeta.
  - simpl. split_and!; try done. intros r. split; [by left|].
    intros [|[H _]]; [done | by apply elem_of_nil in H].
  - simpl fold_left. simpl fst. simpl snd.
    destruct (Nat.eqb q p) eqn:E.
    + apply Nat.eqb_eq in E. subst q.
      destruct (exit_observer_fields root code signal s) as (A1 & A2 & A3 & A4 & A5 & A6).
      destruct (IH (exit_observer root code signal s)) as (B1 & B2 & B3 & B4 & B5 & B6).
      split_and!; try congruence; auto. intros r. split.
      * intros H. apply B5 in H as [H|(H1 & H2 & H3)].
        -- apply A5 in H as [H|(-> & H2 & H3)]; [by left|].
           right. split; [apply list_elem_of_here | done].
        -- right. split; [by apply list_elem_of_further | done].
      * intros [H|(H1 & H2 & H3)]; apply B5.
        -- left. apply A5. by left.
        -- apply elem_of_cons in H1 as [H1|H1].
           ++ injection H1 as ->. left. apply A5. by right.
           ++ by right.
    + destruct (IH s) as (B1 & B2 & B3 & B4 & B5 & B6).
      split_and!; try congruence; auto. intros r. split.
      * intros H. apply B5 in H as [H|(H1 & H2 & H3)]; [by left|].
        right. split; [by apply list_elem_of_further | done].
      * intros [H|(H1 & H2 & H3)]; apply B5; [by left|].
        apply elem_of_cons in H1 as [H1|H1]; [|by right].
        injection H1 as -> ->. apply Nat.eqb_neq in E. done.
Qed.

Lemma worker_exit_fields p code signal s :
  let s' := worker_exit p code signal s in
  _startedServers s' = _startedServers s /\
  exit_listeners s' = exit_listeners s /\
  next_proc s' = next_proc s /\
  (wf s -> wf s') /\
  (forall r, r ∈ _failedRoots s' <->
             r ∈ _failedRoots s \/ ((p, r) ∈ exit_listeners s /\ code = Some 2 /\ signal = None)) /\
  (forall e, e ∈ trace s -> e ∈ trace s').
Proof. apply worker_exit_fold. Qed.

Lemma dispose_fold : forall (l : list proc) s,
  let s' := fold_left (fun s' server => emit (Kill server "SIGKILL") s') l s in
  _startedServers s' = _startedServers s /\
  _failedRoots s' = _failedRoots s /\
  (wf s -> wf s') /\
  trace s' = trace s ++ map (fun server => Kill server "SIGKILL") l.
Proof.
  induction l as [|p l IH]; intros s; cbv zeta; simpl.
  - split_and!; auto. by rewrite app_nil_r.
  - destruct (IH (emit (Kill p "SIGKILL") s)) as (A & B & C & D).
    split_and!; auto.
    + intros W. apply C. by apply wf_emit.
    + rewrite D. simpl. by rewrite <- app_assoc.
Qed.

Lemma dispose_fields s :
  _startedServers (dispose s) = _startedServers s /\
  _failedRoots (dispose s) = _failedRoots s /\
  (wf s -> wf (dispose s)) /\
  new_events s (dispose s) = map (fun server => Kill server "SIGKILL") (_startedServers s).
Proof.
  destruct (dispose_fold (_startedServers s) s) as (A & B & C & D).
  split_and!; auto. by apply new_events_app.
Qed.

(** ** Runs of a service *)

Lemma wf_constructor : wf constructor.
Proof.
  split; simpl.
  - apply NoDup_nil_2.
  - apply NoDup_nil_2.
  - intros p r H. by apply elem_of_nil in H.
  - intros p path args H. by apply elem_of_nil in H.
  - intros p r H. by apply elem_of_nil in H.
Qed.

(** No transition removes a failed root or a tracked server, and each
    keeps the invariant. *)
Lemma run_keeps c s :
  (forall r, r ∈ _failedRoots s -> r ∈ _failedRoots (run c s)) /\
  (forall p, p ∈ _startedServers s -> p ∈ _startedServers (run c s)) /\
  (wf s -> wf (run c s)).
Proof.
  assert (G : forall s', grows s s' ->
    (forall r, r ∈ _failedRoots s -> r ∈ _failedRoots s') /\
    (forall p, p ∈ _startedServers s -> p ∈ _startedServers s') /\
    (wf s -> wf s')).
  { intros s' [F S W _]. rewrite F. auto. }
  destruct c; simpl.
  - apply G, framed_execFlow.
  - apply G, framed_findDefinition.
  - apply G, framed_findDiagnostics.
  - apply G, framed_getAutocompleteSuggestions.
  - apply G, framed_getType.
  - destruct (dispose_fields s) as (A & B & C & _). rewrite A, B. auto.
  - destruct (worker_exit_fields p code signal s) as (A & _ & _ & C & D & _).
    rewrite A. split_and!; auto. intros r Hr. apply D. by left.
  - by apply (G (emit (Exec pathToFlow args opts) s)), grows_emit.
  - apply (G (respawn pathToFlow root s)), grows_respawn.
  - by apply (G (emit (Log l) s)), grows_emit.
Qed.

Lemma run_all_keeps cs : forall s,
  (forall r, r ∈ _failedRoots s -> r ∈ _failedRoots (run_all cs s)) /\
  (forall p, p ∈ _startedServers s -> p ∈ _startedServers (run_all cs s)) /\
  (wf s -> wf (run_all cs s)).
Proof.
  induction cs as [|c cs IH]; intros s; [done|].
  change (run_all (c :: cs) s) with (run_all cs (run c s)).
  destruct (run_keeps c s) as (A & B & C), (IH (run c s)) as (A' & B' & C').
  auto.
Qed.

Lemma reachable_wf s : reachable s -> wf s.
Proof. intros [cs ->]. apply run_all_keeps, wf_constructor. Qed.

Lemma reachable_run c s : reachable s -> reachable (run c s).
Proof.
  intros [cs ->]. exists (cs ++ [c]). unfold run_all. by rewrite fold_left_app.
Qed.

(** ** Failed roots *)

Lemma execFlow_failed_root args o file0 fo s :
  getFlowExecOptions file0 = Some fo ->
  cwd fo ∈ _failedRoots s ->
  _execFlow args o file0 s = (Returns None, s).
Proof.
  intros Hf Hr. unfold _execFlow, _execFlow_fuel. rewrite Hf.
  by destruct (decide (cwd fo ∈ _failedRoots s)).
Qed.

Lemma new_events_same s : new_events s s = [].
Proof. apply new_events_app. by rewrite app_nil_r. Qed.

(** C1. Once a root is in the set of failed roots, it stays there through
    every later transition of the service, and every later call of
    [_execFlow] for a file under that root returns [null] at once, in an
    unchanged state: the binary is not run and no worker is spawned.  Each
    handler then answers its own "no result". *)
Theorem failed_root_short_circuits (cs : list call) (s : state)
    (args : list arg) (o : options) (file0 : string) (fo : flowOptions) :
  getFlowExecOptions file0 = Some fo ->
  cwd fo ∈ _failedRoots s ->
  let s' := run_all cs s in
  cwd fo ∈ _failedRoots s' /\
  _execFlow args o file0 s' = (Returns None, s') /\
  new_events s' (snd (_execFlow args o file0 s')) = [] /\
  (forall c l k, findDefinition file0 c l k s' = (Returns None, s')) /\
  (forall c, findDiagnostics file0 c s' = (Returns empty_array, s')) /\
  (forall c l k p, getAutocompleteSuggestions file0 c l k p s' = (Returns [], s')) /\
  (forall c l k, getType file0 c l k s' = (Returns None, s')).
Proof.
  intros Hf Hr s'.
  assert (Hr' : cwd fo ∈ _failedRoots s') by (by apply run_all_keeps).
  pose proof (fun a o' => execFlow_failed_root a o' file0 fo s' Hf Hr') as E.
  split_and!.
  - exact Hr'.
  - apply E.
  - rewrite E. apply new_events_same.
  - intros c l k. unfold findDefinition, try_catch, bind. by rewrite E.
  - intros c. unfold findDiagnostics. by rewrite E.
  - intros c l k p. unfold getAutocompleteSuggestions, try_catch, bind. by rewrite E.
  - intros c l k. unfold getType. by rewrite E.
Qed.

(** ** The bound on retries *)

Lemma execFlow_counts args o file0 s :
  let evs := new_events s (snd (_execFlow args o file0 s)) in
  (count is_exec evs = 0%nat /\ count is_spawn evs = 0%nat) \/
  (count is_exec evs = S (count is_spawn evs) /\ (count is_spawn evs <= maxTries)%nat).
Proof.
  cbv zeta. unfold _execFlow, _execFlow_fuel.
  destruct (getFlowExecOptions file0) as [fo|]; [|left; by rewrite new_events_same].
  destruct (decide (cwd fo ∈ _failedRoots s)); [left; by rewrite new_events_same|].
  right. unfold bind, ret.
  destruct (exec_loop_counts (S maxTries) 0 getPathToFlow (args ++ [AStr "--no-auto-start"])
              (assign o fo) (cwd fo) s) as (D & C & B); [lia|].
  rewrite Nat.sub_0_r in B.
  destruct (exec_loop _ _ _ _ _ _ s) as [[r|e|] s1]; simpl fst in *; simpl snd in *;
    by split.
Qed.

(** At the bound the outcome of the run is passed on as it is: a failure is
    rethrown whatever its [stderr], and nothing is spawned. *)
Lemma exec_loop_at_bound fuel path args opts root s :
  exec_loop (S fuel) maxTries path args opts root s =
  match asyncExecute (trace s) path args opts with
  | ExecOk result => (Returns result, emit (Exec path args opts) s)
  | ExecErr e => (Throws (ExecFailure e), emit (Exec path args opts) s)
  end.
Proof. rewrite exec_loop_step. reflexivity. Qed.

(** C10. One call of [_execFlow] spawns at most 5 workers, one after each
    failed run that is retried: the runs of the binary are one more than
    the spawns (or there is neither).  At the bound ([i = maxTries]) a
    failure is rethrown before its [stderr] is read, so the last failed run
    spawns nothing. *)
Theorem spawns_bounded_by_maxTries (args : list arg) (o : options) (file0 : string)
    (s : state) :
  let evs := new_events s (snd (_execFlow args o file0 s)) in
  (count is_spawn evs <= 5)%nat /\
  ((count is_exec evs = 0%nat /\ count is_spawn evs = 0%nat) \/
   count is_exec evs = S (count is_spawn evs)) /\
  (forall fuel path args' opts root s0,
     exec_loop (S fuel) maxTries path args' opts root s0 =
     match asyncExecute (trace s0) path args' opts with
     | ExecOk result => (Returns result, emit (Exec path args' opts) s0)
     | ExecErr e => (Throws (ExecFailure e), emit (Exec path args' opts) s0)
     end).
Proof.
  cbv zeta. pose proof (execFlow_counts args o file0 s) as H. cbv zeta in H.
  change maxTries with 5%nat in H. split_and!.
  - destruct H as [[_ ->]|[_ H]]; lia.
  - destruct H as [H|[H _]]; [by left | by right].
  - intros. apply exec_loop_at_bound.
Qed.

Lemma exec_loop_absent path args opts root (H : sustained_absence path args opts) fuel :
  forall i s, (i <= maxTries)%nat -> (S (maxTries - i) <= fuel)%nat ->
  let r := exec_loop fuel i path args opts root s in
  count is_exec (new_events s (snd r)) = S (maxTries - i) /\
  count is_spawn (new_events s (snd r)) = (maxTries - i)%nat /\
  exists e t, fst r = Throws (ExecFailure e) /\
              trace (snd r) = t ++ [Exec path args opts] /\
              asyncExecute t path args opts = ExecErr e.
Proof.
  induction fuel as [|fuel IH]; intros i s Hi Hf; [lia|].
  cbv zeta. rewrite exec_loop_step. cbv zeta.
  destruct (H (trace s)) as (e & text & He & Ht & Hin). rewrite He.
  destruct (maxTries <=? i)%nat eqn:E.
  - apply Nat.leb_le in E. assert (i = maxTries) as -> by lia.
    simpl snd. rewrite new_events_emit. rewrite Nat.sub_diag. simpl.
    split_and!; try done. by exists e, (trace s).
  - apply Nat.leb_gt in E. rewrite Ht, Hin.
    set (s1 := emit (Exec path args opts) s).
    set (s2 := respawn path root s1).
    destruct (IH (S i) s2) as (C1 & C2 & e' & t' & R1 & R2 & R3); [lia | lia |].
    assert (G : grows s s2).
    { apply (grows_trans s s1 s2); [by apply grows_emit | apply grows_respawn]. }
    rewrite (new_events_trans s s2 _ G (exec_loop_grows fuel (S i) path args opts root s2)).
    assert (E2 : new_events s s2 =
                 [Exec path args opts; Spawn (next_proc s1) path ["server"; root]]).
    { unfold s2.
      rewrite (new_events_trans s s1 _ (grows_emit (Exec path args opts) s eq_refl)
                 (grows_respawn path root s1)).
      unfold s1 at 1. by rewrite new_events_emit, new_events_respawn. }
    rewrite E2, !count_app, C1, C2. cbn [count is_exec is_spawn Nat.add].
    split_and!; [lia | lia |].
    by exists e', t'.
Qed.

(** C2. Under a sustained absence of the server, [_execFlow] on a healthy
    root runs the binary exactly 6 times ([maxTries + 1], not 5) and spawns
    5 workers before it rethrows the failure of the last run. *)
Theorem sustained_absence_runs_six_times (args : list arg) (o : options)
    (file0 : string) (fo : flowOptions) (s : state) :
  getFlowExecOptions file0 = Some fo ->
  cwd fo ∉ _failedRoots s ->
  sustained_absence getPathToFlow (args ++ [AStr "--no-auto-start"]) (assign o fo) ->
  let r := _execFlow args o file0 s in
  count is_exec (new_events s (snd r)) = 6%nat /\
  count is_spawn (new_events s (snd r)) = 5%nat /\
  exists e t, fst r = Throws (ExecFailure e) /\
              trace (snd r) =
                t ++ [Exec getPathToFlow (args ++ [AStr "--no-auto-start"]) (assign o fo)] /\
              asyncExecute t getPathToFlow (args ++ [AStr "--no-auto-start"]) (assign o fo)
                = ExecErr e.
Proof.
  intros Hf Hr Ha. cbv zeta. unfold _execFlow, _execFlow_fuel. rewrite Hf.
  destruct (decide (cwd fo ∈ _failedRoots s)); [done|].
  destruct (exec_loop_absent _ _ _ (cwd fo) Ha (S maxTries) 0 s)
    as (C1 & C2 & e & t & R1 & R2 & R3); [lia | lia |].
  unfold bind.
  destruct (exec_loop _ _ _ _ _ _ s) as [[r|e0|] s1]; simpl in *; try discriminate.
  injection R1 as ->.
  split_and!; [exact C1 | exact C2 |]. by exists e, t.
Qed.

(** ** The exit observer *)

Lemma listener_unique (l : list (proc * string)) p r1 r2 :
  NoDup l.*1 -> (p, r1) ∈ l -> (p, r2) ∈ l -> r1 = r2.
Proof.
  induction l as [|[q r] l IH]; intros N H1 H2; [by apply elem_of_nil in H1|].
  simpl in N. apply NoDup_cons in N as [Hq N].
  apply elem_of_cons in H1 as [H1|H1], H2 as [H2|H2].
  - congruence.
  - injection H1 as -> ->. exfalso. apply Hq.
    apply list_elem_of_fmap. by exists (q, r2).
  - injection H2 as -> ->. exfalso. apply Hq.
    apply list_elem_of_fmap. by exists (q, r1).
  - by apply IH.
Qed.

(** C3. When the exit event [(code, signal)] of a spawned worker is
    delivered, the root the worker was spawned for is added to the failed
    roots if [code = 2] and [signal = null], and the set is left as it was
    otherwise; so a healthy owning root becomes failed if and only if the
    event is [(2, null)].  No other root changes, and [(null, SIGTERM)]
    changes nothing. *)
Theorem exit_marks_owner_iff (s : state) (p : proc) (root : string)
    (code : option Z) (signal : option string) :
  reachable s ->
  (p, root) ∈ exit_listeners s ->
  let s' := worker_exit p code signal s in
  (code = Some 2 /\ signal = None -> _failedRoots s' = {[ root ]} ∪ _failedRoots s) /\
  (~ (code = Some 2 /\ signal = None) -> _failedRoots s' = _failedRoots s) /\
  (root ∉ _failedRoots s -> (root ∈ _failedRoots s' <-> code = Some 2 /\ signal = None)) /\
  (forall r, r <> root -> (r ∈ _failedRoots s' <-> r ∈ _failedRoots s)) /\
  _failedRoots (worker_exit p None (Some "SIGTERM") s) = _failedRoots s.
Proof.
  intros Hs Hp s'. apply reachable_wf in Hs.
  assert (U : forall r, (p, r) ∈ exit_listeners s <-> r = root).
  { intros r. split; [|by intros ->].
    intros Hr. apply (listener_unique (exit_listeners s) p); [apply (wf_listeners s Hs)|done..]. }
  destruct (worker_exit_fields p code signal s) as (_ & _ & _ & _ & F & _).
  fold s' in F. split_and!.
  - intros [-> ->]. apply set_eq. intros r.
    rewrite F, U, elem_of_union, elem_of_singleton. split.
    + intros [H|[-> _]]; [by right | by left].
    + intros [->|H]; [by right | by left].
  - intros N. apply set_eq. intros r. rewrite F. split; [|by left].
    intros [H|(_ & H1 & H2)]; [done | by destruct N].
  - intros Hh. rewrite F, U. split; [|by right].
    intros [H|(_ & H)]; [done | exact H].
  - intros r Hr. rewrite F, U. split; [|by left].
    intros [H|(H & _)]; done.
  - destruct (worker_exit_fields p None (Some "SIGTERM") s) as (_ & _ & _ & _ & F' & _).
    apply set_eq. intros r. rewrite F'. split; [|by left].
    intros [H|(_ & H & _)]; done.
Qed.

(** ** Disposal and tracking *)

Lemma count_kills p (l : list proc) :
  NoDup l -> p ∈ l ->
  count (is_kill_of p) (map (fun q => Kill q "SIGKILL") l) = 1%nat /\
  count (is_sigkill_of p) (map (fun q => Kill q "SIGKILL") l) = 1%nat.
Proof.
  assert (Z0 : forall l' : list proc, p ∉ l' ->
    count (is_kill_of p) (map (fun q => Kill q "SIGKILL") l') = 0%nat /\
    count (is_sigkill_of p) (map (fun q => Kill q "SIGKILL") l') = 0%nat).
  { induction l' as [|q l' IH]; intros Hn; [done|].
    apply not_elem_of_cons in Hn as [Hq Hn]. destruct (IH Hn) as [A B].
    cbn [map count is_kill_of is_sigkill_of]. rewrite A, B.
    apply Nat.eqb_neq in Hq. by rewrite Hq. }
  induction l as [|q l IH]; intros N H; [by apply elem_of_nil in H|].
  apply NoDup_cons in N as [Hq N].
  cbn [map count is_kill_of is_sigkill_of].
  destruct (decide (p = q)) as [->|Hne].
  - destruct (Z0 l Hq) as [A B]. rewrite A, B, Nat.eqb_refl. done.
  - apply elem_of_cons in H as [H|H]; [done|].
    destruct (IH N H) as [A B]. rewrite A, B.
    apply Nat.eqb_neq in Hne. by rewrite Hne.
Qed.

(** C8 (as the code has it). [dispose] sends [SIGKILL], and nothing else,
    to every tracked worker exactly once, in the order of their spawning;
    every worker the service ever spawned is among them; and the set of
    tracked workers is the same after [dispose] as before: it is not
    cleared. *)
Theorem dispose_kills_each_once (s : state) :
  reachable s ->
  new_events s (dispose s) = map (fun p => Kill p "SIGKILL") (_startedServers s) /\
  (forall p, p ∈ _startedServers s ->
     count (is_kill_of p) (new_events s (dispose s)) = 1%nat /\
     count (is_sigkill_of p) (new_events s (dispose s)) = 1%nat) /\
  (forall p path args, Spawn p path args ∈ trace s -> p ∈ _startedServers s) /\
  _startedServers (dispose s) = _startedServers s.
Proof.
  intros Hs. apply reachable_wf in Hs.
  destruct (dispose_fields s) as (A & _ & _ & D). split_and!.
  - exact D.
  - intros p Hp. rewrite D. apply count_kills; [apply (wf_nodup s Hs) | exact Hp].
  - intros p path args H. by destruct (wf_spawned s Hs _ _ _ H) as [H' _].
  - exact A.
Qed.

(** C9 (as the code has it). The exit of a worker leaves the set of tracked
    workers as it was: the handle stays in it, and stays through every
    later transition; so the set holds every worker the service has
    spawned, whether it has exited or not. *)
Theorem exit_keeps_handle_tracked (s : state) (p : proc) (code : option Z)
    (signal : option string) :
  _startedServers (worker_exit p code signal s) = _startedServers s /\
  (forall cs q, q ∈ _startedServers s ->
     q ∈ _startedServers (run_all cs (worker_exit p code signal s))) /\
  (reachable s -> forall q path args,
     Spawn q path args ∈ trace (worker_exit p code signal s) ->
     q ∈ _startedServers (worker_exit p code signal s)).
Proof.
  destruct (worker_exit_fields p code signal s) as (A & _).
  split_and!; [exact A | |].
  - intros cs q Hq. apply run_all_keeps. by rewrite A.
  - intros Hs q path args H.
    pose proof (reachable_wf _ (reachable_run (WorkerExit p code signal) s Hs)) as Wf.
    by destruct (wf_spawned _ Wf _ _ _ H) as [H' _].
Qed.

(** ** Lines of an output *)

Lemma first_line_cons c s :
  first_line (String c s) = if Ascii.eqb c nl then EmptyString else String c (first_line s).
Proof.
  unfold first_line. simpl. destruct (Ascii.eqb c nl); [done|].
  by destruct (split_lines s).
Qed.

Lemma tl_split_lines_cons c s :
  tl (split_lines (String c s)) =
  if Ascii.eqb c nl then split_lines s else tl (split_lines s).
Proof.
  simpl. destruct (Ascii.eqb c nl); [done|]. by destruct (split_lines s).
Qed.

Lemma split_lines_first s : split_lines s = first_line s :: tl (split_lines s).
Proof.
  unfold first_line. destruct (split_lines s) eqn:E; [|done].
  destruct s as [|c s]; simpl in E; [done|].
  destruct (Ascii.eqb c nl); [done|]. by destruct (split_lines s).
Qed.

Lemma prefix_cons a p c s :
  String.prefix (String a p) (String c s) = Ascii.eqb a c && String.prefix p s.
Proof.
  change (String.prefix (String a p) (String c s))
    with (if ascii_dec a c then String.prefix p s else false).
  destruct (ascii_dec a c) as [->|N].
  - by rewrite Ascii.eqb_refl.
  - apply Ascii.eqb_neq in N. by rewrite N.
Qed.

Lemma prefix_first_line p : forall s,
  no_newline p = true -> String.prefix p (first_line s) = String.prefix p s.
Proof.
  induction p as [|a p IH]; intros s Hp; [destruct s, (first_line _); reflexivity|].
  simpl in Hp. apply andb_true_iff in Hp as [Ha Hp]. apply negb_true_iff in Ha.
  destruct s as [|c s]; [done|].
  rewrite first_line_cons, prefix_cons. destruct (Ascii.eqb c nl) eqn:E.
  - apply Ascii.eqb_eq in E. subst c. by rewrite Ha.
  - by rewrite prefix_cons, IH.
Qed.

(** A line break followed by [p] occurs in [s] exactly when a line of [s]
    after the first begins with [p]. *)
Lemma includes_after_newline p : no_newline p = true -> forall s,
  includes (String nl p) s = existsb (String.prefix p) (tl (split_lines s)).
Proof.
  intros Hp. induction s as [|c s IH]; [done|].
  rewrite tl_split_lines_cons.
  change (includes (String nl p) (String c s))
    with (String.prefix (String nl p) (String c s) || includes (String nl p) s).
  rewrite IH, prefix_cons, (Ascii.eqb_sym nl c).
  destruct (Ascii.eqb c nl) eqn:E; [|done].
  rewrite (split_lines_first s) at 2. simpl existsb.
  by rewrite (prefix_first_line p s Hp).
Qed.

(** ** Decoding the results *)

(** C6. When [get-def] exits with 0 and prints a JSON value whose [path] is
    truthy (a target path) and whose [line] and [start] are integers,
    [findDefinition] returns that path with [line - 1] and [start - 1]: one
    decrement of each.  When the value has no truthy [path] (no path, or an
    empty one) it returns [null]. *)
Theorem findDefinition_decodes (file0 contents : string) (l c : Z) (s s' : state)
    (result : exec_result) (j : json) :
  _execFlow (get_def_args file0 l c) {| stdin := Some contents |} file0 s
    = (Returns (Some result), s') ->
  exitCode result = 0 ->
  JSON_parse (stdout result) = Some j ->
  (forall f ln st,
     prop j "path" = Some f -> truthy (Some f) = true ->
     prop j "line" = Some (JInt ln) -> prop j "start" = Some (JInt st) ->
     - safe_bound < ln <= safe_bound -> - safe_bound < st <= safe_bound ->
     findDefinition file0 contents l c s =
       (Returns (Some {| file := f; line := Exact (ln - 1); column := Exact (st - 1) |}), s')) /\
  (truthy (prop j "path") = false ->
     fst (findDefinition file0 contents l c s) = Returns None).
Proof.
  intros He Hc Hj. split.
  - intros f ln st Hp Ht Hl Hs Bl Bs.
    assert (E1 : (- safe_bound <? ln) && (ln <=? safe_bound) = true).
    { apply andb_true_iff. split; [apply Z.ltb_lt | apply Z.leb_le]; lia. }
    assert (E2 : (- safe_bound <? st) && (st <=? safe_bound) = true).
    { apply andb_true_iff. split; [apply Z.ltb_lt | apply Z.leb_le]; lia. }
    unfold findDefinition, try_catch, bind. rewrite He, Hc.
    change (0 =? 0) with true. cbv iota.
    unfold parse, ret. rewrite Hj.
    destruct j; try discriminate. unfold get, ret. rewrite Hp, Ht, Hl, Hs.
    unfold minus_one, ret. by rewrite E1, E2.
  - intros Ht. unfold findDefinition, try_catch, bind. rewrite He, Hc.
    change (0 =? 0) with true. cbv iota.
    unfold parse, ret. rewrite Hj.
    destruct j; unfold get, ret, throw; try reflexivity; by rewrite Ht.
Qed.

(** C5. When [_execFlow] fails with an error whose [exitCode] is defined
    and whose [stdout] parses as a JSON object with an [errors] property,
    [findDiagnostics] returns that property.  When the error has no
    [exitCode], it logs the error and returns the empty list. *)
Theorem findDiagnostics_reuses_failure (file0 : string) (contents : option string)
    (s s' : state) (e : exn) :
  _execFlow (diagnostics_args file0 contents) (diagnostics_options contents) file0 s
    = (Throws e, s') ->
  (forall t fields v,
     exn_exitCode e <> ExitUndefined -> exn_stdout e = Some t ->
     JSON_parse t = Some (JObj fields) -> assoc_last "errors" fields = Some v ->
     findDiagnostics file0 contents s = (Returns (Some v), s')) /\
  (exn_exitCode e = ExitUndefined ->
     findDiagnostics file0 contents s = (Returns empty_array, emit (Log (LogExn e)) s')).
Proof.
  intros He. split.
  - intros t fields v Hx Ht Hj Hv. unfold findDiagnostics. rewrite He.
    assert (D : decode_errors (exn_stdout e) s' = (Returns (Some v), s')).
    { unfold decode_errors, try_catch, bind, parse, ret. rewrite Ht, Hj. simpl.
      by rewrite Hv. }
    by destruct (exn_exitCode e).
  - intros Hx. unfold findDiagnostics. rewrite He, Hx. reflexivity.
Qed.

(** C7 (as the code has it). After a successful [type-at-pos],
    [getType] returns [null] when some line of the output after the first
    (the second or any later one) begins with "Failure"; otherwise it
    returns the first line, except that "(unknown)" and an empty first
    line give [null]. *)
Theorem getType_decodes (file0 contents : string) (l c : Z) (s s' : state)
    (result : exec_result) :
  _execFlow (type_at_pos_args (l + 1) (c + 1)) {| stdin := Some contents |} file0 s
    = (Returns (Some result), s') ->
  getType file0 contents l c s =
    (Returns
       (if existsb (String.prefix "Failure") (tl (split_lines (stdout result))) then None
        else if String.eqb (first_line (stdout result)) "(unknown)" then None
        else if String.eqb (first_line (stdout result)) EmptyString then None
        else Some (first_line (stdout result))),
     s').
Proof.
  intros He. unfold getType. rewrite He.
  unfold failure_marker. rewrite (includes_after_newline "Failure" eq_refl).
  destruct (existsb _ _); [done|].
  destruct (String.eqb (first_line (stdout result)) "(unknown)"); [done|].
  by destruct (String.eqb (first_line (stdout result)) EmptyString).
Qed.

(** ** Handlers that never raise *)




(** [findDiagnostics] returns unless the output decodes to [null]. *)
Lemma findDiagnostics_returns_or_null f c s :
  (exists a, fst (findDiagnostics f c s) = Returns a) \/
  fst (findDiagnostics f c s) = Throws TypeError.
Proof.
  assert (D : forall t s0, (exists a, fst (decode_errors t s0) = Returns a) \/
                           fst (decode_errors t s0) = Throws TypeError).
  { intros t s0. unfold decode_errors, try_catch, bind, parse, ret, throw.
    destruct t as [t|]; [|left; by eexists].
    destruct (JSON_parse t) as [[]|]; simpl; first [by right | left; by eexists]. }
  unfold findDiagnostics.
  pose proof (terminates_execFlow (diagnostics_args f c) (diagnostics_options c) f s) as T.
  destruct (_execFlow _ _ f s) as [[[r|]|e|] s']; simpl in T.
  - apply D.
  - left. by eexists.
  - destruct (exn_exitCode e); [left; by eexists | apply D | apply D].
  - done.
Qed.

(** ** Fuel *)

(** Any fuel above [maxTries] gives the run [_execFlow] is defined by. *)
Lemma execFlow_fuel_enough fuel args o file0 s :
  (maxTries < fuel)%nat -> _execFlow_fuel fuel args o file0 s = _execFlow args o file0 s.
Proof.
  intros Hf. unfold _execFlow, _execFlow_fuel.
  destruct (getFlowExecOptions file0) as [fo|]; [|done].
  destruct (decide (cwd fo ∈ _failedRoots s)); [done|].
  unfold bind. rewrite (exec_loop_fuel (S maxTries) fuel); [done | lia | lia].
Qed.

(** ** The unguarded read of [findDiagnostics] *)

(** Whenever the output of a successful run decodes to [null],
    [findDiagnostics] raises. *)
Lemma findDiagnostics_raises_on_null file0 contents s s' result :
  _execFlow (diagnostics_args file0 contents) (diagnostics_options contents) file0 s
    = (Returns (Some result), s') ->
  JSON_parse (stdout result) = Some JNull ->
  findDiagnostics file0 contents s = (Throws TypeError, s').
Proof.
  intros He Hj. unfold findDiagnostics. rewrite He.
  unfold decode_errors, try_catch, bind, parse, ret. by rewrite Hj.
Qed.

(** ** The shape of a run of the retry loop *)

Lemma exec_loop_settle fuel i path args opts root s :
  exec_loop (S fuel) i path args opts root s =
  match settle i (asyncExecute (trace s) path args opts) with
  | Some r => (r, emit (Exec path args opts) s)
  | None =>
      exec_loop fuel (S i) path args opts root
        (respawn path root (emit (Exec path args opts) s))
  end.
Proof.
  rewrite exec_loop_step. cbv zeta. unfold settle.
  destruct (asyncExecute (trace s) path args opts) as [r|e]; [done|].
  destruct (maxTries <=? i)%nat; [done|].
  destruct (err_stderr e) as [text|]; [|done].
  by destruct (includes no_server_running text).
Qed.

Lemma retried_S k path args opts root : forall s,
  retried (S k) path args opts root s =
  respawn path root (emit (Exec path args opts) (retried k path args opts root s)).
Proof.
  induction k as [|k IH]; intros s; [done|].
  change (retried (S (S k)) path args opts root s)
    with (retried (S k) path args opts root (respawn path root (emit (Exec path args opts) s))).
  by rewrite IH.
Qed.

(** A run of the loop with enough fuel: [k] runs are retried, each
    because the server was absent, and the run after them settles. *)
Lemma exec_loop_shape fuel path args opts root : forall i s,
  (i <= maxTries)%nat -> (S (maxTries - i) <= fuel)%nat ->
  exists k r,
    (i + k <= maxTries)%nat /\
    (forall j, (j < k)%nat ->
       settle (i + j) (asyncExecute (trace (retried j path args opts root s)) path args opts)
         = None) /\
    settle (i + k) (asyncExecute (trace (retried k path args opts root s)) path args opts)
      = Some r /\
    exec_loop fuel i path args opts root s
      = (r, emit (Exec path args opts) (retried k path args opts root s)).
Proof.
  induction fuel as [|fuel IH]; intros i s Hi Hf; [lia|].
  rewrite exec_loop_settle.
  destruct (settle i (asyncExecute (trace s) path args opts)) as [r|] eqn:E.
  - exists 0%nat, r. rewrite Nat.add_0_r. split_and!; [lia | intros j Hj; lia | done | done].
  - assert (Hlt : (i < maxTries)%nat).
    { destruct (Nat.ltb_spec i maxTries) as [|Hge]; [done|]. exfalso.
      unfold settle in E. destruct (asyncExecute (trace s) path args opts); [done|].
      apply Nat.leb_le in Hge. by rewrite Hge in E. }
    destruct (IH (S i) (respawn path root (emit (Exec path args opts) s)))
      as (k & r & Hk & Hj & Hr & He); [lia | lia |].
    exists (S k), r. split_and!.
    + lia.
    + intros [|j] Hlt'.
      * by rewrite Nat.add_0_r.
      * replace (i + S j)%nat with (S i + j)%nat by lia. apply Hj. lia.
    + replace (i + S k)%nat with (S i + k)%nat by lia. exact Hr.
    + exact He.
Qed.

Lemma retry_events_app k path args opts root : forall p,
  retry_events (S k) path args opts root p =
  retry_events k path args opts root p
    ++ [Exec path args opts; Spawn (p + k)%nat path ["server"; root]].
Proof.
  induction k as [|k IH]; intros p.
  - simpl. by rewrite Nat.add_0_r.
  - change (retry_events (S (S k)) path args opts root p)
      with (Exec path args opts :: Spawn p path ["server"; root]
              :: retry_events (S k) path args opts root (S p)).
    rewrite IH. replace (p + S k)%nat with (S p + k)%nat by lia. reflexivity.
Qed.

Lemma retried_fields k path args opts root s :
  let s' := retried k path args opts root s in
  _failedRoots s' = _failedRoots s /\
  next_proc s' = (next_proc s + k)%nat /\
  trace s' = trace s ++ retry_events k path args opts root (next_proc s) /\
  exit_listeners s' =
    exit_listeners s ++ map (fun p => (p, root)) (seq (next_proc s) k).
Proof.
  cbv zeta. induction k as [|k IH].
  - simpl. rewrite !app_nil_r. split_and!; [done | lia | done | done].
  - destruct IH as (F & N & T & L). rewrite retried_S.
    destruct (respawn_fields path root
                (emit (Exec path args opts) (retried k path args opts root s)))
      as (F' & L' & N' & T' & _).
    cbn [emit _failedRoots exit_listeners next_proc trace] in F', L', N', T'.
    split_and!.
    + congruence.
    + rewrite N', N. lia.
    + rewrite T', T, N, retry_events_app, <- !app_assoc. done.
    + rewrite L', L, N, seq_S, map_app, <- app_assoc. done.
Qed.

(** ** The exact registry *)

Lemma spawned_app t1 t2 : spawned (t1 ++ t2) = spawned t1 ++ spawned t2.
Proof.
  induction t1 as [|e t1 IH]; [done|]. destruct e; simpl; by rewrite IH.
Qed.

Lemma registry_exact_emit e s :
  is_spawn e = false -> registry_exact s -> registry_exact (emit e s).
Proof.
  intros He [A B C].
  assert (E : spawned (trace (emit e s)) = spawned (trace s)).
  { simpl. rewrite spawned_app. destruct e; try discriminate; simpl; by rewrite app_nil_r. }
  split; rewrite E; done.
Qed.

Lemma existsb_seq_fresh n : existsb (Nat.eqb n) (seq 0 n) = false.
Proof.
  destruct (existsb (Nat.eqb n) (seq 0 n)) eqn:E; [|done].
  apply existsb_exists in E as (x & Hx & Hn). apply in_seq in Hx.
  apply Nat.eqb_eq in Hn. lia.
Qed.

Lemma registry_exact_respawn path root s :
  registry_exact s -> registry_exact (respawn path root s).
Proof.
  intros [A B C].
  assert (E : spawned (trace (respawn path root s))
              = spawned (trace s) ++ [(next_proc s, root)]).
  { unfold respawn, safeSpawn. simpl. by rewrite spawned_app. }
  split; rewrite E.
  - unfold respawn, safeSpawn, add_server. simpl.
    rewrite A, C, existsb_seq_fresh, fmap_app. by rewrite C.
  - unfold respawn, safeSpawn. simpl. by rewrite B.
  - rewrite fmap_app, C.
    change (next_proc (respawn path root s)) with (S (next_proc s)).
    by rewrite seq_S.
Qed.

Lemma registry_exact_advances s s' : advances s s' -> registry_exact s -> registry_exact s'.
Proof.
  induction 1 as [s|s s' path args opts _ IH|s s' path root _ IH|s s' l _ IH]; intros R.
  - exact R.
  - by apply registry_exact_emit, IH.
  - by apply registry_exact_respawn, IH.
  - by apply registry_exact_emit, IH.
Qed.

Lemma advances_trans s1 s2 s3 : advances s1 s2 -> advances s2 s3 -> advances s1 s3.
Proof.
  intros H12 H23. induction H23; [done | constructor; auto ..].
Qed.

Lemma advances_retried k path args opts root : forall s,
  advances s (retried k path args opts root s).
Proof.
  induction k as [|k IH]; intros s; [constructor|].
  rewrite retried_S. do 2 constructor. apply IH.
Qed.

Lemma advances_add_logs ls : forall s, advances s (add_logs ls s).
Proof.
  induction ls as [|l ls IH]; intros s; [constructor|].
  apply (advances_trans s (emit (Log l) s)); [do 2 constructor | apply IH].
Qed.

(** ** Method bodies that only log *)

Lemma add_logs_app l1 l2 s : add_logs (l1 ++ l2) s = add_logs l2 (add_logs l1 s).
Proof. unfold add_logs. by rewrite fold_left_app. Qed.

Lemma logging_ret {A} (a : A) : logging (ret a).
Proof. intros s. by exists []. Qed.

Lemma logging_throw {A} e : logging (@throw A e).
Proof. intros s. by exists []. Qed.

Lemma logging_log l : logging (log l).
Proof. intros s. by exists [l]. Qed.

Lemma logging_bind {A B} (m : M A) (k : A -> M B) :
  logging m -> (forall a, logging (k a)) -> logging (bind m k).
Proof.
  intros Hm Hk s. unfold bind. destruct (Hm s) as [l1 E1].
  destruct (m s) as [[a|e|] s1]; simpl in *; [|by exists l1..].
  destruct (Hk a s1) as [l2 E2]. exists (l1 ++ l2). by rewrite add_logs_app, <- E1.
Qed.

Lemma logging_try {A} (m : M A) (h : exn -> M A) :
  logging m -> (forall e, logging (h e)) -> logging (try_catch m h).
Proof.
  intros Hm Hh s. unfold try_catch. destruct (Hm s) as [l1 E1].
  destruct (m s) as [[a|e|] s1]; simpl in *; [by exists l1| |by exists l1].
  destruct (Hh e s1) as [l2 E2]. exists (l1 ++ l2). by rewrite add_logs_app, <- E1.
Qed.

Lemma logging_parse t : logging (parse t).
Proof.
  destruct t as [t|]; simpl; [|apply logging_throw].
  destruct (JSON_parse t); [apply logging_ret | apply logging_throw].
Qed.

Lemma logging_get v key : logging (get v key).
Proof. destruct v; simpl; first [apply logging_throw | apply logging_ret]. Qed.

Lemma logging_minus_one v : logging (minus_one v).
Proof.
  destruct v as [[]|]; simpl; try apply logging_ret;
    destruct (coerce_minus_one _); first [apply logging_throw | apply logging_ret].
Qed.

Lemma logging_map_items r items : logging (map_items r items).
Proof.
  induction items as [|item rest IH]; simpl; [apply logging_ret|].
  apply logging_bind; [apply logging_get|]. intros n.
  apply logging_bind; [apply logging_get|]. intros t.
  apply logging_bind; [exact IH|]. intros more. apply logging_ret.
Qed.

Ltac logging_step :=
  first
    [ apply logging_ret | apply logging_throw | apply logging_log
    | apply logging_parse | apply logging_get | apply logging_minus_one
    | apply logging_map_items
    | apply logging_bind; [|intros ?]
    | apply logging_try; [|intros ?]
    | match goal with
      | |- logging (match ?x with _ => _ end) => destruct x
      | |- logging (if ?b then _ else _) => destruct b
      end ].

Lemma logging_decode_errors t : logging (decode_errors t).
Proof. unfold decode_errors. repeat logging_step. Qed.

(** What each handler does to the state it gets back from [_execFlow] is
    logging. *)
Lemma findDefinition_state f c l k s :
  exists ls, snd (findDefinition f c l k s)
             = add_logs ls (snd (_execFlow (get_def_args f l k) {| stdin := Some c |} f s)).
Proof.
  unfold findDefinition, try_catch, bind at 1.
  destruct (_execFlow (get_def_args f l k) {| stdin := Some c |} f s) as [[[r|]|e|] s1];
    simpl snd.
  - assert (L : logging (try_catch
      (if exitCode r =? 0
       then j <- parse (Some (stdout r)) ;; path <- get j "path" ;;
            if truthy path
            then l0 <- get j "line" ;; l' <- minus_one l0 ;;
                 c0 <- get j "start" ;; c' <- minus_one c0 ;;
                 match path with
                 | Some f0 => ret (Some {| file := f0; line := l'; column := c' |})
                 | None => ret None
                 end
            else ret None
       else log (LogStderr (Some (stderr r))) ;;; ret None)
      (fun e => log (LogStderr (exn_stderr e)) ;;; ret None))) by repeat logging_step.
    destruct (L s1) as [ls E]. exists ls. rewrite <- E. unfold try_catch. reflexivity.
  - by exists [].
  - by exists [LogStderr (exn_stderr e)].
  - by exists [].
Qed.

Lemma findDiagnostics_state f c s :
  exists ls, snd (findDiagnostics f c s)
             = add_logs ls (snd (_execFlow (diagnostics_args f c) (diagnostics_options c) f s)).
Proof.
  unfold findDiagnostics.
  destruct (_execFlow (diagnostics_args f c) (diagnostics_options c) f s) as [[[r|]|e|] s1];
    simpl snd.
  - apply logging_decode_errors.
  - by exists [].
  - destruct (exn_exitCode e); [by exists [LogExn e] | apply logging_decode_errors..].
  - by exists [].
Qed.

Lemma getAutocompleteSuggestions_state f c l k p s :
  exists ls, snd (getAutocompleteSuggestions f c l k p s)
             = add_logs ls
                 (snd (_execFlow [AStr "autocomplete"; AStr "--json"; AStr f]
                         {| stdin := Some (insertAutocompleteToken c l k) |} f s)).
Proof.
  unfold getAutocompleteSuggestions, try_catch, bind at 1.
  destruct (_execFlow [AStr "autocomplete"; AStr "--json"; AStr f]
              {| stdin := Some (insertAutocompleteToken c l k) |} f s) as [[[r|]|e|] s1];
    simpl snd; [|by exists []..].
  assert (L : logging (try_catch
    (if exitCode r =? 0
     then j <- parse (Some (stdout r)) ;;
          match j with
          | JArr items => map_items (if all_space p then EmptyString else p) items
          | _ => throw TypeError
          end
     else ret [])
    (fun _ => ret []))) by repeat logging_step.
  destruct (L s1) as [ls E]. exists ls. rewrite <- E. unfold try_catch. reflexivity.
Qed.

Lemma getType_state f c l k s :
  exists ls, snd (getType f c l k s)
             = add_logs ls
                 (snd (_execFlow (type_at_pos_args (l + 1) (k + 1)) {| stdin := Some c |} f s)).
Proof.
  unfold getType.
  destruct (_execFlow (type_at_pos_args (l + 1) (k + 1)) {| stdin := Some c |} f s)
    as [[[r|]|e|] s1]; simpl snd.
  - destruct (includes failure_marker (stdout r)); [by exists []|].
    destruct (_ || _); by exists [].
  - by exists [].
  - by exists [LogTypeAtPos f (l + 1) (k + 1) e].
  - by exists [].
Qed.

(** ** The state [_execFlow] ends in *)

Lemma execFlow_unsafe args o f s :
  getFlowExecOptions f = None -> _execFlow args o f s = (Returns None, s).
Proof. intros H. unfold _execFlow, _execFlow_fuel. by rewrite H. Qed.

Lemma execFlow_shape args o f fo s :
  getFlowExecOptions f = Some fo -> cwd fo ∉ _failedRoots s ->
  let args' := args ++ [AStr "--no-auto-start"] in
  let opts := assign o fo in
  exists k r,
    (k <= maxTries)%nat /\
    (forall j, (j < k)%nat ->
       settle j (asyncExecute (trace (retried j getPathToFlow args' opts (cwd fo) s))
                   getPathToFlow args' opts) = None) /\
    settle k (asyncExecute (trace (retried k getPathToFlow args' opts (cwd fo) s))
                getPathToFlow args' opts) = Some r /\
    _execFlow args o f s
      = (some_result r,
         emit (Exec getPathToFlow args' opts) (retried k getPathToFlow args' opts (cwd fo) s)).
Proof.
  intros Hf Hr args' opts. unfold _execFlow, _execFlow_fuel. rewrite Hf.
  destruct (decide (cwd fo ∈ _failedRoots s)); [done|].
  destruct (exec_loop_shape (S maxTries) getPathToFlow args' opts (cwd fo) 0 s)
    as (k & r & Hk & Hj & Hs & He); [lia | lia |].
  exists k, r. split_and!; [lia | exact Hj | exact Hs |].
  unfold bind. fold args' opts. rewrite He. by destruct r.
Qed.

Lemma execFlow_advances args o f s : advances s (snd (_execFlow args o f s)).
Proof.
  destruct (getFlowExecOptions f) as [fo|] eqn:Hf;
    [|rewrite (execFlow_unsafe _ _ _ _ Hf); constructor].
  destruct (decide (cwd fo ∈ _failedRoots s)) as [Hr|Hr];
    [rewrite (execFlow_failed_root _ _ _ _ _ Hf Hr); constructor|].
  destruct (execFlow_shape args o f fo s Hf Hr) as (k & r & _ & _ & _ & E).
  rewrite E. simpl. constructor. apply advances_retried.
Qed.

(** Every method other than [dispose] advances the state. *)
Lemma run_advances c s :
  match c with
  | CallDispose | WorkerExit _ _ _ => True
  | _ => advances s (run c s)
  end.
Proof.
  destruct c; simpl; try done.
  - apply execFlow_advances.
  - destruct (findDefinition_state file0 currentContents line0 column0 s) as [ls ->].
    eapply advances_trans; [apply execFlow_advances | apply advances_add_logs].
  - destruct (findDiagnostics_state file0 currentContents s) as [ls ->].
    eapply advances_trans; [apply execFlow_advances | apply advances_add_logs].
  - destruct (getAutocompleteSuggestions_state file0 currentContents line0 column0 prefix0 s)
      as [ls ->].
    eapply advances_trans; [apply execFlow_advances | apply advances_add_logs].
  - destruct (getType_state file0 currentContents line0 column0 s) as [ls ->].
    eapply advances_trans; [apply execFlow_advances | apply advances_add_logs].
  - do 2 constructor.
  - do 2 constructor.
  - do 2 constructor.
Qed.

(** ** Beyond the claims: the registry *)

Lemma registry_exact_add_failed_root root s :
  registry_exact s -> registry_exact (add_failed_root root s).
Proof. intros [A B C]. by split. Qed.

Lemma registry_exact_exit_observer root code signal s :
  registry_exact s -> registry_exact (exit_observer root code signal s).
Proof.
  intros R. destruct (crash_dec code signal) as [[-> ->]|H].
  - rewrite exit_observer_crash. by apply registry_exact_add_failed_root, registry_exact_emit.
  - by rewrite (exit_observer_other _ _ _ _ H).
Qed.

Lemma registry_exact_worker_exit p code signal s :
  registry_exact s -> registry_exact (worker_exit p code signal s).
Proof.
  unfold worker_exit. generalize (exit_listeners s). intros ls. revert s.
  induction ls as [|[q root] ls IH]; intros s R; [done|].
  simpl. apply IH. destruct (Nat.eqb q p); [by apply registry_exact_exit_observer | done].
Qed.

Lemma registry_exact_dispose s : registry_exact s -> registry_exact (dispose s).
Proof.
  unfold dispose. generalize (_startedServers s). intros l. revert s.
  induction l as [|p l IH]; intros s R; [done|].
  simpl. apply IH. by apply registry_exact_emit.
Qed.

Lemma registry_exact_run c s : registry_exact s -> registry_exact (run c s).
Proof.
  intros R. pose proof (run_advances c s) as A.
  destruct c; try (by apply (registry_exact_advances s)).
  - by apply registry_exact_dispose.
  - by apply registry_exact_worker_exit.
Qed.

Lemma registry_exact_run_all cs : forall s,
  registry_exact s -> registry_exact (run_all cs s).
Proof.
  induction cs as [|c cs IH]; intros s R; [done|].
  change (run_all (c :: cs) s) with (run_all cs (run c s)).
  by apply IH, registry_exact_run.
Qed.

Lemma registry_exact_reachable s : reachable s -> registry_exact s.
Proof.
  intros [cs ->]. apply registry_exact_run_all. split; reflexivity.
Qed.

(** X1. In every reachable state the tracked workers are exactly the
    processes the service has spawned, in the order of their spawning and
    numbered from 0; the exit listeners pair each of them with the root of
    its [server] command; and [dispose] sends its [SIGKILL]s to exactly
    these processes, in that order. *)
Theorem registry_is_exact (s : state) :
  reachable s ->
  _startedServers s = (spawned (trace s)).*1 /\
  exit_listeners s = spawned (trace s) /\
  _startedServers s = seq 0 (next_proc s) /\
  new_events s (dispose s) = map (fun pr => Kill pr.1 "SIGKILL") (spawned (trace s)).
Proof.
  intros Hs. destruct (registry_exact_reachable s Hs) as [A B C].
  destruct (dispose_fields s) as (_ & _ & _ & D).
  split_and!; [done | done | by rewrite A | ].
  rewrite D, A. by rewrite <- list_fmap_compose.
Qed.

(** ** Beyond the claims: who does what *)

Lemma advances_effects s s' :
  advances s s' ->
  _failedRoots s' = _failedRoots s /\
  exists evs, trace s' = trace s ++ evs /\ count is_kill evs = 0%nat.
Proof.
  induction 1 as [s|s s' path args opts _ (F & evs & T & K)
                  |s s' path root _ (F & evs & T & K)|s s' l _ (F & evs & T & K)].
  - split; [done|]. exists []. by rewrite app_nil_r.
  - split; [done|]. exists (evs ++ [Exec path args opts]).
    split; [simpl; by rewrite T, app_assoc | by rewrite count_app, K].
  - destruct (respawn_fields path root s') as (F' & _ & _ & T' & _).
    split; [congruence|]. exists (evs ++ [Spawn (next_proc s') path ["server"; root]]).
    split; [by rewrite T', T, app_assoc | by rewrite count_app, K].
  - split; [done|]. exists (evs ++ [Log l]).
    split; [simpl; by rewrite T, app_assoc | by rewrite count_app, K].
Qed.

Lemma worker_exit_logs p code signal s :
  exists ls, trace (worker_exit p code signal s) = trace s ++ map Log ls.
Proof.
  unfold worker_exit. generalize (exit_listeners s). intros l. revert s.
  induction l as [|[q root] l IH]; intros s; [exists []; simpl; by rewrite app_nil_r|].
  simpl. destruct (Nat.eqb q p); [|apply IH].
  destruct (IH (exit_observer root code signal s)) as [ls E].
  destruct (crash_dec code signal) as [[-> ->]|H].
  - exists (LogCrash root :: ls). rewrite E, exit_observer_crash. simpl.
    by rewrite <- app_assoc.
  - exists ls. by rewrite E, (exit_observer_other _ _ _ _ H).
Qed.

Lemma count_map_log f ls :
  (forall l, f (Log l) = false) -> count f (map Log ls) = 0%nat.
Proof. intros H. induction ls as [|l ls IH]; simpl; [done | by rewrite H, IH]. Qed.

Lemma count_map_kill f (l : list proc) :
  (forall p sig, f (Kill p sig) = false) ->
  count f (map (fun p => Kill p "SIGKILL") l) = 0%nat.
Proof. intros H. induction l as [|p l IH]; simpl; [done | by rewrite H, IH]. Qed.

(** X2. The effects are kept apart.  A method other than [dispose] never
    kills a process and never changes the failed roots; [dispose] never
    runs the binary, spawns, or changes the failed roots; the exit of a
    worker never runs the binary, spawns or kills, and never changes the
    tracked workers. *)
Theorem effects_are_separate (c : call) (s : state) :
  let evs := new_events s (run c s) in
  match c with
  | CallDispose =>
      _failedRoots (run c s) = _failedRoots s /\
      count is_exec evs = 0%nat /\ count is_spawn evs = 0%nat
  | WorkerExit _ _ _ =>
      _startedServers (run c s) = _startedServers s /\
      count is_exec evs = 0%nat /\ count is_spawn evs = 0%nat /\ count is_kill evs = 0%nat
  | _ =>
      _failedRoots (run c s) = _failedRoots s /\ count is_kill evs = 0%nat
  end.
Proof.
  cbv zeta.
  assert (G : forall s', advances s s' ->
            _failedRoots s' = _failedRoots s /\ count is_kill (new_events s s') = 0%nat).
  { intros s' A. destruct (advances_effects s s' A) as (F & evs & T & K).
    by rewrite (new_events_app s s' evs T). }
  pose proof (run_advances c s) as A.
  destruct c; try (by apply G).
  - destruct (dispose_fields s) as (_ & F & _ & D). simpl run. rewrite D.
    split_and!; [done | by apply count_map_kill | by apply count_map_kill].
  - destruct (worker_exit_fields p code signal s) as (S & _).
    destruct (worker_exit_logs p code signal s) as [ls T].
    simpl run. rewrite (new_events_app _ _ _ T).
    split_and!; [done | by apply count_map_log..].
Qed.

(** ** Beyond the claims: the executor *)

(** X3. For a file under no root ([getFlowExecOptions] gives [null]) the
    executor and the four handlers answer their "no result" in an unchanged
    state, whatever the failed roots are: nothing is run, spawned or
    logged. *)
Theorem no_root_no_effect (file0 : string) (s : state) :
  getFlowExecOptions file0 = None ->
  (forall args o, _execFlow args o file0 s = (Returns None, s)) /\
  (forall c l k, findDefinition file0 c l k s = (Returns None, s)) /\
  (forall c, findDiagnostics file0 c s = (Returns empty_array, s)) /\
  (forall c l k p, getAutocompleteSuggestions file0 c l k p s = (Returns [], s)) /\
  (forall c l k, getType file0 c l k s = (Returns None, s)).
Proof.
  intros Hf. pose proof (fun a o => execFlow_unsafe a o file0 s Hf) as E.
  split_and!.
  - exact E.
  - intros c l k. unfold findDefinition, try_catch, bind. by rewrite E.
  - intros c. unfold findDiagnostics. by rewrite E.
  - intros c l k p. unfold getAutocompleteSuggestions, try_catch, bind. by rewrite E.
  - intros c l k. unfold getType. by rewrite E.
Qed.

(** X4. What one call of [_execFlow] adds to the trace: nothing for a file
    under no root or under a failed root; otherwise [k <= 5] rounds of a
    run followed by the spawn of [flow server root], and one last run.
    Every run is the same command, the caller's arguments followed by
    [--no-auto-start], with the caller's [stdin] and the root as working
    directory; the spawned processes are numbered on from [next_proc]. *)
Theorem execFlow_trace_shape (args : list arg) (o : options) (file0 : string) (s : state) :
  let evs := new_events s (snd (_execFlow args o file0 s)) in
  match getFlowExecOptions file0 with
  | None => evs = []
  | Some fo =>
      if decide (cwd fo ∈ _failedRoots s) then evs = []
      else exists k, (k <= 5)%nat /\
        evs = retry_events k getPathToFlow (args ++ [AStr "--no-auto-start"])
                {| lo_stdin := stdin o; lo_cwd := cwd fo |} (cwd fo) (next_proc s)
              ++ [Exec getPathToFlow (args ++ [AStr "--no-auto-start"])
                    {| lo_stdin := stdin o; lo_cwd := cwd fo |}]
  end.
Proof.
  cbv zeta. destruct (getFlowExecOptions file0) as [fo|] eqn:Hf;
    [|rewrite (execFlow_unsafe _ _ _ _ Hf); apply new_events_same].
  destruct (decide (cwd fo ∈ _failedRoots s)) as [Hr|Hr];
    [rewrite (execFlow_failed_root _ _ _ _ _ Hf Hr); apply new_events_same|].
  destruct (execFlow_shape args o file0 fo s Hf Hr) as (k & r & Hk & _ & _ & E).
  exists k. split; [exact Hk|]. rewrite E. apply new_events_app. simpl.
  destruct (retried_fields k getPathToFlow (args ++ [AStr "--no-auto-start"])
              (assign o fo) (cwd fo) s) as (_ & _ & T & _).
  rewrite T. by rewrite <- app_assoc.
Qed.

(** X5. What [_execFlow] returns or throws is the outcome of its last run
    of the binary: a returned result is what that run resolved with, a
    thrown failure is what it rejected with, and a [TypeError] comes from a
    rejection without [stderr]. *)
Theorem execFlow_result_is_last_run (args : list arg) (o : options) (file0 : string)
    (fo : flowOptions) (s : state) :
  getFlowExecOptions file0 = Some fo ->
  cwd fo ∉ _failedRoots s ->
  let r := _execFlow args o file0 s in
  let run_at t := asyncExecute t getPathToFlow (args ++ [AStr "--no-auto-start"]) (assign o fo) in
  exists t,
    trace (snd r)
      = t ++ [Exec getPathToFlow (args ++ [AStr "--no-auto-start"]) (assign o fo)] /\
    match fst r with
    | Returns (Some result) => run_at t = ExecOk result
    | Throws (ExecFailure e) => run_at t = ExecErr e
    | Throws TypeError => exists e, run_at t = ExecErr e /\ err_stderr e = None
    | _ => False
    end.
Proof.
  intros Hf Hr. cbv zeta.
  destruct (execFlow_shape args o file0 fo s Hf Hr) as (k & r & _ & _ & Hs & E).
  rewrite E. simpl fst. simpl snd.
  exists (trace (retried k getPathToFlow (args ++ [AStr "--no-auto-start"])
                   (assign o fo) (cwd fo) s)).
  split; [done|]. unfold settle in Hs.
  destruct (asyncExecute _ getPathToFlow _ _) as [res|e]; [by injection Hs as <-|].
  destruct (maxTries <=? k)%nat; [by injection Hs as <-|].
  destruct (err_stderr e) as [text|] eqn:He; [|injection Hs as <-; by exists e].
  destruct (includes no_server_running text); [done | by injection Hs as <-].
Qed.

(** X6. A failure that is not the absence of a server is never retried:
    when the first run rejects with a [stderr] that does not hold the
    "no server running" text, [_execFlow] rethrows that failure after this
    one run, and when it rejects with no [stderr] at all, it throws a
    [TypeError]; either way no worker is spawned. *)
Theorem other_failure_is_not_retried (args : list arg) (o : options) (file0 : string)
    (fo : flowOptions) (s : state) (e : exec_error) :
  getFlowExecOptions file0 = Some fo ->
  cwd fo ∉ _failedRoots s ->
  asyncExecute (trace s) getPathToFlow (args ++ [AStr "--no-auto-start"]) (assign o fo)
    = ExecErr e ->
  (forall text, err_stderr e = Some text -> includes no_server_running text = false) ->
  _execFlow args o file0 s
    = (Throws (match err_stderr e with Some _ => ExecFailure e | None => TypeError end),
       emit (Exec getPathToFlow (args ++ [AStr "--no-auto-start"]) (assign o fo)) s).
Proof.
  intros Hf Hr He Hn. unfold _execFlow, _execFlow_fuel. rewrite Hf.
  destruct (decide (cwd fo ∈ _failedRoots s)); [done|].
  unfold bind. rewrite exec_loop_step. cbv zeta. rewrite He.
  change (maxTries <=? 0)%nat with false. cbv iota.
  destruct (err_stderr e) as [text|]; [|done]. by rewrite (Hn text eq_refl).
Qed.

(** X7. The lazy start works: when the first run fails for want of a
    server and the run after the spawn succeeds, [_execFlow] returns the
    result of that second run; one worker has been spawned for the root,
    and it is tracked with its exit listener. *)
Theorem recovers_after_spawn (args : list arg) (o : options) (file0 : string)
    (fo : flowOptions) (s : state) (e : exec_error) (text : string) (result : exec_result) :
  let args' := args ++ [AStr "--no-auto-start"] in
  let s1 := respawn getPathToFlow (cwd fo) (emit (Exec getPathToFlow args' (assign o fo)) s) in
  getFlowExecOptions file0 = Some fo ->
  cwd fo ∉ _failedRoots s ->
  asyncExecute (trace s) getPathToFlow args' (assign o fo) = ExecErr e ->
  err_stderr e = Some text ->
  includes no_server_running text = true ->
  asyncExecute (trace s1) getPathToFlow args' (assign o fo) = ExecOk result ->
  _execFlow args o file0 s
    = (Returns (Some result), emit (Exec getPathToFlow args' (assign o fo)) s1) /\
  next_proc s ∈ _startedServers (snd (_execFlow args o file0 s)) /\
  (next_proc s, cwd fo) ∈ exit_listeners (snd (_execFlow args o file0 s)) /\
  count is_spawn (new_events s (snd (_execFlow args o file0 s))) = 1%nat.
Proof.
  intros args' s1 Hf Hr He Ht Hi Hok. subst args' s1.
  set (args' := args ++ [AStr "--no-auto-start"]) in *.
  set (run1 := Exec getPathToFlow args' (assign o fo)) in *.
  assert (E : _execFlow args o file0 s
              = (Returns (Some result),
                 emit run1 (respawn getPathToFlow (cwd fo) (emit run1 s)))).
  { unfold _execFlow, _execFlow_fuel. rewrite Hf.
    destruct (decide (cwd fo ∈ _failedRoots s)); [done|].
    unfold bind. fold args'. rewrite exec_loop_step. cbv zeta. rewrite He, Ht, Hi.
    change (maxTries <=? 0)%nat with false. cbv iota.
    change (maxTries) with (S 4). rewrite exec_loop_step. cbv zeta.
    fold run1. by rewrite Hok. }
  rewrite E. simpl snd.
  destruct (respawn_fields getPathToFlow (cwd fo) (emit run1 s)) as (_ & L & _ & T & Sv).
  split_and!.
  - done.
  - apply Sv. by left.
  - change (exit_listeners (emit run1 (respawn getPathToFlow (cwd fo) (emit run1 s))))
      with (exit_listeners (respawn getPathToFlow (cwd fo) (emit run1 s))).
    rewrite L. apply elem_of_app. right. apply list_elem_of_here.
  - rewrite (new_events_app s _
      [run1; Spawn (next_proc s) getPathToFlow ["server"; cwd fo]; run1]); [done|].
    change (trace (emit run1 (respawn getPathToFlow (cwd fo) (emit run1 s))))
      with (trace (respawn getPathToFlow (cwd fo) (emit run1 s)) ++ [run1]).
    rewrite T. simpl. by rewrite <- !app_assoc.
Qed.

(** X8. Spawning is not held back by the workers already tracked: under a
    sustained absence of the server every call of [_execFlow] on a healthy
    root adds five more workers to the tracked set, each with an exit
    listener for that root. *)
Theorem sustained_absence_leaks_five (args : list arg) (o : options) (file0 : string)
    (fo : flowOptions) (s : state) :
  reachable s ->
  getFlowExecOptions file0 = Some fo ->
  cwd fo ∉ _failedRoots s ->
  sustained_absence getPathToFlow (args ++ [AStr "--no-auto-start"]) (assign o fo) ->
  let s' := snd (_execFlow args o file0 s) in
  _startedServers s' = _startedServers s ++ seq (next_proc s) 5 /\
  exit_listeners s' = exit_listeners s ++ map (fun p => (p, cwd fo)) (seq (next_proc s) 5).
Proof.
  intros Hs Hf Hr Ha s'.
  destruct (execFlow_shape args o file0 fo s Hf Hr) as (k & r & Hk & _ & Hset & E).
  assert (k = maxTries) as ->.
  { destruct (Nat.eqb_spec k maxTries) as [|Hne]; [done|]. exfalso.
    unfold settle in Hset.
    destruct (Ha (trace (retried k getPathToFlow (args ++ [AStr "--no-auto-start"])
                           (assign o fo) (cwd fo) s))) as (e & text & He & Ht & Hi).
    rewrite He, Ht, Hi in Hset.
    assert (Hlt : (maxTries <=? k)%nat = false) by (apply Nat.leb_gt; lia).
    by rewrite Hlt in Hset. }
  pose proof (retried_fields maxTries getPathToFlow (args ++ [AStr "--no-auto-start"])
                (assign o fo) (cwd fo) s) as (_ & N & _ & L).
  pose proof (registry_exact_reachable s Hs) as [A _ C].
  pose proof (registry_exact_advances s _
                (advances_retried maxTries getPathToFlow (args ++ [AStr "--no-auto-start"])
                   (assign o fo) (cwd fo) s) (registry_exact_reachable s Hs)) as [A' _ C'].
  unfold s'. rewrite E.
  generalize dependent (retried maxTries getPathToFlow (args ++ [AStr "--no-auto-start"])
                          (assign o fo) (cwd fo) s).
  intros sk _ _ N L A' C'. split; [|exact L].
  change (_startedServers sk = _startedServers s ++ seq (next_proc s) 5).
  rewrite A', C', N, A, C. apply seq_app.
Qed.

(** X9. A crash disables only its own root: after the exit of a worker
    spawned for another root, whatever its code and signal, a healthy root
    is still healthy, and [_execFlow] for a file under it still runs the
    binary. *)
Theorem crash_leaves_other_roots_served (s : state) (p : proc) (other : string)
    (code : option Z) (signal : option string) (args : list arg) (o : options)
    (file0 : string) (fo : flowOptions) :
  reachable s ->
  (p, other) ∈ exit_listeners s ->
  getFlowExecOptions file0 = Some fo ->
  cwd fo <> other ->
  cwd fo ∉ _failedRoots s ->
  let s1 := worker_exit p code signal s in
  (cwd fo ∉ _failedRoots s1) /\
  (1 <= count is_exec (new_events s1 (snd (_execFlow args o file0 s1))))%nat.
Proof.
  intros Hs Hp Hf Hne Hr s1. apply reachable_wf in Hs.
  destruct (worker_exit_fields p code signal s) as (_ & _ & _ & _ & F & _).
  fold s1 in F.
  assert (Hr1 : cwd fo ∉ _failedRoots s1).
  { intros H. apply F in H as [H|(H & _)]; [done|].
    apply Hne. by apply (listener_unique (exit_listeners s) p); [apply (wf_listeners s Hs)|..]. }
  split; [exact Hr1|].
  destruct (execFlow_shape args o file0 fo s1 Hf Hr1) as (k & r & _ & _ & _ & E).
  rewrite E. simpl snd.
  destruct (retried_fields k getPathToFlow (args ++ [AStr "--no-auto-start"])
              (assign o fo) (cwd fo) s1) as (_ & _ & T & _).
  rewrite (new_events_app s1 _
    (retry_events k getPathToFlow (args ++ [AStr "--no-auto-start"]) (assign o fo)
       (cwd fo) (next_proc s1)
     ++ [Exec getPathToFlow (args ++ [AStr "--no-auto-start"]) (assign o fo)])).
  - rewrite count_app. simpl. lia.
  - simpl. rewrite T. by rewrite <- app_assoc.
Qed.

(** ** Beyond the claims: the handlers *)

(** X10. A rejection without [stderr] hides the failure from
    [findDiagnostics]: when the first run rejects with an error that has no
    [stderr], [_execFlow] throws a [TypeError] in its place, and
    [findDiagnostics] logs it and returns the empty list, whatever exit
    code and output the rejection carried. *)
Theorem missing_stderr_masks_failure (file0 : string) (contents : option string)
    (fo : flowOptions) (s : state) (e : exec_error) :
  let args' := diagnostics_args file0 contents ++ [AStr "--no-auto-start"] in
  let opts := assign (diagnostics_options contents) fo in
  getFlowExecOptions file0 = Some fo ->
  cwd fo ∉ _failedRoots s ->
  asyncExecute (trace s) getPathToFlow args' opts = ExecErr e ->
  err_stderr e = None ->
  findDiagnostics file0 contents s
    = (Returns empty_array,
       emit (Log (LogExn TypeError)) (emit (Exec getPathToFlow args' opts) s)).
Proof.
  intros args' opts Hf Hr He Hn. unfold findDiagnostics.
  assert (E : _execFlow (diagnostics_args file0 contents) (diagnostics_options contents)
                file0 s = (Throws TypeError, emit (Exec getPathToFlow args' opts) s)).
  { unfold _execFlow, _execFlow_fuel. rewrite Hf.
    destruct (decide (cwd fo ∈ _failedRoots s)); [done|].
    unfold bind. rewrite exec_loop_step. cbv zeta. fold args' opts. rewrite He, Hn.
    reflexivity. }
  by rewrite E.
Qed.


Lemma decode_errors_eq t s :
  decode_errors t s =
  match t with
  | Some text =>
      match JSON_parse text with
      | Some JNull => (Throws TypeError, s)
      | Some j => (Returns (prop j "errors"), s)
      | None => (Returns empty_array, emit (Log (LogExn SyntaxError)) s)
      end
  | None => (Returns empty_array, emit (Log (LogExn SyntaxError)) s)
  end.
Proof.
  unfold decode_errors, try_catch, bind, parse, ret, throw.
  destruct t as [text|]; [|done].
  destruct (JSON_parse text) as [[]|]; reflexivity.
Qed.

Lemma decode_errors_throws t s e :
  fst (decode_errors t s) = Throws e <->
  e = TypeError /\ exists text, t = Some text /\ JSON_parse text = Some JNull.
Proof.
  rewrite decode_errors_eq. split.
  - destruct t as [text|]; [|discriminate].
    destruct (JSON_parse text) as [[]|] eqn:Hj; try discriminate.
    intros [= <-]. split; [done|]. by exists text.
  - intros (-> & text & -> & ->). reflexivity.
Qed.

(** X12. [findDiagnostics] never fails to come to an end, and it raises
    in one case only: the text it decodes (the output of a successful run,
    or of a failure with a defined exit code) is the JSON text of [null];
    what it raises then is a [TypeError]. *)
Theorem findDiagnostics_raises_iff_null (file0 : string) (contents : option string)
    (s : state) (e : exn) :
  fst (findDiagnostics file0 contents s) <> Diverges /\
  (fst (findDiagnostics file0 contents s) = Throws e <->
   e = TypeError /\
   exists text,
     decoded (fst (_execFlow (diagnostics_args file0 contents)
                     (diagnostics_options contents) file0 s)) = Some (Some text) /\
     JSON_parse text = Some JNull).
Proof.
  unfold findDiagnostics.
  pose proof (terminates_execFlow (diagnostics_args file0 contents)
                (diagnostics_options contents) file0 s) as T.
  destruct (_execFlow _ _ file0 s) as [[[r|]|e0|] s1]; simpl fst in *; simpl decoded.
  - split; [apply terminates_decode_errors|].
    rewrite decode_errors_throws. split.
    + intros (-> & text & [= <-] & H). split; [done|]. by exists (stdout r).
    + intros (-> & text & [= <-] & H). split; [done|]. by exists (stdout r).
  - split; [done|]. split; [discriminate|]. by intros (_ & text & H & _).
  - destruct (exn_exitCode e0).
    + split; [done|]. split; [discriminate|]. by intros (_ & text & H & _).
    + split; [apply terminates_decode_errors|].
      rewrite decode_errors_throws. split.
      * intros (-> & text & H1 & H2). split; [done|]. exists text. by rewrite H1.
      * intros (-> & text & [= H1] & H2). split; [done|]. by exists text.
    + split; [apply terminates_decode_errors|].
      rewrite decode_errors_throws. split.
      * intros (-> & text & H1 & H2). split; [done|]. exists text. by rewrite H1.
      * intros (-> & text & [= H1] & H2). split; [done|]. by exists text.
  - done.
Qed.

Lemma map_items_all r items s :
  Forall (fun item => item <> JNull) items ->
  map_items r items s
    = (Returns (map (fun item => {| text := prop item "name"; rightLabel := prop item "type";
                                    replacementPrefix := r |}) items), s).
Proof.
  induction 1 as [|item rest Hi _ IH]; [done|].
  cbn [map_items map]. unfold bind at 1. unfold get at 1.
  destruct item; try done; unfold ret at 1; unfold bind at 1; unfold get at 1;
    unfold ret at 1; unfold bind; rewrite IH; reflexivity.
Qed.

Lemma map_items_null r items s :
  JNull ∈ items -> map_items r items s = (Throws TypeError, s).
Proof.
  induction items as [|item rest IH]; intros H; [by apply elem_of_nil in H|].
  cbn [map_items]. destruct item;
    try (apply elem_of_cons in H as [H|H]; [discriminate|];
         unfold bind, get, ret; simpl; by rewrite (IH H)).
  reflexivity.
Qed.

(** X13. When [autocomplete] exits with 0 and prints a JSON array of
    items none of which is [null], [getAutocompleteSuggestions] returns
    one suggestion per item, in the same order: its [text] is the item's
    [name], its [rightLabel] the item's [type] (each [undefined] when the
    item has none), and its [replacementPrefix] is the prefix, or the empty
    text when the prefix is all white space.  One [null] item makes the
    whole answer the empty list, and so does an output that is no array. *)
Theorem autocomplete_decodes (file0 contents : string) (l c : Z) (prefix0 : string)
    (s s' : state) (result : exec_result) (j : json) :
  _execFlow [AStr "autocomplete"; AStr "--json"; AStr file0]
      {| stdin := Some (insertAutocompleteToken contents l c) |} file0 s
    = (Returns (Some result), s') ->
  exitCode result = 0 ->
  JSON_parse (stdout result) = Some j ->
  getAutocompleteSuggestions file0 contents l c prefix0 s =
    (Returns
       match j with
       | JArr items =>
           if existsb is_null items then []
           else map (fun item =>
                  {| text := prop item "name"; rightLabel := prop item "type";
                     replacementPrefix := if all_space prefix0 then EmptyString else prefix0 |})
                  items
       | _ => []
       end, s').
Proof.
  intros He Hc Hj. unfold getAutocompleteSuggestions, try_catch, bind at 1.
  rewrite He, Hc. change (0 =? 0) with true. cbv iota.
  unfold bind, parse, ret. rewrite Hj.
  destruct j; try reflexivity.
  destruct (existsb is_null items) eqn:Hn.
  - rewrite map_items_null; [done|].
    apply existsb_exists in Hn as (item & Hi & Hnull).
    destruct item; try discriminate. by apply list_elem_of_In.
  - rewrite map_items_all; [done|].
    apply Forall_forall. intros item Hi ->.
    assert (existsb is_null items = true); [|congruence].
    apply existsb_exists. exists JNull. split; [by apply list_elem_of_In | done].
Qed.

(** ** Beyond the claims: the commands the handlers run *)

Lemma execs_app t1 t2 : execs (t1 ++ t2) = execs t1 ++ execs t2.
Proof.
  induction t1 as [|e t1 IH]; [done|]. simpl. destruct (is_exec e); simpl; by rewrite IH.
Qed.

Lemma execs_logs ls : execs (map Log ls) = [].
Proof. by induction ls. Qed.

Lemma execs_retry_events k path args opts root : forall p,
  execs (retry_events k path args opts root p) = repeat (Exec path args opts) k /\
  count is_exec (retry_events k path args opts root p) = k.
Proof.
  induction k as [|k IH]; intros p; [done|].
  destruct (IH (S p)) as [A B]. simpl. by rewrite A, B.
Qed.

Lemma trace_add_logs ls : forall s, trace (add_logs ls s) = trace s ++ map Log ls.
Proof.
  induction ls as [|l ls IH]; intros s; simpl; [by rewrite app_nil_r|].
  change (add_logs (l :: ls) s) with (add_logs ls (emit (Log l) s)).
  rewrite IH. simpl. by rewrite <- app_assoc.
Qed.

(** The runs of the binary in what a call of [_execFlow] adds to the trace
    are all the same command. *)
Lemma execFlow_execs args o f s :
  let evs := new_events s (snd (_execFlow args o f s)) in
  match getFlowExecOptions f with
  | None => execs evs = [] /\ count is_exec evs = 0%nat
  | Some fo =>
      execs evs = repeat (Exec getPathToFlow (args ++ [AStr "--no-auto-start"]) (assign o fo))
                    (count is_exec evs)
  end.
Proof.
  cbv zeta. destruct (getFlowExecOptions f) as [fo|] eqn:Hf;
    [|by rewrite (execFlow_unsafe _ _ _ _ Hf), new_events_same].
  destruct (decide (cwd fo ∈ _failedRoots s)) as [Hr|Hr];
    [by rewrite (execFlow_failed_root _ _ _ _ _ Hf Hr), new_events_same|].
  destruct (execFlow_shape args o f fo s Hf Hr) as (k & r & _ & _ & _ & E).
  rewrite E. simpl snd.
  destruct (retried_fields k getPathToFlow (args ++ [AStr "--no-auto-start"])
              (assign o fo) (cwd fo) s) as (_ & _ & T & _).
  rewrite (new_events_app s _
    (retry_events k getPathToFlow (args ++ [AStr "--no-auto-start"]) (assign o fo)
       (cwd fo) (next_proc s)
     ++ [Exec getPathToFlow (args ++ [AStr "--no-auto-start"]) (assign o fo)])).
  - rewrite execs_app, count_app.
    destruct (execs_retry_events k getPathToFlow (args ++ [AStr "--no-auto-start"])
                (assign o fo) (cwd fo) (next_proc s)) as [A B].
    rewrite A, B. simpl. rewrite Nat.add_1_r. by rewrite <- repeat_cons.
  - simpl. rewrite T. by rewrite <- app_assoc.
Qed.

(** The runs of the binary a handler causes are those of its call of
    [_execFlow]. *)
Lemma handler_execs args o f s ls :
  let s1 := snd (_execFlow args o f s) in
  execs (new_events s (add_logs ls s1)) = execs (new_events s s1) /\
  count is_exec (new_events s (add_logs ls s1)) = count is_exec (new_events s s1).
Proof.
  cbv zeta. destruct (framed_execFlow args o f s) as [_ _ _ T].
  rewrite (new_events_app s (add_logs ls (snd (_execFlow args o f s)))
             (new_events s (snd (_execFlow args o f s)) ++ map Log ls)).
  - rewrite execs_app, count_app, execs_logs, app_nil_r.
    rewrite (count_map_log is_exec ls); [by rewrite Nat.add_0_r | done].
  - rewrite trace_add_logs, T at 1. by rewrite <- app_assoc.
Qed.

(** X14. The command of [findDiagnostics]: with a buffer that is not
    empty, every run of the binary it causes is [check-contents --json
    file --no-auto-start] with the buffer as [stdin]; with no buffer, or
    with an empty one, every run is [status --json file --no-auto-start]
    with no [stdin].  An empty buffer is handled exactly as no buffer. *)
Theorem findDiagnostics_command (file0 : string) (contents : option string) (s : state) :
  let evs := new_events s (snd (findDiagnostics file0 contents s)) in
  match getFlowExecOptions file0 with
  | None => execs evs = []
  | Some fo =>
      execs evs =
        repeat
          (match contents with
           | Some (String a b) =>
               Exec getPathToFlow
                 [AStr "check-contents"; AStr "--json"; AStr file0; AStr "--no-auto-start"]
                 {| lo_stdin := Some (String a b); lo_cwd := cwd fo |}
           | _ =>
               Exec getPathToFlow
                 [AStr "status"; AStr "--json"; AStr file0; AStr "--no-auto-start"]
                 {| lo_stdin := None; lo_cwd := cwd fo |}
           end)
          (count is_exec evs)
  end /\
  findDiagnostics file0 (Some EmptyString) s = findDiagnostics file0 None s.
Proof.
  cbv zeta. split; [|reflexivity].
  destruct (findDiagnostics_state file0 contents s) as [ls ->].
  destruct (handler_execs (diagnostics_args file0 contents) (diagnostics_options contents)
              file0 s ls) as [-> ->].
  pose proof (execFlow_execs (diagnostics_args file0 contents)
                (diagnostics_options contents) file0 s) as H. cbv zeta in H.
  destruct (getFlowExecOptions file0) as [fo|]; [|by destruct H].
  rewrite H. by destruct contents as [[|a b]|].
Qed.

(** X15. The commands of the three handlers that take a position.  Every
    run of the binary [getType] causes is [type-at-pos (line + 1)
    (column + 1) --no-auto-start]: the position is made 1-based.  Every
    run [findDefinition] causes is [get-def --json --path file line column
    --no-auto-start], with the position as it was given.  Every run
    [getAutocompleteSuggestions] causes is [autocomplete --json file
    --no-auto-start], and its [stdin] is the buffer with the token
    inserted; the other two send the buffer as it is. *)
Theorem position_handlers_commands (file0 contents : string) (l c : Z) (prefix0 : string)
    (s : state) :
  let root := match getFlowExecOptions file0 with Some fo => cwd fo | None => EmptyString end in
  let t_evs := new_events s (snd (getType file0 contents l c s)) in
  let d_evs := new_events s (snd (findDefinition file0 contents l c s)) in
  let a_evs := new_events s (snd (getAutocompleteSuggestions file0 contents l c prefix0 s)) in
  execs t_evs =
    repeat (Exec getPathToFlow
              [AStr "type-at-pos"; ANum (l + 1); ANum (c + 1); AStr "--no-auto-start"]
              {| lo_stdin := Some contents; lo_cwd := root |})
           (count is_exec t_evs) /\
  execs d_evs =
    repeat (Exec getPathToFlow
              [AStr "get-def"; AStr "--json"; AStr "--path"; AStr file0; ANum l; ANum c;
               AStr "--no-auto-start"]
              {| lo_stdin := Some contents; lo_cwd := root |})
           (count is_exec d_evs) /\
  execs a_evs =
    repeat (Exec getPathToFlow
              [AStr "autocomplete"; AStr "--json"; AStr file0; AStr "--no-auto-start"]
              {| lo_stdin := Some (insertAutocompleteToken contents l c); lo_cwd := root |})
           (count is_exec a_evs).
Proof.
  cbv zeta.
  assert (G : forall args o ls,
    execs (new_events s (add_logs ls (snd (_execFlow args o file0 s)))) =
    repeat (Exec getPathToFlow (args ++ [AStr "--no-auto-start"])
              {| lo_stdin := stdin o;
                 lo_cwd := match getFlowExecOptions file0 with
                           | Some fo => cwd fo
                           | None => EmptyString
                           end |})
           (count is_exec (new_events s (add_logs ls (snd (_execFlow args o file0 s)))))).
  { intros args o ls. destruct (handler_execs args o file0 s ls) as [-> ->].
    pose proof (execFlow_execs args o file0 s) as H. cbv zeta in H.
    destruct (getFlowExecOptions file0) as [fo|]; [exact H|].
    destruct H as [-> ->]. reflexivity. }
  split_and!.
  - destruct (getType_state file0 contents l c s) as [ls ->]. apply G.
  - destruct (findDefinition_state file0 contents l c s) as [ls ->]. apply G.
  - destruct (getAutocompleteSuggestions_state file0 contents l c prefix0 s) as [ls ->].
    apply G.
Qed.

(** X16. How [findDefinition] degrades.  When the run exits with a code
    other than 0 it logs the run's [stderr] and returns [null]; when the
    run exits with 0 and its output is no JSON text, and when [_execFlow]
    throws, it logs the [stderr] of what was thrown ([undefined] for a
    parse error) and returns [null]. *)
Theorem findDefinition_degrades (file0 contents : string) (l c : Z) (s : state) :
  let r := _execFlow (get_def_args file0 l c) {| stdin := Some contents |} file0 s in
  match fst r with
  | Returns (Some result) =>
      if exitCode result =? 0 then
        match JSON_parse (stdout result) with
        | None =>
            findDefinition file0 contents l c s
              = (Returns None, emit (Log (LogStderr None)) (snd r))
        | Some _ => True
        end
      else
        findDefinition file0 contents l c s
          = (Returns None, emit (Log (LogStderr (Some (stderr result)))) (snd r))
  | Returns None => findDefinition file0 contents l c s = (Returns None, snd r)
  | Throws e =>
      findDefinition file0 contents l c s
        = (Returns None, emit (Log (LogStderr (exn_stderr e))) (snd r))
  | Diverges => False
  end.
Proof.
  cbv zeta.
  pose proof (terminates_execFlow (get_def_args file0 l c) {| stdin := Some contents |}
                file0 s) as T.
  destruct (_execFlow (get_def_args file0 l c) {| stdin := Some contents |} file0 s)
    as [[[result|]|e|] s1] eqn:E; simpl fst; simpl snd; cbv beta iota.
  - destruct (exitCode result =? 0) eqn:Hc.
    + destruct (JSON_parse (stdout result)) eqn:Hj; [done|].
      unfold findDefinition, try_catch, bind. rewrite E, Hc.
      unfold parse, throw. by rewrite Hj.
    + unfold findDefinition, try_catch, bind. by rewrite E, Hc.
  - unfold findDefinition, try_catch, bind. by rewrite E.
  - unfold findDefinition, try_catch, bind. by rewrite E.
  - by apply T.
Qed.

Lemma first_line_no_newline s : no_newline (first_line s) = true.
Proof.
  induction s as [|c s IH]; [done|].
  rewrite first_line_cons. destruct (Ascii.eqb c nl) eqn:E; [done|].
  simpl. by rewrite E, IH.
Qed.

Lemma first_line_prefix s : String.prefix (first_line s) s = true.
Proof.
  induction s as [|c s IH]; [done|].
  rewrite first_line_cons. destruct (Ascii.eqb c nl); [done|].
  by rewrite prefix_cons, Ascii.eqb_refl, IH.
Qed.

(** X17. A type [getType] returns is never empty, never "(unknown)" and
    holds no line break; it is the first line of the output of a
    successful run in which no line break is followed by "Failure". *)
Theorem getType_result_wellformed (file0 contents : string) (l c : Z) (s : state)
    (t : string) :
  fst (getType file0 contents l c s) = Returns (Some t) ->
  t <> EmptyString /\ t <> "(unknown)" /\ no_newline t = true /\
  exists result,
    fst (_execFlow (type_at_pos_args (l + 1) (c + 1)) {| stdin := Some contents |} file0 s)
      = Returns (Some result) /\
    t = first_line (stdout result) /\
    String.prefix t (stdout result) = true /\
    includes failure_marker (stdout result) = false.
Proof.
  unfold getType.
  destruct (_execFlow (type_at_pos_args (l + 1) (c + 1)) {| stdin := Some contents |} file0 s)
    as [[[result|]|e|] s1]; simpl fst; try discriminate.
  destruct (includes failure_marker (stdout result)) eqn:Hi; [discriminate|].
  destruct (String.eqb (first_line (stdout result)) "(unknown)") eqn:Hu; [discriminate|].
  destruct (String.eqb (first_line (stdout result)) EmptyString) eqn:He; [discriminate|].
  simpl. intros [= <-].
  apply String.eqb_neq in Hu, He. split_and!; [done | done | apply first_line_no_newline |].
  exists result. split_and!; [done | done | apply first_line_prefix | done].
Qed.

End Properties.

(** * Properties of the selection *)

Section SelectionProperties.
Import QuickSelection.
Context {helpers : SearchResultHelpers}.
Set Default Proof Using "Type".

(** ** Objects *)

Lemma own_app_fresh {V : Type} (o1 o2 : object V) (k : string) (v : V) :
  k ∉ keys o1 -> own (o1 ++ (k, v) :: o2) k = Some v.
Proof.
  induction o1 as [|[k' v'] o1 IH]; simpl; intros H.
  - by rewrite String.eqb_refl.
  - apply not_elem_of_cons in H as [H1 H2].
    destruct (String.eqb_spec k' k) as [->|_]; [done | by apply IH].
Qed.

Lemma own_None {V : Type} (o : object V) (k : string) :
  own o k = None <-> k ∉ keys o.
Proof.
  induction o as [|[k' v'] o IH]; simpl.
  - split; [intros _; apply not_elem_of_nil | done].
  - rewrite not_elem_of_cons. destruct (String.eqb_spec k' k) as [->|N].
    + split; [done | by intros [? _]].
    + rewrite IH. split; [by intros ?; split | by intros [_ ?]].
Qed.

Lemma indexOf_from_app_fresh (ks1 ks2 : list string) (k : string) (i : Z) :
  k ∉ ks1 -> indexOf_from (ks1 ++ k :: ks2) k i = i + len ks1.
Proof.
  revert i. induction ks1 as [|k' ks1 IH]; simpl; intros i H.
  - rewrite String.eqb_refl. unfold len. simpl. lia.
  - apply not_elem_of_cons in H as [H1 H2].
    destruct (String.eqb_spec k' k) as [->|_]; [done|].
    rewrite IH by done. unfold len. simpl length. lia.
Qed.

Lemma element_app {A : Type} (l1 l2 : list A) (x : A) :
  element (l1 ++ x :: l2) (len l1) = Some x.
Proof.
  unfold element, len. destruct (Z.ltb_spec (Z.of_nat (length l1)) 0) as [H|_]; [lia|].
  rewrite Nat2Z.id. induction l1; simpl; auto.
Qed.

Lemma keys_app {V : Type} (o1 o2 : object V) : keys (o1 ++ o2) = keys o1 ++ keys o2.
Proof. apply map_app. Qed.

Lemma NoDup_keys_mid {V : Type} (o1 o2 : object V) (k : string) (v : V) :
  NoDup (keys (o1 ++ (k, v) :: o2)) -> (k ∉ keys o1) /\ (k ∉ keys o2).
Proof.
  rewrite keys_app. simpl. intros H. apply NoDup_app in H as (_ & H1 & H2).
  apply NoDup_cons in H2 as [H2 _]. split; [|done].
  intros Hin. apply (H1 k Hin). apply list_elem_of_here.
Qed.

Lemma read_own {V : Type} (o1 o2 : object V) (k : string) (v : V) :
  NoDup (keys (o1 ++ (k, v) :: o2)) -> read (o1 ++ (k, v) :: o2) k = Own v.
Proof.
  intros H. apply NoDup_keys_mid in H as [H _]. unfold read. by rewrite own_app_fresh.
Qed.

Lemma read_head {V : Type} (o : object V) (k : string) (v : V) :
  read ((k, v) :: o) k = Own v.
Proof. unfold read. simpl. by rewrite String.eqb_refl. Qed.

Lemma indexOf_own {V : Type} (o1 o2 : object V) (k : string) (v : V) :
  NoDup (keys (o1 ++ (k, v) :: o2)) ->
  indexOf (keys (o1 ++ (k, v) :: o2)) (Some k) = len o1.
Proof.
  intros H. apply NoDup_keys_mid in H as [H _]. unfold indexOf.
  rewrite keys_app. simpl. rewrite indexOf_from_app_fresh by done.
  unfold len, keys. rewrite length_map. lia.
Qed.

Lemma len_keys {V : Type} (o : object V) : len (keys o) = len o.
Proof. unfold len, keys. by rewrite length_map. Qed.

Lemma len_app {A : Type} (l1 l2 : list A) : len (l1 ++ l2) = len l1 + len l2.
Proof. unfold len. rewrite length_app. lia. Qed.

Lemma len_cons {A : Type} (x : A) (l : list A) : len (x :: l) = 1 + len l.
Proof. unfold len. simpl length. lia. Qed.

Lemma len_nonneg {A : Type} (l : list A) : 0 <= len l.
Proof. unfold len. lia. Qed.

Lemma element_keys {V : Type} (o1 o2 : object V) (k : string) (v : V) :
  element (keys (o1 ++ (k, v) :: o2)) (len o1) = Some k.
Proof. rewrite keys_app. simpl. rewrite <- len_keys. apply element_app. Qed.

(** ** The rows of the list *)

Lemma flat_map_lookup_inv {A B : Type} (f : A -> list B) (l : list A) (k : nat) (y : B) :
  flat_map f l !! k = Some y ->
  exists l1 x l2 j,
    l = l1 ++ x :: l2 /\ k = (length (flat_map f l1) + j)%nat /\ f x !! j = Some y.
Proof.
  revert k. induction l as [|x l IH]; simpl; intros k H; [done|].
  apply lookup_app_Some in H as [H|[H1 H2]].
  - by exists [], x, l, k.
  - destruct (IH _ H2) as (l1 & x' & l2 & j & -> & E & Hj).
    exists (x :: l1), x', l2, j. split_and!; [done | | done].
    simpl. rewrite length_app. lia.
Qed.

Lemma flat_map_lookup_at {A B : Type} (f : A -> list B) (l1 l2 : list A) (x : A) (j : nat) :
  (j < length (f x))%nat ->
  flat_map f (l1 ++ x :: l2) !! (length (flat_map f l1) + j)%nat = f x !! j.
Proof.
  intros H. rewrite flat_map_app. rewrite lookup_app_r by lia.
  replace (length (flat_map f l1) + j - length (flat_map f l1))%nat with j by lia.
  simpl. by rewrite lookup_app_l.
Qed.

Lemma directory_positions_length (S D : string) (d : directoryResults) (l : list json) :
  items d = Some l -> length (directory_positions S D d) = length l.
Proof. intros E. unfold directory_positions. rewrite E. by rewrite length_map, length_seq. Qed.

Lemma directory_positions_lookup (S D : string) (d : directoryResults) (j : nat) (p : position) :
  directory_positions S D d !! j = Some p <->
  exists l, items d = Some l /\ (j < length l)%nat /\ p = (S, D, Z.of_nat j).
Proof.
  unfold directory_positions. destruct (items d) as [l|].
  - rewrite list_lookup_fmap. split.
    + intros H. apply fmap_Some in H as (i & Hi & ->).
      apply lookup_seq in Hi as [-> Hi]. by exists l.
    + intros (l' & [= <-] & Hj & ->).
      by rewrite (proj2 (lookup_seq 0 (length l) j j) (conj eq_refl Hj)).
  - split; [done | by intros (l & ? & _)].
Qed.

Lemma service_positions_app (S : string) (d1 d2 : object directoryResults) :
  service_positions S (d1 ++ d2) = service_positions S d1 ++ service_positions S d2.
Proof. apply flat_map_app. Qed.

Lemma positions_app (r1 r2 : ResultsByService) :
  positions (r1 ++ r2) = positions r1 ++ positions r2.
Proof. apply flat_map_app. Qed.

Lemma positions_lookup_inv (r : ResultsByService) (k : nat) (p : position) :
  positions r !! k = Some p ->
  exists r1 svc r2 d1 d d2 l j,
    r = r1 ++ (p.1.1, svc) :: r2 /\ svc = d1 ++ (p.1.2, d) :: d2 /\
    items d = Some l /\ (j < length l)%nat /\ p.2 = Z.of_nat j /\
    k = (length (positions r1) + length (service_positions p.1.1 d1) + j)%nat.
Proof.
  intros H. apply flat_map_lookup_inv in H as (r1 & [S svc] & r2 & j1 & -> & -> & H).
  apply flat_map_lookup_inv in H as (d1 & [D d] & d2 & j & E & -> & H).
  apply directory_positions_lookup in H as (l & Hl & Hj & ->). simpl in *. subst svc.
  exists r1, (d1 ++ (D, d) :: d2), r2, d1, d, d2, l, j.
  split_and!; try done. unfold positions, service_positions. lia.
Qed.

Lemma service_positions_lookup_at (S D : string) (d1 d2 : object directoryResults)
    (d : directoryResults) (l : list json) (j : nat) :
  items d = Some l -> (j < length l)%nat ->
  service_positions S (d1 ++ (D, d) :: d2) !! (length (service_positions S d1) + j)%nat
  = Some (S, D, Z.of_nat j).
Proof.
  intros Hl Hj. unfold service_positions.
  rewrite (flat_map_lookup_at (fun e => directory_positions S e.1 e.2)); simpl.
  - apply directory_positions_lookup. by exists l.
  - by rewrite (directory_positions_length _ _ _ l).
Qed.

Lemma service_positions_length (S D : string) (d1 d2 : object directoryResults)
    (d : directoryResults) (l : list json) :
  items d = Some l ->
  length (service_positions S (d1 ++ (D, d) :: d2))
  = (length (service_positions S d1) + length l + length (service_positions S d2))%nat.
Proof.
  intros Hl. rewrite service_positions_app, length_app.
  change (service_positions S ((D, d) :: d2))
    with (directory_positions S D d ++ service_positions S d2).
  rewrite length_app, (directory_positions_length _ _ _ l) by done. lia.
Qed.

Lemma positions_lookup_at (r1 r2 : ResultsByService) (S D : string)
    (d1 d2 : object directoryResults) (d : directoryResults) (l : list json) (j : nat) :
  items d = Some l -> (j < length l)%nat ->
  positions (r1 ++ (S, d1 ++ (D, d) :: d2) :: r2)
    !! (length (positions r1) + length (service_positions S d1) + j)%nat
  = Some (S, D, Z.of_nat j).
Proof.
  intros Hl Hj. unfold positions.
  rewrite <- Nat.add_assoc.
  rewrite (flat_map_lookup_at (fun e => service_positions e.1 e.2)); simpl.
  - by apply (service_positions_lookup_at _ _ _ _ _ l).
  - rewrite (service_positions_length _ _ _ _ _ l) by done. lia.
Qed.

Lemma positions_length (r1 r2 : ResultsByService) (S D : string)
    (d1 d2 : object directoryResults) (d : directoryResults) (l : list json) :
  items d = Some l ->
  length (positions (r1 ++ (S, d1 ++ (D, d) :: d2) :: r2))
  = (length (positions r1) + length (service_positions S d1) + length l
     + length (service_positions S d2) + length (positions r2))%nat.
Proof.
  intros Hl. rewrite positions_app, length_app.
  change (positions ((S, d1 ++ (D, d) :: d2) :: r2))
    with (service_positions S (d1 ++ (D, d) :: d2) ++ positions r2).
  rewrite length_app, (service_positions_length _ _ _ _ _ l) by done. lia.
Qed.

Lemma service_positions_pos (S D : string) (d2 : object directoryResults)
    (d : directoryResults) (x : json) (l : list json) :
  items d = Some (x :: l) -> (0 < length (service_positions S ((D, d) :: d2)))%nat.
Proof.
  intros Hl. pose proof (service_positions_length S D [] d2 d (x :: l) Hl) as E.
  cbn [app] in E. rewrite E. simpl. lia.
Qed.

Lemma positions_pos (r2 : ResultsByService) (S D : string) (d2 : object directoryResults)
    (d : directoryResults) (x : json) (l : list json) :
  items d = Some (x :: l) -> (0 < length (positions ((S, (D, d) :: d2) :: r2)))%nat.
Proof.
  intros Hl. pose proof (positions_length [] r2 S D [] d2 d (x :: l) Hl) as E.
  cbn [app] in E. rewrite E. simpl. lia.
Qed.

Lemma positions_lookup_directory (r1 r2 : ResultsByService) (S D : string)
    (d1 d2 : object directoryResults) (d : directoryResults) (x : json) (l : list json) :
  items d = Some (x :: l) ->
  positions (r1 ++ (S, d1 ++ (D, d) :: d2) :: r2)
    !! (length (positions r1) + length (service_positions S d1))%nat
  = Some (S, D, 0).
Proof.
  intros Hl. rewrite <- (Nat.add_0_r (_ + _)).
  apply (positions_lookup_at r1 r2 S D d1 d2 d (x :: l) 0 Hl). simpl. lia.
Qed.

Lemma positions_lookup_service (r1 r2 : ResultsByService) (S D : string)
    (d2 : object directoryResults) (d : directoryResults) (x : json) (l : list json) :
  items d = Some (x :: l) ->
  positions (r1 ++ (S, (D, d) :: d2) :: r2) !! length (positions r1) = Some (S, D, 0).
Proof.
  intros Hl. rewrite <- (Nat.add_0_r (length _)).
  apply (positions_lookup_directory r1 r2 S D [] d2 d x l Hl).
Qed.

(** ** Where the selection is *)

Lemma context_at (s : state) (r1 r2 : ResultsByService) (S D : string)
    (d1 d2 : object directoryResults) (d : directoryResults) (l : list json) (i : Z) :
  filterEmptyResults (resultsByService s) = r1 ++ (S, d1 ++ (D, d) :: d2) :: r2 ->
  NoDup (keys (r1 ++ (S, d1 ++ (D, d) :: d2) :: r2)) ->
  NoDup (keys (d1 ++ (D, d) :: d2)) ->
  items d = Some l ->
  getSelectedIndex s = (S, Some D, i) ->
  _getCurrentResultContext s =
    Value (Some {| nonEmptyResults := r1 ++ (S, d1 ++ (D, d) :: d2) :: r2;
                   serviceNames := keys (r1 ++ (S, d1 ++ (D, d) :: d2) :: r2);
                   currentServiceIndex := len r1;
                   currentService := d1 ++ (D, d) :: d2;
                   directoryNames := keys (d1 ++ (D, d) :: d2);
                   currentDirectoryIndex := len d1;
                   currentDirectory := d |}).
Proof.
  intros Er Hr Hd Hl [= ES ED EI]. unfold _getCurrentResultContext.
  rewrite Er, ES, ED. rewrite (read_own r1 r2) by done. simpl key_of.
  rewrite (read_own d1 d2) by done. rewrite Hl.
  by rewrite (indexOf_own r1 r2), (indexOf_own d1 d2).
Qed.

Lemma well_formed_at (r1 r2 : ResultsByService) (S : string) (svc : object directoryResults) :
  well_formed (r1 ++ (S, svc) :: r2) ->
  NoDup (keys (r1 ++ (S, svc) :: r2)) /\ NoDup (keys svc) /\
  Forall (fun d => is_Some (items d.2)) svc.
Proof.
  intros [H1 H2]. apply Forall_app in H2 as [_ H2]. apply Forall_cons in H2 as [[H2 H3] _].
  by split_and!.
Qed.

Lemma no_empty_at (r1 r2 : ResultsByService) (S : string) (svc : object directoryResults) :
  no_empty (r1 ++ (S, svc) :: r2) ->
  S <> EmptyString /\ svc <> [] /\ Forall (fun d => items d.2 <> Some []) svc.
Proof.
  intros H. apply Forall_app in H as [_ H]. by apply Forall_cons in H as [H _].
Qed.

Lemma directory_at (d1 d2 : object directoryResults) (D : string) (d : directoryResults) :
  Forall (fun d => is_Some (items d.2)) (d1 ++ (D, d) :: d2) ->
  Forall (fun d => items d.2 <> Some []) (d1 ++ (D, d) :: d2) ->
  exists x l, items d = Some (x :: l).
Proof.
  intros H1 H2. apply Forall_app in H1 as [_ H1]. apply Forall_cons in H1 as [[l H1] _].
  apply Forall_app in H2 as [_ H2]. apply Forall_cons in H2 as [H2 _]. simpl in *.
  destruct l as [|x l]; [by rewrite H1 in H2 | by exists x, l].
Qed.

Lemma moveSelectionToTop_first (s : state) :
  let r := filterEmptyResults (resultsByService s) in
  well_formed r -> no_empty r -> r <> [] ->
  exists p, positions r !! 0%nat = Some p /\ moveSelectionToTop s = Value (place p s).
Proof.
  cbv zeta. intros Hw Hn H0.
  destruct (filterEmptyResults (resultsByService s)) as [|[S svc] r2] eqn:Er; [done|].
  destruct (well_formed_at [] r2 S svc Hw) as (_ & _ & Hi).
  destruct (no_empty_at [] r2 S svc Hn) as (HS & Hsvc & He).
  destruct svc as [|[D d] d2]; [done|].
  destruct (directory_at [] d2 D d Hi He) as (x & l & Hl).
  exists (S, D, 0). split.
  - apply (positions_lookup_at [] r2 S D [] d2 d (x :: l) 0 Hl). simpl. lia.
  - unfold moveSelectionToTop, _getOuterResults. rewrite Er.
    cbn [keys map fst call_on head key_of]. rewrite !read_head.
    by destruct (String.eqb_spec S EmptyString) as [|_].
Qed.

Lemma moveSelectionToBottom_last (s : state) :
  let r := filterEmptyResults (resultsByService s) in
  well_formed r -> no_empty r -> r <> [] ->
  exists p, positions r !! (length (positions r) - 1)%nat = Some p /\
            moveSelectionToBottom s = Value (place p s).
Proof.
  cbv zeta. intros Hw Hn H0.
  destruct (filterEmptyResults (resultsByService s)) as [|e r2 _] eqn:Er using rev_ind; [done|].
  clear H0. destruct e as [S svc]. rename r2 into r1.
  destruct (well_formed_at r1 [] S svc Hw) as (Hr & Hd & Hi).
  destruct (no_empty_at r1 [] S svc Hn) as (HS & Hsvc & He).
  destruct svc as [|e d1 _] using rev_ind; [done|]. destruct e as [D d].
  destruct (directory_at d1 [] D d Hi He) as (x & l & Hl).
  exists (S, D, Z.of_nat (length l)). split.
  - rewrite (positions_length r1 [] S D d1 [] d (x :: l) Hl). simpl length.
    replace (_ - 1)%nat
      with (length (positions r1) + length (service_positions S d1) + length l)%nat by lia.
    apply (positions_lookup_at r1 [] S D d1 [] d (x :: l) (length l) Hl). simpl. lia.
  - unfold moveSelectionToBottom, _getOuterResults. rewrite Er.
    rewrite keys_app. cbn [keys map fst call_on]. rewrite last_snoc.
    rewrite (read_own r1 []) by done.
    rewrite keys_app. cbn [keys map fst call_on]. rewrite last_snoc. cbn [key_of].
    rewrite (read_own d1 []) by done.
    destruct (String.eqb_spec S EmptyString) as [|_]; [done|].
    cbn [results serviceName directoryName]. rewrite Hl. unfold place. cbn [fst snd].
    do 2 f_equal. unfold len. simpl length. lia.
Qed.

Lemma snoc_cons {A : Type} (l1 l2 : list A) (x : A) : l1 ++ x :: l2 = (l1 ++ [x]) ++ l2.
Proof. by rewrite <- app_assoc. Qed.

Lemma len_snoc {A : Type} (l : list A) (x : A) : len (l ++ [x]) = len l + 1.
Proof. rewrite len_app, len_cons. unfold len. simpl. lia. Qed.

Lemma element_keys_next {V : Type} (o1 o2 : object V) (k k' : string) (v v' : V) :
  element (keys (o1 ++ (k, v) :: (k', v') :: o2)) (len o1 + 1) = Some k'.
Proof. rewrite (snoc_cons o1), <- (len_snoc o1 (k, v)). apply element_keys. Qed.

Lemma read_own_next {V : Type} (o1 o2 : object V) (k k' : string) (v v' : V) :
  NoDup (keys (o1 ++ (k, v) :: (k', v') :: o2)) ->
  read (o1 ++ (k, v) :: (k', v') :: o2) k' = Own v'.
Proof. rewrite (snoc_cons o1). apply read_own. Qed.

Ltac decide_lt :=
  match goal with
  | |- context [Z.ltb ?a ?b] =>
      destruct (Z.ltb_spec a b);
      try (exfalso; rewrite ?len_keys, ?len_app, ?len_cons in *; unfold len in *;
           simpl length in *; lia)
  | |- context [Z.gtb ?a ?b] =>
      rewrite (Z.gtb_ltb a b);
      destruct (Z.ltb_spec b a);
      try (exfalso; rewrite ?len_keys, ?len_app, ?len_cons in *; unfold len in *;
           simpl length in *; lia)
  end.

(** ** Beyond the claims: the movements of the selection *)

(** X18. Moving down goes to the next row.  When the filtered results
    are well formed and hold nothing empty, and the selection is at row
    [k] of the list (the items in the order of the services, of their
    directories and of their items), [moveSelectionDown] puts it at row
    [k + 1], and from the last row back at the first. *)
Theorem moveSelectionDown_next (s : state) (k : nat) (p : position) :
  let r := filterEmptyResults (resultsByService s) in
  well_formed r -> no_empty r ->
  positions r !! k = Some p ->
  at_position s p ->
  exists p', positions r !! ((k + 1) mod length (positions r))%nat = Some p' /\
             moveSelectionDown s = Value (place p' s).
Proof.
  cbv zeta. intros Hw Hn Hk Hat.
  pose proof (moveSelectionToTop_first s) as Htop. cbv zeta in Htop.
  destruct (positions_lookup_inv _ _ _ Hk)
    as (r1 & svc & r2 & d1 & d & d2 & l & j & Er & -> & Hl & Hj & Hi & ->).
  destruct p as [[S D] i]. cbn [fst snd] in *. subst i.
  rewrite Er in *.
  destruct (well_formed_at _ _ _ _ Hw) as (Hr & Hd & Hit).
  destruct (no_empty_at _ _ _ _ Hn) as (HS & _ & He).
  unfold moveSelectionDown.
  rewrite (context_at s r1 r2 S D d1 d2 d l (Z.of_nat j) Er Hr Hd Hl Hat).
  cbn [currentDirectory currentDirectoryIndex directoryNames currentServiceIndex
       serviceNames nonEmptyResults].
  unfold items_length. rewrite Hl.
  injection Hat as ES ED EI. rewrite ES, ED, EI.
  rewrite (positions_length r1 r2 S D d1 d2 d l Hl).
  decide_lt.
  - exists (S, D, Z.of_nat (j + 1)). split.
    + rewrite Nat.mod_small by (unfold len in *; lia).
      rewrite <- Nat.add_assoc. apply (positions_lookup_at _ _ _ _ _ _ _ l); [done|].
      unfold len in *; lia.
    + unfold place. cbn [fst snd]. by replace (Z.of_nat (j + 1)) with (Z.of_nat j + 1) by lia.
  - assert (length l = j + 1)%nat as Ej by (unfold len in *; lia).
    destruct d2 as [|[D' d'] d2'].
    + decide_lt. destruct r2 as [|[S' svc'] r2'].
      * decide_lt. destruct (Htop Hw Hn) as (p' & Hp' & ->); [by destruct r1|].
        exists p'. split; [|done]. simpl length. rewrite Ej.
        replace (_ + (j + 1) + 0 + 0)%nat with (length (positions r1)
          + length (service_positions S d1) + j + 1)%nat by lia.
        by rewrite Nat.Div0.mod_same.
      * decide_lt. rewrite element_keys_next. rewrite read_own_next by done.
        destruct (well_formed_at (r1 ++ [(S, d1 ++ [(D, d)])]) r2' S' svc')
          as (_ & _ & Hit'); [by rewrite <- snoc_cons|].
        destruct (no_empty_at (r1 ++ [(S, d1 ++ [(D, d)])]) r2' S' svc')
          as (_ & Hsvc' & He'); [by rewrite <- snoc_cons|].
        destruct svc' as [|[D' d'] d2']; [done|].
        destruct (directory_at [] d2' D' d' Hit' He') as (x & l' & Hl').
        exists (S', D', 0). split; [|done].
        rewrite Nat.mod_small.
        2:{ pose proof (positions_pos r2' S' D' d2' d' x l' Hl').
            change (length (service_positions S [])) with 0%nat. lia. }
        rewrite (snoc_cons r1).
        replace (_ + j + 1)%nat with (length (positions (r1 ++ [(S, d1 ++ [(D, d)])]))).
        { by apply (positions_lookup_service _ _ _ _ _ _ x l'). }
        rewrite (positions_length r1 [] S D d1 [] d l Hl). simpl length. lia.
    + decide_lt. rewrite element_keys_next.
      destruct (directory_at (d1 ++ [(D, d)]) d2' D' d') as (x & l' & Hl');
        [by rewrite <- snoc_cons | by rewrite <- snoc_cons |].
      exists (S, D', 0). split; [|done].
      rewrite Nat.mod_small.
      2:{ pose proof (service_positions_pos S D' d2' d' x l' Hl'). lia. }
      rewrite (snoc_cons d1).
      replace (_ + j + 1)%nat
        with (length (positions r1) + length (service_positions S (d1 ++ [(D, d)])))%nat.
      { by apply (positions_lookup_directory _ _ _ _ _ _ _ x l'). }
      rewrite (service_positions_length S D d1 [] d l Hl). simpl length. lia.
Qed.

Lemma element_keys_prev {V : Type} (o1 o2 : object V) (k k' : string) (v v' : V) :
  element (keys ((o1 ++ [(k', v')]) ++ (k, v) :: o2)) (len (o1 ++ [(k', v')]) - 1) = Some k'.
Proof.
  rewrite <- app_assoc, len_snoc. replace (len o1 + 1 - 1) with (len o1) by lia.
  apply element_keys.
Qed.

Lemma read_own_prev {V : Type} (o1 o2 : object V) (k k' : string) (v v' : V) :
  NoDup (keys ((o1 ++ [(k', v')]) ++ (k, v) :: o2)) ->
  read ((o1 ++ [(k', v')]) ++ (k, v) :: o2) k' = Own v'.
Proof. rewrite <- app_assoc. apply read_own. Qed.

Lemma positions_lookup_last (r1 r2 : ResultsByService) (S D : string)
    (d1 d2 : object directoryResults) (d : directoryResults) (x : json) (l : list json) :
  items d = Some (x :: l) ->
  positions (r1 ++ (S, d1 ++ (D, d) :: d2) :: r2)
    !! (length (positions r1) + length (service_positions S d1) + length l)%nat
  = Some (S, D, len (x :: l) - 1).
Proof.
  intros Hl. replace (len (x :: l) - 1) with (Z.of_nat (length l)).
  - apply (positions_lookup_at r1 r2 S D d1 d2 d (x :: l) (length l) Hl). simpl. lia.
  - unfold len. simpl length. lia.
Qed.

(** X19. Moving up goes to the previous row: under the same conditions
    [moveSelectionUp] puts a selection at row [k] at row [k - 1], and from
    the first row at the last; it is the inverse of [moveSelectionDown]. *)
Theorem moveSelectionUp_previous (s : state) (k : nat) (p : position) :
  let r := filterEmptyResults (resultsByService s) in
  well_formed r -> no_empty r ->
  positions r !! k = Some p ->
  at_position s p ->
  exists p',
    positions r !! ((k + length (positions r) - 1) mod length (positions r))%nat = Some p' /\
    moveSelectionUp s = Value (place p' s).
Proof.
  cbv zeta. intros Hw Hn Hk Hat.
  pose proof (moveSelectionToBottom_last s) as Hbottom. cbv zeta in Hbottom.
  destruct (positions_lookup_inv _ _ _ Hk)
    as (r1 & svc & r2 & d1 & d & d2 & l & j & Er & -> & Hl & Hj & Hi & ->).
  destruct p as [[S D] i]. cbn [fst snd] in *. subst i.
  rewrite Er in *.
  destruct (well_formed_at _ _ _ _ Hw) as (Hr & Hd & Hit).
  destruct (no_empty_at _ _ _ _ Hn) as (HS & _ & He).
  unfold moveSelectionUp.
  rewrite (context_at s r1 r2 S D d1 d2 d l (Z.of_nat j) Er Hr Hd Hl Hat).
  cbn [currentDirectory currentDirectoryIndex directoryNames currentServiceIndex
       serviceNames nonEmptyResults currentService].
  injection Hat as ES ED EI. rewrite ES, ED, EI.
  set (n := length (positions (r1 ++ (S, d1 ++ (D, d) :: d2) :: r2))).
  assert (k_lt : (length (positions r1) + length (service_positions S d1) + j < n)%nat).
  { subst n. rewrite (positions_length r1 r2 S D d1 d2 d l Hl). lia. }
  assert (previous : forall k', (0 < k')%nat -> (k' < n)%nat ->
            ((k' + n - 1) mod n = k' - 1)%nat).
  { intros k' H1 H2. replace (k' + n - 1)%nat with (k' - 1 + 1 * n)%nat by lia.
    rewrite Nat.Div0.mod_add. apply Nat.mod_small. lia. }
  decide_lt.
  - exists (S, D, Z.of_nat (j - 1)). split.
    + rewrite previous by lia.
      replace (_ + j - 1)%nat
        with (length (positions r1) + length (service_positions S d1) + (j - 1))%nat by lia.
      apply (positions_lookup_at _ _ _ _ _ _ _ l); [done | lia].
    + unfold place. cbn [fst snd]. by replace (Z.of_nat (j - 1)) with (Z.of_nat j - 1) by lia.
  - assert (j = 0)%nat as -> by lia. clear EI.
    destruct d1 as [|[D' d'] d1' _] using rev_ind.
    + decide_lt. destruct r1 as [|[S' svc'] r1' _] using rev_ind.
      * decide_lt. destruct (Hbottom Hw Hn) as (p' & Hp' & ->); [done|].
        exists p'. split; [|done]. simpl length.
        by replace ((0 + 0 + 0 + n - 1) mod n)%nat with (n - 1)%nat
          by (symmetry; apply Nat.mod_small; lia).
      * decide_lt. rewrite element_keys_prev.
        rewrite read_own_prev by done.
        destruct (well_formed_at r1' ((S, (D, d) :: d2) :: r2) S' svc')
          as (_ & Hd' & Hit'); [by rewrite <- app_assoc in Hw|].
        destruct (no_empty_at r1' ((S, (D, d) :: d2) :: r2) S' svc')
          as (_ & Hsvc' & He'); [by rewrite <- app_assoc in Hn|].
        destruct svc' as [|[D' d'] d1' _] using rev_ind; [done|].
        destruct (directory_at d1' [] D' d' Hit' He') as (x & l' & Hl').
        rewrite keys_app. cbn [keys map fst call_on]. rewrite last_snoc.
        unfold last_index. cbn [key_of]. rewrite (read_own d1' []) by done.
        unfold items_length. rewrite Hl'.
        exists (S', D', len (x :: l') - 1). split; [|done].
        rewrite previous; [| |done].
        2:{ rewrite (positions_length r1' [] S' D' d1' [] d' (x :: l') Hl'). simpl length. lia. }
        rewrite <- app_assoc.
        replace (_ - 1)%nat
          with (length (positions r1') + length (service_positions S' d1') + length l')%nat.
        { by apply (positions_lookup_last _ _ _ _ _ _ _ x l'). }
        rewrite (positions_length r1' [] S' D' d1' [] d' (x :: l') Hl'). simpl length. lia.
    + decide_lt. rewrite element_keys_prev.
      unfold last_index. cbn [key_of]. rewrite read_own_prev by done.
      destruct (directory_at d1' ((D, d) :: d2) D' d') as (x & l' & Hl');
        [by rewrite <- app_assoc in Hit | by rewrite <- app_assoc in He |].
      unfold items_length. rewrite Hl'.
      exists (S, D', len (x :: l') - 1). split; [|done].
      rewrite previous; [| |done].
      2:{ rewrite (service_positions_length S D' d1' [] d' (x :: l') Hl'). simpl length. lia. }
      rewrite <- app_assoc.
      replace (_ - 1)%nat
        with (length (positions r1) + length (service_positions S d1') + length l')%nat.
      { by apply (positions_lookup_last _ _ _ _ _ _ _ x l'). }
      rewrite (service_positions_length S D' d1' [] d' (x :: l') Hl'). simpl length. lia.
Qed.

Lemma head_positions (r : ResultsByService) (p : position) :
  positions r !! 0%nat = Some p -> head (positions r) = Some p.
Proof. by rewrite head_lookup. Qed.

Lemma last_positions (r : ResultsByService) (p : position) :
  positions r !! (length (positions r) - 1)%nat = Some p -> last (positions r) = Some p.
Proof. rewrite last_lookup. by rewrite Nat.sub_1_r. Qed.

Lemma context_of_nothing (s : state) :
  selects_nothing (filterEmptyResults (resultsByService s)) s ->
  _getCurrentResultContext s = Value None.
Proof.
  unfold selects_nothing, _getCurrentResultContext.
  destruct (read _ (selectedService s)) as [svc| |]; [|done|done].
  by intros ->.
Qed.

(** X20. With nothing selected (the selection names no directory of the
    filtered results, as it does at the start and after [clearSelection]),
    [moveSelectionDown] selects the first row and [moveSelectionUp] the
    last one; when there are no rows, both leave the selection as it is. *)
Theorem moves_from_no_selection (s : state) :
  let r := filterEmptyResults (resultsByService s) in
  well_formed r -> no_empty r ->
  selects_nothing r s ->
  moveSelectionDown s
    = Value (match head (positions r) with Some p => place p s | None => s end) /\
  moveSelectionUp s
    = Value (match last (positions r) with Some p => place p s | None => s end).
Proof.
  cbv zeta. intros Hw Hn H0.
  unfold moveSelectionDown, moveSelectionUp. rewrite (context_of_nothing s H0).
  destruct (decide (filterEmptyResults (resultsByService s) = [])) as [E|E].
  - unfold moveSelectionToTop, moveSelectionToBottom, _getOuterResults. by rewrite E.
  - destruct (moveSelectionToTop_first s Hw Hn E) as (p & Hp & ->).
    destruct (moveSelectionToBottom_last s Hw Hn E) as (q & Hq & ->).
    by rewrite (head_positions _ _ Hp), (last_positions _ _ Hq).
Qed.

Lemma cleared_selects_nothing (s : state) :
  no_empty (filterEmptyResults (resultsByService s)) ->
  selects_nothing (filterEmptyResults (resultsByService s)) (clearSelection s).
Proof.
  intros Hn. unfold selects_nothing, read. cbn [clearSelection setSelectedIndex selectedService].
  replace (own _ EmptyString) with (@None (object directoryResults)); [done|].
  symmetry. apply own_None. intros Hin.
  apply list_elem_of_fmap in Hin as ([S svc] & E & Hin). simpl in E. subst S.
  by destruct (proj1 (Forall_forall _ _) Hn _ Hin) as [? _].
Qed.

(** ** Reads that cannot fail *)

Lemma own_Some_elem {V : Type} (o : object V) (k : string) (v : V) :
  own o k = Some v -> (k, v) ∈ o.
Proof.
  induction o as [|[k' v'] o IH]; simpl; [done|].
  destruct (String.eqb_spec k' k) as [->|_].
  - intros [= ->]. apply list_elem_of_here.
  - intros H. apply list_elem_of_further. by apply IH.
Qed.

Lemma read_key {V : Type} (o : object V) (k : string) :
  k ∈ keys o -> exists v, read o k = Own v /\ (k, v) ∈ o.
Proof.
  intros Hin. unfold read. destruct (own o k) as [v|] eqn:E.
  - exists v. split; [done | by apply own_Some_elem].
  - by apply own_None in E.
Qed.

Lemma read_Own_elem {V : Type} (o : object V) (k : string) (v : V) :
  read o k = Own v -> (k, v) ∈ o.
Proof.
  unfold read. destruct (own o k) as [v'|] eqn:E.
  - intros [= <-]. by apply own_Some_elem.
  - by destruct (inherited k).
Qed.

Lemma call_on_elem (op : arrayOperation) (names : list string) (k : string) :
  call_on op names = Some k -> k ∈ names.
Proof.
  destruct op; simpl.
  - destruct names; [done|]. intros [= ->]. apply list_elem_of_here.
  - rewrite last_lookup. apply list_elem_of_lookup_2.
Qed.

Lemma call_on_nonempty (op : arrayOperation) (names : list string) :
  names <> [] -> exists k, call_on op names = Some k.
Proof.
  destruct op; simpl.
  - destruct names as [|k ?]; [done | by exists k].
  - destruct names as [|k names _] using rev_ind; [done|]. exists k. apply last_snoc.
Qed.

Lemma element_elem {A : Type} (l : list A) (i : Z) (x : A) :
  element l i = Some x -> x ∈ l.
Proof.
  unfold element. destruct (i <? 0); [done|]. intros H.
  apply list_elem_of_In. by apply nth_error_In in H.
Qed.

Lemma element_in_range {A : Type} (l : list A) (i : Z) :
  0 <= i < len l -> exists x, element l i = Some x.
Proof.
  unfold element, len. intros H. destruct (Z.ltb_spec i 0) as [|_]; [lia|].
  destruct (nth_error l (Z.to_nat i)) as [x|] eqn:E; [by exists x|].
  apply nth_error_None in E. lia.
Qed.

Lemma indexOf_from_range (names : list string) (k : string) (i : Z) :
  indexOf_from names k i = -1 \/ i <= indexOf_from names k i < i + len names.
Proof.
  revert i. induction names as [|name names IH]; simpl; intros i; [by left|].
  rewrite len_cons. pose proof (len_nonneg names).
  destruct (String.eqb name k); [right; lia|].
  destruct (IH (i + 1)) as [->|?]; [by left | right; lia].
Qed.

Lemma indexOf_range (names : list string) (k : option string) :
  indexOf names k < len names.
Proof.
  pose proof (len_nonneg names). destruct k as [k|]; simpl; [|lia].
  destruct (indexOf_from_range names k 0) as [->|?]; lia.
Qed.

Lemma keys_elem {V : Type} (o : object V) (k : string) (v : V) :
  (k, v) ∈ o -> k ∈ keys o.
Proof. intros H. apply list_elem_of_fmap. by exists (k, v). Qed.

(** What a context holds. *)
Lemma context_inv (s : state) (c : context) :
  _getCurrentResultContext s = Value (Some c) ->
  nonEmptyResults c = filterEmptyResults (resultsByService s) /\
  serviceNames c = keys (nonEmptyResults c) /\
  directoryNames c = keys (currentService c) /\
  (selectedService s, currentService c) ∈ nonEmptyResults c /\
  currentServiceIndex c = indexOf (serviceNames c) (Some (selectedService s)) /\
  currentDirectoryIndex c = indexOf (directoryNames c) (selectedDirectory s) /\
  is_Some (items (currentDirectory c)).
Proof.
  unfold _getCurrentResultContext.
  destruct (read _ (selectedService s)) as [svc| |] eqn:E1; [|done|done].
  destruct (read svc _) as [d| |] eqn:E2; [|done|done].
  destruct (items d) as [l|] eqn:E3; [|done].
  intros [= <-]. simpl. split_and!; try done. by apply read_Own_elem.
Qed.

Lemma context_no_raise (s : state) : _getCurrentResultContext s <> Raises.
Proof.
  unfold _getCurrentResultContext.
  destruct (read _ (selectedService s)) as [svc| |]; [|done|done].
  destruct (read svc _) as [d| |]; [|done|done].
  by destruct (items d).
Qed.

Section Shaped.
Variable r : ResultsByService.
Hypothesis Hw : well_formed r.
Hypothesis Hs : Forall (fun e => e.2 <> []) r.

Lemma shaped_service (S : string) (svc : object directoryResults) :
  (S, svc) ∈ r -> svc <> [] /\ Forall (fun d => is_Some (items d.2)) svc.
Proof using Hw Hs.
  intros Hin. destruct Hw as [_ H]. split.
  - apply (proj1 (Forall_forall _ _) Hs _ Hin).
  - apply (proj1 (Forall_forall _ _) H _ Hin).
Qed.

Lemma last_index_value (S : string) (svc : object directoryResults) (name : string) :
  (S, svc) ∈ r -> name ∈ keys svc -> exists i, last_index svc (Some name) = Value i.
Proof using Hw Hs.
  intros Hin Hname. destruct (shaped_service S svc Hin) as [_ Hi].
  destruct (read_key svc name Hname) as (d & E & Hd).
  destruct (proj1 (Forall_forall _ _) Hi _ Hd) as [l Hl]. simpl in Hl.
  exists (len l - 1). unfold last_index, items_length. simpl key_of. by rewrite E, Hl.
Qed.

Lemma last_index_of_last (S : string) (svc : object directoryResults) :
  (S, svc) ∈ r ->
  exists name i, call_on Pop (keys svc) = Some name /\ last_index svc (Some name) = Value i.
Proof using Hw Hs.
  intros Hin. destruct (shaped_service S svc Hin) as [Hne _].
  destruct (call_on_nonempty Pop (keys svc)) as [name E]; [by destruct svc|].
  destruct (last_index_value S svc name Hin) as [i Hi]; [by apply (call_on_elem Pop)|].
  by exists name, i.
Qed.

End Shaped.

Lemma outer_results (op : arrayOperation) (s : state) :
  let r := filterEmptyResults (resultsByService s) in
  well_formed r -> Forall (fun e => e.2 <> []) r ->
  _getOuterResults op s = Value None \/
  exists o l, _getOuterResults op s = Value (Some o) /\ results o = Some l.
Proof.
  cbv zeta. intros Hw Hs. unfold _getOuterResults.
  destruct (call_on op (keys _)) as [S|] eqn:E; [|by left].
  destruct (String.eqb S EmptyString); [by left|]. right.
  destruct (read_key _ S (call_on_elem _ _ _ E)) as (svc & -> & Hin).
  destruct (shaped_service _ Hw Hs S svc Hin) as [Hne Hi].
  destruct (call_on_nonempty op (keys svc)) as [D ED]; [by destruct svc|].
  rewrite ED. simpl key_of.
  destruct (read_key svc D (call_on_elem _ _ _ ED)) as (d & -> & Hd).
  destruct (proj1 (Forall_forall _ _) Hi _ Hd) as [l Hl]. simpl in Hl.
  by eexists _, l.
Qed.

Lemma context_modelled (s : state) :
  inherited (selectedService s) = false ->
  inherited (key_of (selectedDirectory s)) = false ->
  _getCurrentResultContext s <> Unmodelled.
Proof.
  intros H1 H2. unfold _getCurrentResultContext, read. rewrite H1, H2.
  destruct (own _ (selectedService s)) as [svc|]; [|done].
  destruct (own svc _) as [d|]; [|done].
  by destruct (items d).
Qed.

Lemma indexOf_lower (names : list string) (k : option string) : -1 <= indexOf names k.
Proof.
  destruct k as [k|]; simpl; [|lia].
  destruct (indexOf_from_range names k 0) as [->|?]; lia.
Qed.

(** X21. No movement fails when every service of the filtered results
    has a directory and every directory its array of items:
    [moveSelectionToTop] and [moveSelectionToBottom] end with a state
    whatever the selection is, and so do [moveSelectionDown] and
    [moveSelectionUp] for every selection whose names are not properties
    of [Object.prototype].  None raises a [TypeError]. *)
Theorem moves_do_not_raise (s : state) :
  let r := filterEmptyResults (resultsByService s) in
  well_formed r -> Forall (fun e => e.2 <> []) r ->
  returns (moveSelectionToTop s) /\ returns (moveSelectionToBottom s) /\
  (inherited (selectedService s) = false ->
   inherited (key_of (selectedDirectory s)) = false ->
   returns (moveSelectionDown s) /\ returns (moveSelectionUp s)).
Proof.
  cbv zeta. intros Hw Hs.
  assert (Htop : returns (moveSelectionToTop s)).
  { unfold moveSelectionToTop.
    destruct (outer_results Shift s Hw Hs) as [->|(o & l & -> & _)]; by eexists. }
  assert (Hbottom : returns (moveSelectionToBottom s)).
  { unfold moveSelectionToBottom.
    destruct (outer_results Pop s Hw Hs) as [->|(o & l & -> & ->)]; by eexists. }
  split_and!; [done|done|]. intros H1 H2.
  pose proof (context_no_raise s) as Hc. pose proof (context_modelled s H1 H2) as Hm.
  split.
  - unfold moveSelectionDown.
    destruct (_getCurrentResultContext s) as [[c|]| |] eqn:Ec; [|done|done|done].
    destruct (context_inv s c Ec) as (Er & En & Ed & Hin & Ei & Ej & [l Hl]).
    unfold items_length. rewrite Hl.
    destruct (_ <? _); [by eexists|]. destruct (_ <? _); [by eexists|].
    destruct (Z.ltb_spec (currentServiceIndex c) (len (serviceNames c) - 1)) as [Hlt|_];
      [|done].
    pose proof (indexOf_lower (serviceNames c) (Some (selectedService s))) as Hlow.
    rewrite <- Ei in Hlow.
    destruct (element_in_range (serviceNames c) (currentServiceIndex c + 1))
      as [S' ES]; [lia|].
    rewrite ES. apply element_elem in ES. rewrite En in ES.
    destruct (read_key _ S' ES) as (svc & -> & _). by eexists.
  - unfold moveSelectionUp.
    destruct (_getCurrentResultContext s) as [[c|]| |] eqn:Ec; [|done|done|done].
    destruct (context_inv s c Ec) as (Er & En & Ed & Hin & Ei & Ej & [l Hl]).
    rewrite Er in Hin.
    destruct (_ >? _); [by eexists|].
    destruct (Z.gtb_spec (currentDirectoryIndex c) 0) as [Hgt|_].
    + pose proof (indexOf_range (directoryNames c) (selectedDirectory s)) as Hlt.
      rewrite <- Ej in Hlt.
      destruct (element_in_range (directoryNames c) (currentDirectoryIndex c - 1))
        as [D' ED]; [lia|].
      rewrite ED. apply element_elem in ED. rewrite Ed in ED.
      destruct (last_index_value _ Hw Hs _ _ D' Hin ED) as [i ->]. by eexists.
    + destruct (Z.gtb_spec (currentServiceIndex c) 0) as [Hgt|_]; [|done].
      pose proof (indexOf_range (serviceNames c) (Some (selectedService s))) as Hlt.
      rewrite <- Ei in Hlt.
      destruct (element_in_range (serviceNames c) (currentServiceIndex c - 1))
        as [S' ES]; [lia|].
      rewrite ES. apply element_elem in ES. rewrite En in ES.
      destruct (read_key _ S' ES) as (svc & -> & Hsvc). rewrite Er in Hsvc.
      destruct (last_index_of_last _ Hw Hs S' svc Hsvc) as (D' & i & -> & ->). by eexists.
Qed.

(** ** Beyond the claims: confirming a row *)

Lemma element_nat {A : Type} (l : list A) (j : nat) :
  (j < length l)%nat -> exists x, element l (Z.of_nat j) = Some x.
Proof. intros H. apply element_in_range. unfold len. lia. Qed.

(** X22. Confirming a row gives that row's item.  When the filtered
    results hold directories of the results themselves and the selection
    is at a row of the list, [select] emits [selected] with the item of
    that row (or [canceled], should the item be a falsy value); with the
    selection cleared it emits [canceled]. *)
Theorem select_emits_the_row (s : state) (k : nat) (p : position) :
  let r := filterEmptyResults (resultsByService s) in
  well_formed r -> kept r (resultsByService s) ->
  positions r !! k = Some p ->
  at_position s p ->
  (exists item, item_at r p = Some item /\
     select s = Value (if truthy (Some item) then Selected item else cancel)) /\
  select (clearSelection s) = Value cancel.
Proof.
  cbv zeta. intros Hw Hk Hp Hat. split; [|done].
  destruct (positions_lookup_inv _ _ _ Hp)
    as (r1 & svc & r2 & d1 & d & d2 & l & j & Er & -> & Hl & Hj & Hi & _).
  destruct p as [[S D] i]. cbn [fst snd] in *. subst i.
  rewrite Er in *.
  destruct (well_formed_at _ _ _ _ Hw) as (Hr & Hd & _).
  apply NoDup_keys_mid in Hr as [Hr _]. apply NoDup_keys_mid in Hd as [Hd _].
  pose proof (own_app_fresh r1 r2 S (d1 ++ (D, d) :: d2) Hr) as E1.
  pose proof (own_app_fresh d1 d2 D d Hd) as E2.
  destruct (element_nat l j Hj) as [item Hitem].
  exists item. split.
  - unfold item_at. cbn [fst snd]. by rewrite E1, E2, Hl.
  - destruct (Hk _ _ _ _ E1 E2) as (svc' & E1' & E2').
    injection Hat as ES ED EI.
    unfold select, getSelectedItem, getItemAtIndex. rewrite ES, ED, EI.
    destruct (Z.eqb_spec (Z.of_nat j) (-1)) as [|_]; [lia|].
    unfold read. rewrite E1'. cbn [key_of]. rewrite E2', Hl, Hitem.
    by destruct (truthy (Some item)).
Qed.

(** ** Beyond the claims: results coming in *)

Lemma own_overwrite {V : Type} (o : object V) (k k' : string) (v : V) :
  own (overwrite o k v) k'
  = if String.eqb k k' then match own o k with Some _ => Some v | None => None end
    else own o k'.
Proof.
  induction o as [|[k0 v0] o IH]; simpl.
  - by destruct (String.eqb k k').
  - destruct (String.eqb_spec k0 k) as [->|N]; simpl.
    + by destruct (String.eqb_spec k k').
    + destruct (String.eqb_spec k0 k') as [->|N'].
      * by destruct (String.eqb_spec k k') as [->|_].
      * apply IH.
Qed.

Lemma own_snoc {V : Type} (o : object V) (k k' : string) (v : V) :
  own (o ++ [(k, v)]) k'
  = match own o k' with Some v' => Some v' | None => if String.eqb k k' then Some v else None end.
Proof.
  induction o as [|[k0 v0] o IH]; simpl; [done|].
  by destruct (String.eqb k0 k').
Qed.

Lemma keys_overwrite {V : Type} (o : object V) (k : string) (v : V) :
  keys (overwrite o k v) = keys o.
Proof.
  induction o as [|[k0 v0] o IH]; simpl; [done|].
  destruct (String.eqb k0 k); simpl; by rewrite ?IH.
Qed.

Lemma set_property_own {V : Type} (o o' : object V) (k : string) (v : V) :
  set_property o k v = Value o' ->
  own o' k = Some v /\ (forall k', k' <> k -> own o' k' = own o k') /\
  keys o' = (if decide (k ∈ keys o) then keys o else keys o ++ [k]).
Proof.
  unfold set_property. destruct (own o k) as [v0|] eqn:E.
  - intros [= <-]. split_and!.
    + by rewrite own_overwrite, String.eqb_refl, E.
    + intros k' N. rewrite own_overwrite. by destruct (String.eqb_spec k k') as [->|_].
    + rewrite keys_overwrite. destruct (decide _) as [|N]; [done|].
      destruct N. apply (keys_elem o k v0). by apply own_Some_elem.
  - destruct (_ || _); [done|]. intros [= <-]. split_and!.
    + by rewrite own_snoc, E, String.eqb_refl.
    + intros k' N. rewrite own_snoc. destruct (own o k'); [done|].
      by destruct (String.eqb_spec k k') as [->|_].
    + rewrite keys_app. destruct (decide _) as [Hin|_]; [|done].
      by apply own_None in E.
Qed.

Lemma read_eq {V : Type} (o o' : object V) (k : string) :
  own o' k = own o k -> read o' k = read o k.
Proof. unfold read. by intros ->. Qed.

(** X23. Results coming in.  When [_setResult] stores the results of a
    directory of a service, [getItemAtIndex] for that service and
    directory answers from the new results alone; for every other service,
    and for the other directories of a service that was there, it answers
    as before.  The selection is left where it was, and the services keep
    their order, a new one coming last. *)
Theorem setResult_then_getItemAtIndex (service directory : string) (found : directoryResults)
    (s s' : state) :
  _setResult service directory found s = Value s' ->
  (forall i, getItemAtIndex service (Some directory) i s'
     = if i =? -1 then Value None
       else match items found with
            | None => Raises
            | Some l => if truthy (element l i) then Value (element l i) else Value None
            end) /\
  (forall S D i, S <> service -> getItemAtIndex S D i s' = getItemAtIndex S D i s) /\
  (service ∈ keys (resultsByService s) ->
   forall D i, key_of D <> directory ->
     getItemAtIndex service D i s' = getItemAtIndex service D i s) /\
  getSelectedIndex s' = getSelectedIndex s /\
  keys (resultsByService s')
    = (if decide (service ∈ keys (resultsByService s)) then keys (resultsByService s)
       else keys (resultsByService s) ++ [service]).
Proof.
  unfold _setResult.
  destruct (read (resultsByService s) service) as [svc| |] eqn:Er; [|done|].
  - destruct (set_property svc directory found) as [svc'| |] eqn:E1; [|done|done].
    destruct (set_property (resultsByService s) service svc') as [r'| |] eqn:E2; [|done|done].
    intros [= <-].
    destruct (set_property_own _ _ _ _ E1) as (D1 & D2 & _).
    destruct (set_property_own _ _ _ _ E2) as (S1 & S2 & S3).
    split_and!; [| | |done|done].
    + intros i. unfold getItemAtIndex, read. cbn [resultsByService key_of].
      by rewrite S1, D1.
    + intros S D i N. unfold getItemAtIndex. cbn [resultsByService].
      by rewrite (read_eq _ _ _ (S2 S N)).
    + intros _ D i N. unfold getItemAtIndex. cbn [resultsByService].
      rewrite Er. unfold read at 1. rewrite S1.
      by rewrite (read_eq _ _ _ (D2 _ N)).
  - destruct (set_property [] directory found) as [svc'| |] eqn:E1; [|done|done].
    destruct (set_property (resultsByService s) service svc') as [r'| |] eqn:E2; [|done|done].
    intros [= <-].
    destruct (set_property_own _ _ _ _ E1) as (D1 & D2 & _).
    destruct (set_property_own _ _ _ _ E2) as (S1 & S2 & S3).
    split_and!; [| | |done|done].
    + intros i. unfold getItemAtIndex, read. cbn [resultsByService key_of].
      by rewrite S1, D1.
    + intros S D i N. unfold getItemAtIndex. cbn [resultsByService].
      by rewrite (read_eq _ _ _ (S2 S N)).
    + intros Hin. destruct (read_key _ _ Hin) as (v & E & _). by rewrite E in Er.
Qed.

End SelectionProperties.

(** ** Examples *)

(** C1, an example: after the worker of [/proj] has crashed, and after a
    later [dispose], [_execFlow] for a file of [/proj] returns [null] in an
    unchanged state. *)
Lemma failed_root_short_circuits_witness :
  _execFlow (env := Sample.world Sample.never_up) [AStr "status"] {| stdin := None |}
    Sample.a_js
    (run_all (env := Sample.world Sample.never_up) [CallDispose] Sample.crashed)
  = (Returns None,
     run_all (env := Sample.world Sample.never_up) [CallDispose] Sample.crashed).
Proof.
  refine (proj1 (proj2 (failed_root_short_circuits (env := Sample.world Sample.never_up)
    [CallDispose] Sample.crashed [AStr "status"] {| stdin := None |} Sample.a_js
    {| cwd := Sample.root |} _ _))).
  - reflexivity.
  - vm_compute. reflexivity.
Defined.

(** C2, an example: with no server ever coming up, one call runs the
    binary 6 times. *)
Lemma sustained_absence_witness :
  count is_exec
    (new_events constructor
       (snd (_execFlow (env := Sample.world Sample.never_up) [AStr "status"]
               {| stdin := None |} Sample.a_js constructor))) = 6%nat.
Proof.
  refine (proj1 (sustained_absence_runs_six_times (env := Sample.world Sample.never_up)
    [AStr "status"] {| stdin := None |} Sample.a_js {| cwd := Sample.root |}
    constructor _ _ _)).
  - reflexivity.
  - vm_compute. discriminate.
  - intros t. exists Sample.absent, "There is no flow server running in '/proj'.".
    vm_compute. repeat split; reflexivity.
Defined.

(** C3, an example: the crash of worker 0 adds [/proj] to the failed
    roots. *)
Lemma exit_marks_owner_witness :
  _failedRoots (worker_exit 0%nat (Some 2) None Sample.one_worker)
  = {[ Sample.root ]} ∪ _failedRoots Sample.one_worker.
Proof.
  refine (proj1 (exit_marks_owner_iff (env := Sample.world (Sample.up_after_spawn 0 "number"))
    Sample.one_worker 0%nat Sample.root (Some 2) None _ _) (conj eq_refl eq_refl)).
  - exists [Sample.ask_type]. reflexivity.
  - vm_compute. apply list_elem_of_here.
Defined.

(** C4, the failing input: when the binary prints the JSON text [null],
    [findDiagnostics] raises a [TypeError] (line 199 reads a property of
    [null] outside any [try]); and when it prints an object without
    [errors], the handler returns [undefined]. *)
Theorem findDiagnostics_null_output_raises :
  fst (findDiagnostics (env := Sample.world (Sample.prints "null")) Sample.a_js None
         constructor) = Throws TypeError /\
  fst (findDiagnostics (env := Sample.world (Sample.prints "{}")) Sample.a_js None
         constructor) = Returns None.
Proof. split; vm_compute; reflexivity. Qed.

(** C5, an example: [status] exits with 2 and prints an object with one
    error; [findDiagnostics] returns the list of that one error. *)
Lemma findDiagnostics_reuses_failure_witness :
  fst (findDiagnostics (env := Sample.world (Sample.fails Sample.type_errors))
         Sample.a_js None constructor)
  = Returns (Some (JArr [JObj [("message", JArr [])]])).
Proof.
  refine (f_equal fst
    (proj1 (findDiagnostics_reuses_failure (env := Sample.world (Sample.fails Sample.type_errors))
       Sample.a_js None constructor
       (snd (_execFlow (env := Sample.world (Sample.fails Sample.type_errors))
               (diagnostics_args Sample.a_js None) (diagnostics_options None)
               Sample.a_js constructor))
       (ExecFailure Sample.type_errors) _)
     Sample.errors_output
     [("passed", JBool false); ("errors", JArr [JObj [("message", JArr [])]])]
     (JArr [JObj [("message", JArr [])]]) _ _ _ _)).
  - reflexivity.
  - vm_compute. discriminate.
  - reflexivity.
  - vm_compute. reflexivity.
  - reflexivity.
Defined.

(** C6, an example: the worker reports line 3, start 5; the handler
    returns line 2, column 4. *)
Lemma findDefinition_decodes_witness :
  fst (findDefinition (env := Sample.world (Sample.prints Sample.def_output))
         Sample.a_js "var x = y;" 1 8 constructor)
  = Returns (Some {| file := JStr "/proj/lib.js"; line := Exact 2; column := Exact 4 |}).
Proof.
  refine (f_equal fst
    (proj1 (findDefinition_decodes (env := Sample.world (Sample.prints Sample.def_output))
       Sample.a_js "var x = y;" 1 8 constructor
       (snd (_execFlow (env := Sample.world (Sample.prints Sample.def_output))
               (get_def_args Sample.a_js 1 8) {| stdin := Some "var x = y;" |}
               Sample.a_js constructor))
       {| exitCode := 0; stdout := Sample.def_output; stderr := EmptyString |}
       (JObj [("path", JStr "/proj/lib.js"); ("line", JInt 3); ("endline", JInt 3);
              ("start", JInt 5); ("end", JInt 9)]) _ _ _)
     (JStr "/proj/lib.js") 3 5 _ _ _ _ _ _)).
  - reflexivity.
  - reflexivity.
  - vm_compute. reflexivity.
  - reflexivity.
  - reflexivity.
  - reflexivity.
  - reflexivity.
  - unfold safe_bound. lia.
  - unfold safe_bound. lia.
Defined.

(** C7, an example: the output "Foo" gives the type "Foo". *)
Lemma getType_decodes_witness :
  fst (getType (env := Sample.world (Sample.prints (String.append "Foo" (String nl EmptyString))))
         Sample.a_js "var x = 1;" 0 4 constructor)
  = Returns (Some "Foo").
Proof.
  refine (f_equal fst
    (getType_decodes
       (env := Sample.world (Sample.prints (String.append "Foo" (String nl EmptyString))))
       Sample.a_js "var x = 1;" 0 4 constructor
       (snd (_execFlow
               (env := Sample.world (Sample.prints (String.append "Foo" (String nl EmptyString))))
               (type_at_pos_args 1 5) {| stdin := Some "var x = 1;" |}
               Sample.a_js constructor))
       {| exitCode := 0; stdout := String.append "Foo" (String nl EmptyString);
          stderr := EmptyString |} _)).
  reflexivity.
Defined.

(** C7, the counterexample: the second line of the output is "bar", which
    does not begin with "Failure", and the first line is "Foo"; the handler
    returns [null], not "Foo", because the third line begins with
    "Failure". *)
Lemma getType_failure_on_third_line :
  split_lines Sample.late_failure = ["Foo"; "bar"; "Failure: x"] /\
  fst (getType (env := Sample.world (Sample.prints Sample.late_failure))
         Sample.a_js "var x = 1;" 0 4 constructor) = Returns None.
Proof. split; vm_compute; reflexivity. Qed.

(** C8, an example: disposing the service with one worker sends that
    worker one [SIGKILL]. *)
Lemma dispose_kills_each_once_witness :
  new_events Sample.one_worker (dispose Sample.one_worker) = [Kill 0%nat "SIGKILL"].
Proof.
  refine (proj1 (dispose_kills_each_once
    (env := Sample.world (Sample.up_after_spawn 0 "number")) Sample.one_worker _)).
  exists [Sample.ask_type]. reflexivity.
Defined.

(** C8, the counterexample: the service tracks worker 0 before [dispose]
    and still tracks it afterwards; the set is not cleared. *)
Lemma dispose_leaves_set :
  _startedServers Sample.one_worker = [0%nat] /\
  _startedServers (dispose Sample.one_worker) = [0%nat].
Proof. split; vm_compute; reflexivity. Qed.

(** C9, the counterexample: worker 0 exits on its own, with code 0, and
    its handle is still in the set of tracked workers. *)
Lemma exited_worker_still_tracked :
  _startedServers (worker_exit 0%nat (Some 0) None Sample.one_worker) = [0%nat] /\
  _startedServers
    (run_all (env := Sample.world (Sample.up_after_spawn 0 "number"))
       [Sample.ask_type; WorkerExit 0%nat (Some 0) None] constructor) = [0%nat].
Proof. split; vm_compute; reflexivity. Qed.

(** ** Further examples *)

Example exit_observer_examples :
  elements (_failedRoots (exit_observer "/proj" (Some 2) None constructor)) = ["/proj"] /\
  exit_observer "/proj" None (Some "SIGTERM") constructor = constructor /\
  exit_observer "/proj" (Some 2) (Some "SIGTERM") constructor = constructor /\
  exit_observer "/proj" (Some 1) None constructor = constructor /\
  exit_observer "/proj" (Some 0) None constructor = constructor.
Proof. repeat split; vm_compute; reflexivity. Qed.

(** The three outputs of [type-at-pos] the specification lists. *)
Example getType_examples :
  fst (getType (env := Sample.world (Sample.prints
         (String.append "string" (String nl (String.append "Failure: x" (String nl EmptyString))))))
         Sample.a_js "x" 0 0 constructor) = Returns None /\
  fst (getType (env := Sample.world (Sample.prints
         (String.append "(unknown)" (String nl EmptyString))))
         Sample.a_js "x" 0 0 constructor) = Returns None /\
  fst (getType (env := Sample.world (Sample.prints
         (String.append "Foo" (String nl EmptyString))))
         Sample.a_js "x" 0 0 constructor) = Returns (Some "Foo") /\
  fst (getType (env := Sample.world (Sample.prints EmptyString))
         Sample.a_js "x" 0 0 constructor) = Returns None.
Proof. repeat split; vm_compute; reflexivity. Qed.

(** A prefix of blanks is replaced by the empty prefix; another is kept. *)
Example autocomplete_examples :
  fst (getAutocompleteSuggestions
         (env := Sample.world (Sample.prints
            (String.append "[{" (String.append (Sample.quoted "name")
              (String.append ":" (String.append (Sample.quoted "foo")
                (String.append "," (String.append (Sample.quoted "type")
                  (String.append ":" (String.append (Sample.quoted "number") "}]"))))))))))
         Sample.a_js "x." 0 2 "   " constructor)
  = Returns [{| text := Some (JStr "foo"); rightLabel := Some (JStr "number");
                replacementPrefix := EmptyString |}] /\
  fst (getAutocompleteSuggestions (env := Sample.world (Sample.prints "[{}]"))
         Sample.a_js "x.ab" 0 4 "ab" constructor)
  = Returns [{| text := None; rightLabel := None; replacementPrefix := "ab" |}] /\
  fst (getAutocompleteSuggestions (env := Sample.world (Sample.prints "{}"))
         Sample.a_js "x.ab" 0 4 "ab" constructor)
  = Returns [].
Proof. repeat split; vm_compute; reflexivity. Qed.

(** A file outside every root: each handler answers its "no result" and
    nothing is run. *)
Example no_root_examples :
  _execFlow (env := Sample.world Sample.never_up) [AStr "status"] {| stdin := None |}
    "/tmp/b.js" constructor = (Returns None, constructor) /\
  findDiagnostics (env := Sample.world Sample.never_up) "/tmp/b.js" None constructor
    = (Returns empty_array, constructor).
Proof. split; reflexivity. Qed.

(** A failure that is not the absence of a server is rethrown after one
    run, and nothing is spawned. *)
Example other_failure_example :
  let r := _execFlow (env := Sample.world (Sample.fails Sample.type_errors))
             [AStr "status"] {| stdin := None |} Sample.a_js constructor in
  fst r = Throws (ExecFailure Sample.type_errors) /\
  count is_exec (trace (snd r)) = 1%nat /\ count is_spawn (trace (snd r)) = 0%nat.
Proof. repeat split; vm_compute; reflexivity. Qed.

(** ** Examples of the properties beyond the claims *)

(** X1, an example: the service with one worker tracks exactly process 0,
    the one its trace shows spawned. *)
Lemma registry_is_exact_witness :
  _startedServers Sample.one_worker = (spawned (trace Sample.one_worker)).*1.
Proof.
  refine (proj1 (registry_is_exact (env := Sample.world (Sample.up_after_spawn 0 "number"))
    Sample.one_worker _)).
  exists [Sample.ask_type]. reflexivity.
Defined.

(** X3, an example: a file under [/tmp] belongs to no root. *)
Lemma no_root_no_effect_witness :
  findDefinition (env := Sample.world Sample.never_up) "/tmp/b.js" "var x;" 0 4 Sample.crashed
  = (Returns None, Sample.crashed).
Proof.
  refine (proj1 (proj2 (no_root_no_effect (env := Sample.world Sample.never_up)
    "/tmp/b.js" Sample.crashed _)) "var x;" 0 4).
  reflexivity.
Defined.

(** X5, an example: with no server ever coming up, what is thrown is the
    rejection of the last run. *)
Lemma execFlow_result_is_last_run_witness :
  exists t,
    trace (snd (_execFlow (env := Sample.world Sample.never_up) [AStr "status"]
                  {| stdin := None |} Sample.a_js constructor))
      = t ++ [Exec Sample.getPathToFlow [AStr "status"; AStr "--no-auto-start"]
                {| lo_stdin := None; lo_cwd := Sample.root |}] /\
    Sample.never_up t Sample.getPathToFlow [AStr "status"; AStr "--no-auto-start"]
      {| lo_stdin := None; lo_cwd := Sample.root |} = ExecErr Sample.absent.
Proof.
  refine (execFlow_result_is_last_run (env := Sample.world Sample.never_up)
    [AStr "status"] {| stdin := None |} Sample.a_js {| cwd := Sample.root |} constructor _ _).
  - reflexivity.
  - vm_compute. discriminate.
Defined.

(** X6, an example: a type error (exit code 2, nothing about a server on
    [stderr]) is rethrown after one run. *)
Lemma other_failure_is_not_retried_witness :
  _execFlow (env := Sample.world (Sample.fails Sample.type_errors)) [AStr "status"]
    {| stdin := None |} Sample.a_js constructor
  = (Throws (ExecFailure Sample.type_errors),
     emit (Exec Sample.getPathToFlow [AStr "status"; AStr "--no-auto-start"]
             {| lo_stdin := None; lo_cwd := Sample.root |}) constructor).
Proof.
  refine (other_failure_is_not_retried (env := Sample.world (Sample.fails Sample.type_errors))
    [AStr "status"] {| stdin := None |} Sample.a_js {| cwd := Sample.root |} constructor
    Sample.type_errors _ _ _ _).
  - reflexivity.
  - vm_compute. discriminate.
  - reflexivity.
  - intros text [= <-]. reflexivity.
Defined.

(** X7, an example: the server comes up after the first spawn. *)
Lemma recovers_after_spawn_witness :
  fst (_execFlow (env := Sample.world (Sample.up_after_spawn 0 "number")) [AStr "status"]
         {| stdin := None |} Sample.a_js constructor)
  = Returns (Some {| exitCode := 0; stdout := "number"; stderr := EmptyString |}).
Proof.
  refine (f_equal fst
    (proj1 (recovers_after_spawn (env := Sample.world (Sample.up_after_spawn 0 "number"))
       [AStr "status"] {| stdin := None |} Sample.a_js {| cwd := Sample.root |} constructor
       Sample.absent "There is no flow server running in '/proj'."
       {| exitCode := 0; stdout := "number"; stderr := EmptyString |} _ _ _ _ _ _))).
  - reflexivity.
  - vm_compute. discriminate.
  - reflexivity.
  - reflexivity.
  - reflexivity.
  - reflexivity.
Defined.

(** X8, an example: a second doomed request of the service with one
    worker leaves it with six. *)
Lemma sustained_absence_leaks_five_witness :
  _startedServers
    (snd (_execFlow (env := Sample.world Sample.never_up) [AStr "status"]
            {| stdin := None |} Sample.a_js
            (run_all (env := Sample.world Sample.never_up) [ResumeRespawn "flow" "/proj"]
               constructor)))
  = [0; 1; 2; 3; 4; 5]%nat.
Proof.
  refine (proj1 (sustained_absence_leaks_five (env := Sample.world Sample.never_up)
    [AStr "status"] {| stdin := None |} Sample.a_js {| cwd := Sample.root |}
    (run_all (env := Sample.world Sample.never_up) [ResumeRespawn "flow" "/proj"] constructor)
    _ _ _ _)).
  - exists [ResumeRespawn "flow" "/proj"]. reflexivity.
  - reflexivity.
  - apply (not_elem_of_empty (C := gset string)).
  - intros t. exists Sample.absent, "There is no flow server running in '/proj'.".
    vm_compute. repeat split; reflexivity.
Defined.

(** X9, an example: the worker of [/proj] crashes, and a file of [/lib]
    is still served. *)
Lemma crash_leaves_other_roots_served_witness :
  ("/lib" ∉ _failedRoots (worker_exit 0%nat (Some 2) None Sample.one_worker2)) /\
  (1%nat <= count is_exec
          (new_events (worker_exit 0%nat (Some 2%Z) None Sample.one_worker2)
             (snd (_execFlow (env := Sample.world2 (Sample.up_after_spawn 0 "number"))
                     [AStr "status"] {| stdin := None |} "/lib/c.js"
                     (worker_exit 0%nat (Some 2%Z) None Sample.one_worker2)))))%nat.
Proof.
  refine (crash_leaves_other_roots_served
    (env := Sample.world2 (Sample.up_after_spawn 0 "number"))
    Sample.one_worker2 0%nat "/proj" (Some 2) None [AStr "status"] {| stdin := None |}
    "/lib/c.js" {| cwd := "/lib" |} _ _ _ _ _).
  - exists [Sample.ask_type]. reflexivity.
  - vm_compute. apply list_elem_of_here.
  - reflexivity.
  - discriminate.
  - refine (bool_decide_unpack _ _). vm_compute. exact I.
Defined.

(** X10, an example: the rejection carries exit code 2 and a list of one
    error on its output, but no [stderr]; the handler returns the empty
    list. *)
Lemma missing_stderr_masks_failure_witness :
  fst (findDiagnostics (env := Sample.world (Sample.fails Sample.silent)) Sample.a_js None
         constructor)
  = Returns empty_array.
Proof.
  refine (f_equal fst
    (missing_stderr_masks_failure (env := Sample.world (Sample.fails Sample.silent))
       Sample.a_js None {| cwd := Sample.root |} constructor Sample.silent _ _ _ _)).
  - reflexivity.
  - vm_compute. discriminate.
  - reflexivity.
  - reflexivity.
Defined.

(** X13, an example: two completions, the second without a type, and a
    prefix of blanks. *)
Lemma autocomplete_decodes_witness :
  fst (getAutocompleteSuggestions (env := Sample.world (Sample.prints Sample.completions))
         Sample.a_js "x." 0 2 "  " constructor)
  = Returns [{| text := Some (JStr "foo"); rightLabel := Some (JStr "number");
                replacementPrefix := EmptyString |};
             {| text := Some (JStr "bar"); rightLabel := None;
                replacementPrefix := EmptyString |}].
Proof.
  refine (f_equal fst
    (autocomplete_decodes (env := Sample.world (Sample.prints Sample.completions))
       Sample.a_js "x." 0 2 "  " constructor
       (snd (_execFlow (env := Sample.world (Sample.prints Sample.completions))
               [AStr "autocomplete"; AStr "--json"; AStr Sample.a_js]
               {| stdin := Some (Sample.insertAutocompleteToken "x." 0 2) |}
               Sample.a_js constructor))
       {| exitCode := 0; stdout := Sample.completions; stderr := EmptyString |}
       (JArr [JObj [("name", JStr "foo"); ("type", JStr "number")];
              JObj [("name", JStr "bar")]]) _ _ _)).
  - reflexivity.
  - reflexivity.
  - vm_compute. reflexivity.
Defined.

(** X17, an example: the type "Foo". *)
Lemma getType_result_wellformed_witness :
  "Foo" <> EmptyString /\ "Foo" <> "(unknown)" /\ no_newline "Foo" = true /\
  exists result,
    fst (_execFlow
           (env := Sample.world (Sample.prints (String.append "Foo" (String nl EmptyString))))
           (type_at_pos_args (0 + 1) (4 + 1)) {| stdin := Some "var x = 1;" |}
           Sample.a_js constructor) = Returns (Some result) /\
    "Foo" = first_line (stdout result) /\
    String.prefix "Foo" (stdout result) = true /\
    includes failure_marker (stdout result) = false.
Proof.
  refine (getType_result_wellformed
    (env := Sample.world (Sample.prints (String.append "Foo" (String nl EmptyString))))
    Sample.a_js "var x = 1;" 0 4 constructor "Foo" _).
  reflexivity.
Defined.

(** ** Examples of the movements of the selection *)

Section SelectionExamples.
Import QuickSelection.

Ltac shape :=
  vm_compute;
  repeat first
    [ split | apply Forall_cons | apply Forall_nil
    | apply (bool_decide_unpack _); vm_compute; exact I
    | by eexists | discriminate ].

(** X18, an example: from the last item of [/a] the selection moves to
    the first item of [/c], past the directory [/b] that the filter has
    dropped. *)
Lemma moveSelectionDown_next_witness :
  moveSelectionDown (helpers := Example.helpers)
    (place ("FileListProvider", "/a", 1) (Example.showing Example.two_services))
  = Value (place ("FileListProvider", "/c", 0) (Example.showing Example.two_services)).
Proof.
  destruct (moveSelectionDown_next (helpers := Example.helpers)
              (place ("FileListProvider", "/a", 1) (Example.showing Example.two_services))
              1 ("FileListProvider", "/a", 1)) as (p & Hp & ->).
  - shape.
  - shape.
  - reflexivity.
  - reflexivity.
  - vm_compute in Hp. by injection Hp as <-.
Defined.

(** X19, an example: from the only item of the second service the
    selection moves to the last item of the first. *)
Lemma moveSelectionUp_previous_witness :
  moveSelectionUp (helpers := Example.helpers)
    (place ("OpenFileListProvider", "/a", 0) (Example.showing Example.two_services))
  = Value (place ("FileListProvider", "/c", 0) (Example.showing Example.two_services)).
Proof.
  destruct (moveSelectionUp_previous (helpers := Example.helpers)
              (place ("OpenFileListProvider", "/a", 0) (Example.showing Example.two_services))
              3 ("OpenFileListProvider", "/a", 0)) as (p & Hp & ->).
  - shape.
  - shape.
  - reflexivity.
  - reflexivity.
  - vm_compute in Hp. by injection Hp as <-.
Defined.

(** X20, an example: with the selection cleared, down selects the first
    row and up the last. *)
Lemma moves_from_no_selection_witness :
  moveSelectionDown (helpers := Example.helpers)
    (clearSelection (Example.showing Example.two_services))
  = Value (place ("FileListProvider", "/a", 0) (Example.showing Example.two_services)) /\
  moveSelectionUp (helpers := Example.helpers)
    (clearSelection (Example.showing Example.two_services))
  = Value (place ("OpenFileListProvider", "/a", 0) (Example.showing Example.two_services)).
Proof.
  refine (moves_from_no_selection (helpers := Example.helpers)
            (clearSelection (Example.showing Example.two_services)) _ _ _).
  - shape.
  - shape.
  - exact I.
Defined.

(** X21, an example: the results unfiltered, with the empty directory
    [/b] among them; the selection is the first item of [/c]. *)
Lemma moves_do_not_raise_witness :
  returns (moveSelectionUp (helpers := Example.keep_all)
             (place ("FileListProvider", "/c", 0) (Example.showing Example.two_services))).
Proof.
  refine (proj2 (proj2 (proj2 (moves_do_not_raise (helpers := Example.keep_all)
            (place ("FileListProvider", "/c", 0) (Example.showing Example.two_services))
            _ _)) _ _)).
  - shape.
  - shape.
  - reflexivity.
  - reflexivity.
Defined.

(** X22, an example: confirming the second row. *)
Lemma select_emits_the_row_witness :
  select
    (place ("FileListProvider", "/a", 1) (Example.showing Example.two_services))
  = Value (Selected (Example.file "/a/y.js")).
Proof.
  destruct (select_emits_the_row (helpers := Example.keep_all)
              (place ("FileListProvider", "/a", 1) (Example.showing Example.two_services))
              1 ("FileListProvider", "/a", 1)) as [(item & Hitem & ->) _].
  - shape.
  - intros service directories directory d H1 H2. by exists directories.
  - reflexivity.
  - reflexivity.
  - vm_compute in Hitem. by injection Hitem as <-.
Defined.

(** X23, an example: the results of [/b] come in. *)
Lemma setResult_then_getItemAtIndex_witness :
  getItemAtIndex "FileListProvider" (Some "/b") 0 (Example.showing Example.two_services_b)
  = Value (Some (Example.file "/b/w.js")).
Proof.
  refine (proj1 (setResult_then_getItemAtIndex "FileListProvider" "/b"
                   (Example.found [Example.file "/b/w.js"])
                   (Example.showing Example.two_services)
                   (Example.showing Example.two_services_b) _) 0).
  reflexivity.
Defined.

End SelectionExamples.
